(** * A shallow embedding of the MCP protocol client (src/mcpClient.ts)

    The development follows the second revision of [mcpClient.ts] (the one
    with the three transports: stdio, websocket, http).  It models

    - the placeholder resolver [resolvePlaceholders];
    - the [McpClient] object: its fields, the promises it hands out, the
      handlers it registers on its transports and the effects it performs;
    - the event loop that feeds the client: host calls ([start], [stop],
      [callTool]) and transport events (stdout data, process exit, socket
      open/message/close, HTTP responses), each followed by the promise jobs
      it made runnable;
    - the tool side of the extension: the conversion of tool results and
      the tool registry (src/toolProvider.ts), the [mcp-call] tool and the
      removal of comments from the configuration file (src/extension.ts).

    Modelling conventions
    - JS strings are [string]s of code units below 256; JS numbers that the
      client manipulates (request ids, socket states) are integers in [Z],
      exact for every count below 2^53.
    - [undefined] is [None]; [null] is [Some JNull].
    - [JSON.parse], [JSON.stringify] and the [URL] constructor are library
      code: they are parameters of the model ([Runtime]). *)

From stdpp Require Import base option list gmap strings.
From stdpp Require Import pretty sorting.
From Stdlib Require Import ZArith Lia Ascii.

(** ** JS string primitives used by the client *)

Module JsString.

(** [s.startsWith(p)] and, when it holds, the rest [s.substring(p.length)]. *)
Fixpoint strip_prefix (p s : string) : option string :=
  match p, s with
  | "", _ => Some s
  | String a p', String b s' => if Ascii.eqb a b then strip_prefix p' s' else None
  | String _ _, "" => None
  end.

Definition startsWith (s p : string) : bool := bool_decide (is_Some (strip_prefix p s)).

(** [s.substring(n)] *)
Fixpoint substring_from (n : nat) (s : string) : string :=
  match n, s with
  | O, _ => s
  | S n', String _ s' => substring_from n' s'
  | S _, "" => ""
  end.

(** [s.split(sep)] for a one-character separator class: the pieces between
    separators, always at least one piece. *)
Fixpoint split (sep : ascii → bool) (s : string) : list string :=
  match s with
  | "" => [""]
  | String c s' =>
      if sep c then "" :: split sep s'
      else match split sep s' with
           | [] => [String c ""]
           | piece :: pieces => String c piece :: pieces
           end
  end.

Fixpoint join (sep : string) (l : list string) : string :=
  match l with
  | [] => ""
  | [x] => x
  | x :: l' => x +:+ sep +:+ join sep l'
  end.

(** [xs.pop()]: the last element (if any) and the array that remains. *)
Definition pop (xs : list string) : option string * list string :=
  (last xs, removelast xs).

(** WhiteSpace and LineTerminator code units below 256 (what [trim] strips). *)
Definition is_white (c : ascii) : bool :=
  match c with
  | "009" | "010" | "011" | "012" | "013" | " " | "160" => true
  | _ => false
  end%char.

Fixpoint trimStart (s : string) : string :=
  match s with
  | String c s' => if is_white c then trimStart s' else s
  | "" => ""
  end.

Definition trim (s : string) : string :=
  String.rev (trimStart (String.rev (trimStart s))).

(** JS truthiness of a string value: the empty string is falsy. *)
Definition truthy (s : string) : bool := negb (String.eqb s "").

(** [a || b] where [a] is a string or [undefined]. *)
Definition or_else (a : option string) (b : option string) : option string :=
  match a with
  | Some s => if truthy s then a else b
  | None => b
  end.

(** [a || ''] *)
Definition or_empty (a : option string) : string := default "" (or_else a (Some "")).

End JsString.

(** ** Placeholder resolver *)

(** The resolution context: what the resolver reads besides its arguments. *)
Record Host := {
  process_env : gmap string string;       (* process.env *)
  workspaceFolder0 : option string;       (* vscode.workspace.workspaceFolders?.[0]?.uri.fsPath *)
  process_cwd : string;                   (* process.cwd() *)
  process_platform : string;              (* process.platform *)
}.

Module Placeholder.
Import JsString.

(** [[^}]+], greedy: the longest run of characters other than the closing
    brace, and what follows it. *)
Fixpoint span_name (s : string) : string * string :=
  match s with
  | "" => ("", "")
  | String c s' =>
      if Ascii.eqb c "}" then ("", s)
      else let '(n, r) := span_name s' in (String c n, r)
  end.

(** One attempt of [/\$\{([^}]+)\}/] anchored at the head of [s]: the
    captured name and the text after the match. *)
Definition match_here (s : string) : option (string * string) :=
  match s with
  | String "$" (String "{" s') =>
      match span_name s' with
      | (String c n, String "}" rest) => Some (String c n, rest)
      | _ => None
      end
  | _ => None
  end.

(** [s.replace(/\$\{([^}]+)\}/g, f)]: scan left to right; at a match call
    [f match name] and resume after the match (the replacement text is not
    rescanned), otherwise copy one character. *)
Fixpoint replace_go (fuel : nat) (f : string → string → string) (s : string) : string :=
  match fuel with
  | O => s
  | S fuel' =>
      match match_here s with
      | Some (name, rest) => f ("${" +:+ name +:+ "}") name +:+ replace_go fuel' f rest
      | None =>
          match s with
          | "" => ""
          | String c s' => String c (replace_go fuel' f s')
          end
      end
  end.

Definition replace_all (f : string → string → string) (s : string) : string :=
  replace_go (String.length s) f s.

Definition is_path_sep (c : ascii) : bool :=
  match c with "/" | "\" => true | _ => false end%char.

(** The callback of [resolvePlaceholders]. *)
Definition resolve_match (h : Host) (workspaceFolder : option string)
    (match_ placeholder : string) : string :=
  if startsWith placeholder "env:" then
    let envVar := substring_from 4 placeholder in
    or_empty (process_env h !! envVar)
  else if String.eqb placeholder "workspaceFolder" then
    or_empty (or_else workspaceFolder (workspaceFolder0 h))
  else if String.eqb placeholder "workspaceFolderBasename" then
    let folder := or_empty (or_else workspaceFolder (workspaceFolder0 h)) in
    if truthy folder then or_empty (fst (pop (split is_path_sep folder))) else ""
  else if String.eqb placeholder "userHome" then
    or_empty (or_else (process_env h !! "HOME") (process_env h !! "USERPROFILE"))
  else if String.eqb placeholder "cwd" then
    process_cwd h
  else if String.eqb placeholder "pathSeparator" then
    if String.eqb (process_platform h) "win32" then "\" else "/"
  else
    match_.

Definition resolvePlaceholders (h : Host) (value : string)
    (workspaceFolder : option string) : string :=
  replace_all (resolve_match h workspaceFolder) value.

(** [resolveEnvPlaceholders]: every value of the record resolved, keys kept. *)
Definition resolveEnvPlaceholders (h : Host) (env : option (gmap string string))
    (workspaceFolder : option string) : option (gmap string string) :=
  match env with
  | None => None
  | Some e => Some ((λ value, resolvePlaceholders h value workspaceFolder) <$> e)
  end.

End Placeholder.


(** ** JSON values and the JS operations the client applies to them *)

#[warnings="-register-all"]
Inductive json :=
| JNull
| JBool (b : bool)
| JNum (n : Z)
| JStr (s : string)
| JArr (items : list json)
| JObj (fields : list (string * json)).

(** A JS value that came out of [JSON.parse], or [undefined] ([None]). *)
Definition jsval := option json.

Inductive Error :=
| MkError (message : string)      (* new Error(message), or an error raised by node *)
| TypeError (message : string).   (* raised by the engine *)

Definition message (e : Error) : string :=
  match e with MkError m | TypeError m => m end.

Inductive Outcome :=
| Fulfilled (value : jsval)
| Rejected (reason : Error).

Module Js.
Import JsString.

(** Own property of an object literal; [JSON.parse] keeps one entry per key. *)
Fixpoint field (k : string) (fields : list (string * json)) : jsval :=
  match fields with
  | [] => None
  | (k', v) :: rest => if String.eqb k' k then Some v else field k rest
  end.

(** [v.k] for the keys the client reads ([id], [result], [error], [message],
    [code], [serverInfo], [name], [version], [tools]); none of them exists
    on a boolean, number, string or array. *)
Definition get (v : jsval) (k : string) : Error + jsval :=
  match v with
  | None => inl (TypeError ("Cannot read properties of undefined (reading '" +:+ k +:+ "')"))
  | Some JNull => inl (TypeError ("Cannot read properties of null (reading '" +:+ k +:+ "')"))
  | Some (JObj fields) => inr (field k fields)
  | Some _ => inr None
  end.

(** The same read on a value known not to be [null] or [undefined]. *)
Definition prop (v : jsval) (k : string) : jsval :=
  match get v k with inr x => x | inl _ => None end.

Definition truthy (v : jsval) : bool :=
  match v with
  | None | Some JNull => false
  | Some (JBool b) => b
  | Some (JNum n) => negb (n =? 0)%Z
  | Some (JStr s) => JsString.truthy s
  | Some (JArr _) | Some (JObj _) => true
  end.

(** [String(v)] / template-literal conversion of a parsed JSON value. *)
Fixpoint to_string (j : json) : string :=
  match j with
  | JNull => "null"
  | JBool true => "true"
  | JBool false => "false"
  | JNum n => pretty n
  | JStr s => s
  | JArr items =>
      join "," (map (λ x, match x with JNull => "" | _ => to_string x end) items)
  | JObj _ => "[object Object]"
  end.

Definition String_ (v : jsval) : string :=
  match v with None => "undefined" | Some j => to_string j end.

(** An element of [xs.join(sep)]: [null] and [undefined] print as empty. *)
Definition join_item (v : jsval) : string :=
  match v with None | Some JNull => "" | Some j => to_string j end.

End Js.

(** ** The client object and its world *)

(** Promises are named by the order of their creation. *)
Abbreviation promise := nat (only parsing).

Record McpServerConfigExtended := {
  cfg_type : option string;
  cfg_command : option string;
  cfg_args : option (list string);
  cfg_env : option (gmap string string);
  cfg_url : option string;
  cfg_headers : option (gmap string string);
}.

(** The part of a [ChildProcess] the client looks at. *)
Record ChildProcess := {
  killed : bool;
  stdin : bool;      (* the stdin pipe exists *)
}.

(** A [ws] socket: its identity and its [readyState]. *)
Record WsSocket := {
  sock : nat;
  readyState : Z;
}.

Definition WS_CONNECTING : Z := 0.
Definition WS_OPEN : Z := 1.
Definition WS_CLOSING : Z := 2.
Definition WS_CLOSED : Z := 3.

(** The fields of [class McpClient]. *)
Record McpClient := {
  name : string;
  config : McpServerConfigExtended;
  process : option ChildProcess;
  ws : option WsSocket;
  httpUrl : option string;
  requestId : Z;
  pendingRequests : gmap Z promise;   (* id ↦ the promise whose resolve/reject pair is stored *)
  buffer : string;
  serverInfo : jsval;
  _tools : jsval;
}.

(** Who awaits the handshake: the body of [start()] (settling the promise
    [start] returned) or the socket's ['open'] handler (inside its try/catch). *)
Inductive Owner :=
| OwnStart (p : promise)
| OwnWsOpen.

(** Code suspended on a promise. *)
Inductive Cont :=
| KInitialize (o : Owner)     (* initialize(), at [await this.sendRequest('initialize', ...)] *)
| KInitialized (o : Owner)    (* initialize(), at [await this.sendNotification(...)] *)
| KDiscover (o : Owner)       (* discoverTools(), at [await this.sendRequest('tools/list', ...)] *)
| KThenResponse (p : promise) (* sendRequest over http: the [.then] callback, deriving [p] *)
| KNotified (p : promise).    (* sendNotification over http, at [await this.postJson(...)] in its try;
                                 [p] is the promise of the sendNotification call *)

Inductive Effect :=
| Log (line : string)                                            (* outputChannel.appendLine *)
| Spawn (command : string) (args : list string) (env : gmap string string)
| StdinWrite (data : string)                                     (* process.stdin.write *)
| Kill                                                           (* process.kill() *)
| WsConnect (k : nat) (url : string) (headers : option (gmap string string))
| WsSend (k : nat) (data : string)
| WsClose (k : nat)
| HttpPost (q : promise) (url : string) (body : string)          (* req.write(data); req.end() *)
| EmitExit (code signal : jsval)                                 (* this.emit('exit', ...) *)
| EmitError (err : Error)                                        (* this.emit('error', err) *)
| Allocated (id : Z)                                             (* const id = ++this.requestId *)
| Settled (p : promise) (o : Outcome).                           (* resolve / reject took effect *)

Record World := {
  client : McpClient;
  settled : gmap promise Outcome;     (* promises that are no longer pending *)
  awaiting : gmap promise Cont;       (* code suspended on a pending promise *)
  jobs : list (Cont * Outcome);       (* promise jobs ready to run, oldest first *)
  nextPromise : promise;
  nextSocket : nat;
  trace : list Effect;                (* effects so far, oldest first *)
}.

(** Library code and ambient state the client calls into. *)
Record Runtime := {
  host : Host;
  JSON_parse : string → option json;      (* [None]: SyntaxError *)
  JSON_stringify : json → string;
  URL_valid : string → bool;              (* [new URL(s)] does not throw *)
}.

Module Upd.
Definition client_ (f : McpClient → McpClient) (w : World) : World :=
  {| client := f (client w); settled := settled w; awaiting := awaiting w; jobs := jobs w;
     nextPromise := nextPromise w; nextSocket := nextSocket w; trace := trace w |}.

Definition process_ (v : option ChildProcess) (c : McpClient) : McpClient :=
  {| name := name c; config := config c; process := v; ws := ws c; httpUrl := httpUrl c;
     requestId := requestId c; pendingRequests := pendingRequests c; buffer := buffer c;
     serverInfo := serverInfo c; _tools := _tools c |}.
Definition ws_ (v : option WsSocket) (c : McpClient) : McpClient :=
  {| name := name c; config := config c; process := process c; ws := v; httpUrl := httpUrl c;
     requestId := requestId c; pendingRequests := pendingRequests c; buffer := buffer c;
     serverInfo := serverInfo c; _tools := _tools c |}.
Definition httpUrl_ (v : option string) (c : McpClient) : McpClient :=
  {| name := name c; config := config c; process := process c; ws := ws c; httpUrl := v;
     requestId := requestId c; pendingRequests := pendingRequests c; buffer := buffer c;
     serverInfo := serverInfo c; _tools := _tools c |}.
Definition requestId_ (v : Z) (c : McpClient) : McpClient :=
  {| name := name c; config := config c; process := process c; ws := ws c; httpUrl := httpUrl c;
     requestId := v; pendingRequests := pendingRequests c; buffer := buffer c;
     serverInfo := serverInfo c; _tools := _tools c |}.
Definition pendingRequests_ (v : gmap Z promise) (c : McpClient) : McpClient :=
  {| name := name c; config := config c; process := process c; ws := ws c; httpUrl := httpUrl c;
     requestId := requestId c; pendingRequests := v; buffer := buffer c;
     serverInfo := serverInfo c; _tools := _tools c |}.
Definition buffer_ (v : string) (c : McpClient) : McpClient :=
  {| name := name c; config := config c; process := process c; ws := ws c; httpUrl := httpUrl c;
     requestId := requestId c; pendingRequests := pendingRequests c; buffer := v;
     serverInfo := serverInfo c; _tools := _tools c |}.
Definition serverInfo_ (v : jsval) (c : McpClient) : McpClient :=
  {| name := name c; config := config c; process := process c; ws := ws c; httpUrl := httpUrl c;
     requestId := requestId c; pendingRequests := pendingRequests c; buffer := buffer c;
     serverInfo := v; _tools := _tools c |}.
Definition tools_ (v : jsval) (c : McpClient) : McpClient :=
  {| name := name c; config := config c; process := process c; ws := ws c; httpUrl := httpUrl c;
     requestId := requestId c; pendingRequests := pendingRequests c; buffer := buffer c;
     serverInfo := serverInfo c; _tools := v |}.

Definition settled_ (v : gmap promise Outcome) (w : World) : World :=
  {| client := client w; settled := v; awaiting := awaiting w; jobs := jobs w;
     nextPromise := nextPromise w; nextSocket := nextSocket w; trace := trace w |}.
Definition awaiting_ (v : gmap promise Cont) (w : World) : World :=
  {| client := client w; settled := settled w; awaiting := v; jobs := jobs w;
     nextPromise := nextPromise w; nextSocket := nextSocket w; trace := trace w |}.
Definition jobs_ (v : list (Cont * Outcome)) (w : World) : World :=
  {| client := client w; settled := settled w; awaiting := awaiting w; jobs := v;
     nextPromise := nextPromise w; nextSocket := nextSocket w; trace := trace w |}.
Definition nextPromise_ (v : promise) (w : World) : World :=
  {| client := client w; settled := settled w; awaiting := awaiting w; jobs := jobs w;
     nextPromise := v; nextSocket := nextSocket w; trace := trace w |}.
Definition nextSocket_ (v : nat) (w : World) : World :=
  {| client := client w; settled := settled w; awaiting := awaiting w; jobs := jobs w;
     nextPromise := nextPromise w; nextSocket := v; trace := trace w |}.
Definition trace_ (v : list Effect) (w : World) : World :=
  {| client := client w; settled := settled w; awaiting := awaiting w; jobs := jobs w;
     nextPromise := nextPromise w; nextSocket := nextSocket w; trace := v |}.
End Upd.

(** ** The methods of [McpClient] *)

Section Client.
Context (rt : Runtime).
Import JsString.

Definition MCP_PROTOCOL_VERSION : string := "2024-11-05".

Definition effect (e : Effect) (w : World) : World :=
  Upd.trace_ (trace w ++ [e]) w.

(** [this.outputChannel.appendLine(`[${this.name}] ...`)] *)
Definition appendLine (text : string) (w : World) : World :=
  effect (Log ("[" +:+ name (client w) +:+ "] " +:+ text)) w.

(** *** Promises *)

Definition new_promise (w : World) : World * promise :=
  (Upd.nextPromise_ (S (nextPromise w)) w, nextPromise w).

(** [resolve(v)] / [reject(e)]: the first settlement wins; the code
    suspended on the promise, if any, becomes a job. *)
Definition settle (p : promise) (o : Outcome) (w : World) : World :=
  match settled w !! p with
  | Some _ => w
  | None =>
      let w := effect (Settled p o) (Upd.settled_ (<[p := o]> (settled w)) w) in
      match awaiting w !! p with
      | Some k => Upd.jobs_ (jobs w ++ [(k, o)]) (Upd.awaiting_ (delete p (awaiting w)) w)
      | None => w
      end
  end.

(** [await p] (or [p.then(...)]) with continuation [k]. *)
Definition await (p : promise) (k : Cont) (w : World) : World :=
  match settled w !! p with
  | Some o => Upd.jobs_ (jobs w ++ [(k, o)]) w
  | None => Upd.awaiting_ (<[p := k]> (awaiting w)) w
  end.

(** *** Getters *)

(** [this.config.type || 'stdio'] *)
Definition transport (c : McpClient) : string :=
  or_empty (or_else (cfg_type (config c)) (Some "stdio")).

Definition tools (c : McpClient) : jsval := _tools c.

Definition isConnected (c : McpClient) : bool :=
  match process c with
  | Some proc => negb (killed proc)
  | None => false
  end.

(** *** Sending *)

Definition jsonrpc_request (id : Z) (method : string) (params : json) : json :=
  JObj [("jsonrpc", JStr "2.0"); ("id", JNum id); ("method", JStr method); ("params", params)].

Definition jsonrpc_notification (method : string) (params : json) : json :=
  JObj [("jsonrpc", JStr "2.0"); ("method", JStr method); ("params", params)].

(** [`${e.message} (code: ${e.code})`] for the [error] member of a response. *)
Definition rpc_error (e : jsval) : Error :=
  MkError (Js.String_ (Js.prop e "message") +:+ " (code: " +:+ Js.String_ (Js.prop e "code") +:+ ")").

(** What a response object settles its request with: a truthy [error]
    member rejects, otherwise the [result] member fulfils. *)
Definition response_outcome (message : jsval) : Outcome :=
  let error := Js.prop message "error" in
  if Js.truthy error then Rejected (rpc_error error)
  else Fulfilled (Js.prop message "result").

(** The [.then] callback of [sendRequest] over http; reading [error] of a
    [null] body throws, which rejects the derived promise. *)
Definition then_response (resp : jsval) : Outcome :=
  match Js.get resp "error" with
  | inl err => Rejected err
  | inr _ => response_outcome resp
  end.

(** [postJson]: a promise for the parsed response body.  It is rejected at
    once when [new URL] throws; otherwise the request is written and the
    promise waits for the response events. *)
Definition postJson (urlStr : string) (body : json) (w : World) : World * promise :=
  let '(w, q) := new_promise w in
  if URL_valid rt urlStr then
    (effect (HttpPost q urlStr (JSON_stringify rt body)) w, q)
  else
    (settle q (Rejected (TypeError "Invalid URL")) w, q).

(** [this.pendingRequests.set(id, { resolve, reject })] for promise [p] *)
Definition register (id : Z) (p : promise) (w : World) : World :=
  Upd.client_ (λ c, Upd.pendingRequests_ (<[id := p]> (pendingRequests c)) c) w.

(** [this.pendingRequests.delete(id)] *)
Definition unregister (id : Z) (w : World) : World :=
  Upd.client_ (λ c, Upd.pendingRequests_ (delete id (pendingRequests c)) c) w.

(** [++this.requestId] *)
Definition next_id (w : World) : World * Z :=
  let id := (requestId (client w) + 1)%Z in
  (effect (Allocated id) (Upd.client_ (Upd.requestId_ id) w), id).

Definition sendRequest (method : string) (params : json) (w : World) : World * promise :=
  let type := transport (client w) in
  if String.eqb type "http" then
    match httpUrl (client w) with
    | Some (String _ _ as url) =>
        let '(w, id) := next_id w in
        let request := jsonrpc_request id method params in
        let '(w, q) := postJson url request w in
        let '(w, p) := new_promise w in
        (await q (KThenResponse p) w, p)
    | _ =>
        let '(w, p) := new_promise w in
        (settle p (Rejected (MkError "HTTP transport not configured")) w, p)
    end
  else
    (* For stdio and websocket, use persistent connection + pending requests *)
    let '(w, p) := new_promise w in
    let '(w, id) := next_id w in
    let request := jsonrpc_request id method params in
    let w := register id p w in
    let message := JSON_stringify rt request in
    if String.eqb (transport (client w)) "stdio" then
      match process (client w) with
      | Some {| stdin := true |} =>
          let w := appendLine ("-> " +:+ message) w in
          (effect (StdinWrite (message +:+ String "010" "")) w, p)
      | _ =>
          (settle p (Rejected (MkError "MCP server not connected")) (unregister id w), p)
      end
    else
      (* WebSocket *)
      match ws (client w) with
      | Some socket =>
          if (readyState socket =? WS_OPEN)%Z then
            let w := appendLine ("-> " +:+ message) w in
            (effect (WsSend (sock socket) message) w, p)
          else
            (settle p (Rejected (MkError "MCP WebSocket not connected")) (unregister id w), p)
      | None =>
          (settle p (Rejected (MkError "MCP WebSocket not connected")) (unregister id w), p)
      end.

(** [sendNotification] is an async function: the promise it returns is
    fulfilled when its body ends; nothing in the body rejects it. *)
Definition sendNotification (method : string) (params : json) (w : World) : World * promise :=
  let '(w, p) := new_promise w in
  let type := transport (client w) in
  let notification := jsonrpc_notification method params in
  let message := JSON_stringify rt notification in
  if String.eqb type "http" then
    match httpUrl (client w) with
    | Some (String _ _ as url) =>
        let '(w, q) := postJson url notification w in
        (await q (KNotified p) w, p)
    | _ => (settle p (Fulfilled None) w, p)
    end
  else if String.eqb (transport (client w)) "stdio" then
    match process (client w) with
    | Some {| stdin := true |} =>
        let w := appendLine ("-> " +:+ message) w in
        let w := effect (StdinWrite (message +:+ String "010" "")) w in
        (settle p (Fulfilled None) w, p)
    | _ => (settle p (Fulfilled None) w, p)
    end
  else
    (* the guard compares with [WebSocket.OPEN], which is 1 like [WsClient.OPEN] *)
    match ws (client w) with
    | Some socket =>
        if (readyState socket =? WS_OPEN)%Z then
          let w := appendLine ("-> " +:+ message) w in
          let w := effect (WsSend (sock socket) message) w in
          (settle p (Fulfilled None) w, p)
        else (settle p (Fulfilled None) w, p)
    | None => (settle p (Fulfilled None) w, p)
    end.

Definition callTool (name : string) (args : json) (w : World) : World * promise :=
  sendRequest "tools/call" (JObj [("name", JStr name); ("arguments", args)]) w.

(** *** Handshake *)

Definition initialize_params : json :=
  JObj [("protocolVersion", JStr MCP_PROTOCOL_VERSION);
        ("capabilities", JObj [("roots", JObj [("listChanged", JBool true)])]);
        ("clientInfo", JObj [("name", JStr "vscode-mcp-proxy"); ("version", JStr "0.0.1")])].

(** [initialize()] up to its first [await]. *)
Definition initialize (own : Owner) (w : World) : World :=
  let '(w, p) := sendRequest "initialize" initialize_params w in
  await p (KInitialize own) w.

(** [discoverTools()] up to its [await]. *)
Definition discoverTools (own : Owner) (w : World) : World :=
  let '(w, p) := sendRequest "tools/list" (JObj []) w in
  await p (KDiscover own) w.

(** An exception reaches the code that awaits the handshake. *)
Definition handshake_failed (own : Owner) (err : Error) (w : World) : World :=
  match own with
  | OwnStart p => settle p (Rejected err) w
  | OwnWsOpen => appendLine ("WebSocket initialization failed: " +:+ message err) w
  end.

(** Both awaits of the handshake returned. *)
Definition handshake_done (own : Owner) (w : World) : World :=
  match own with
  | OwnStart p => settle p (Fulfilled None) w
  | OwnWsOpen => w
  end.

(** [`Connected to ${this.serverInfo.serverInfo.name} v${this.serverInfo.serverInfo.version}`] *)
Definition connected_line (info : jsval) : Error + string :=
  match Js.get info "serverInfo" with
  | inl e => inl e
  | inr si =>
      match Js.get si "name", Js.get si "version" with
      | inr n, inr v => inr ("Connected to " +:+ Js.String_ n +:+ " v" +:+ Js.String_ v)
      | inl e, _ | _, inl e => inl e
      end
  end.

(** [t => t.name] over the elements of an array. *)
Fixpoint tool_names (items : list json) : Error + list string :=
  match items with
  | [] => inr []
  | t :: rest =>
      match Js.get (Some t) "name" with
      | inl e => inl e
      | inr n =>
          match tool_names rest with
          | inl e => inl e
          | inr ns => inr (Js.join_item n :: ns)
          end
      end
  end.

(** [`Discovered ${this._tools.length} tools: ${this._tools.map(t => t.name).join(', ')}`] *)
Definition discovered_line (tools : jsval) : Error + string :=
  match tools with
  | None => inl (TypeError "Cannot read properties of undefined (reading 'length')")
  | Some JNull => inl (TypeError "Cannot read properties of null (reading 'length')")
  | Some (JArr items) =>
      match tool_names items with
      | inl e => inl e
      | inr ns =>
          inr ("Discovered " +:+ pretty (length items) +:+ " tools: " +:+ join ", " ns)
      end
  | Some _ => inl (TypeError "this._tools.map is not a function")
  end.

(** A promise job: the code after an [await], given how the awaited promise settled. *)
Definition run_job (k : Cont) (o : Outcome) (w : World) : World :=
  match k, o with
  | KInitialize own, Rejected err => handshake_failed own err w
  | KInitialize own, Fulfilled v =>
      let w := Upd.client_ (Upd.serverInfo_ v) w in
      match connected_line v with
      | inl err => handshake_failed own err w
      | inr line =>
          let w := appendLine line w in
          (* Send initialized notification *)
          let '(w, p) := sendNotification "notifications/initialized" (JObj []) w in
          await p (KInitialized own) w
      end
  | KInitialized own, Rejected err => handshake_failed own err w
  | KInitialized own, Fulfilled _ => discoverTools own w
  | KDiscover own, Rejected err => handshake_failed own err w
  | KDiscover own, Fulfilled result =>
      match Js.get result "tools" with
      | inl err => handshake_failed own err w
      | inr ts =>
          let w := Upd.client_ (Upd.tools_ ts) w in
          match discovered_line ts with
          | inl err => handshake_failed own err w
          | inr line => handshake_done own (appendLine line w)
          end
      end
  | KThenResponse p, Rejected err => settle p (Rejected err) w
  | KThenResponse p, Fulfilled resp => settle p (then_response resp) w
  | KNotified p, _ =>
      (* Ignore notification errors *)
      settle p (Fulfilled None) w
  end.

(** *** start / stop *)

Definition falsy (s : option string) : bool :=
  match s with Some (String _ _) => false | _ => true end.

Definition start (stdin_ok : bool) (w : World) : World * promise :=
  let '(w, ps) := new_promise w in
  match process (client w) with
  | Some _ => (settle ps (Fulfilled None) w, ps)
  | None =>
      let cfg := config (client w) in
      let type := transport (client w) in
      (* Get workspace folder for placeholder resolution *)
      let workspaceFolder := workspaceFolder0 (host rt) in
      let resolve value := Placeholder.resolvePlaceholders (host rt) value workspaceFolder in
      if String.eqb type "stdio" then
        if falsy (cfg_command cfg) then
          (settle ps (Rejected (MkError "stdio transport requires a `command` in server config")) w, ps)
        else
          (* Resolve placeholders in command, args, and env *)
          let command := resolve (default "" (cfg_command cfg)) in
          let args := map resolve (default [] (cfg_args cfg)) in
          let configEnv :=
            Placeholder.resolveEnvPlaceholders (host rt) (cfg_env cfg) workspaceFolder in
          let w := appendLine ("Starting MCP server: " +:+ command +:+ " " +:+ join " " args) w in
          let env := default ∅ configEnv ∪ process_env (host rt) in
          let w := effect (Spawn command args env) w in
          let w := Upd.client_ (Upd.process_ (Some {| killed := false; stdin := stdin_ok |})) w in
          (* Initialize the connection, then discover tools *)
          (initialize (OwnStart ps) w, ps)
      else if String.eqb type "websocket" then
        if falsy (cfg_url cfg) then
          (settle ps (Rejected (MkError "WebSocket transport requires a `url` in server config")) w, ps)
        else
          let url := resolve (default "" (cfg_url cfg)) in
          let w := appendLine ("Connecting via WebSocket to " +:+ url) w in
          let k := nextSocket w in
          let w := effect (WsConnect k url (cfg_headers cfg)) (Upd.nextSocket_ (S k) w) in
          let w := Upd.client_ (Upd.ws_ (Some {| sock := k; readyState := WS_CONNECTING |})) w in
          (settle ps (Fulfilled None) w, ps)
      else if String.eqb type "http" then
        if falsy (cfg_url cfg) then
          (settle ps (Rejected (MkError "HTTP transport requires a `url` in server config")) w, ps)
        else
          let url := resolve (default "" (cfg_url cfg)) in
          let w := Upd.client_ (Upd.httpUrl_ (Some url)) w in
          let w := appendLine ("Using HTTP transport to " +:+ url) w in
          (* Test initialize via HTTP *)
          (initialize (OwnStart ps) w, ps)
      else
        (settle ps (Rejected (MkError ("Unsupported MCP transport type: " +:+ type))) w, ps)
  end.

Definition stop (w : World) : World * promise :=
  let '(w, ps) := new_promise w in
  let w :=
    match process (client w) with
    | Some _ => Upd.client_ (Upd.process_ None) (effect Kill w)
    | None => w
    end in
  let w :=
    match ws (client w) with
    | Some socket => Upd.client_ (Upd.ws_ None) (effect (WsClose (sock socket)) w)
    | None => w
    end in
  let w := Upd.client_ (Upd.httpUrl_ None) w in
  let w := Upd.client_ (Upd.tools_ (Some (JArr []))) w in
  let w := Upd.client_ (Upd.serverInfo_ (Some JNull)) w in
  (settle ps (Fulfilled None) w, ps).

(** *** Receiving *)

(** [Map.prototype.get] on [pendingRequests]: its keys are the numbers
    [sendRequest] stored, so only a numeric id can hit. *)
Definition map_key (id : json) : option Z :=
  match id with JNum n => Some n | _ => None end.

(** [handleMessage]; [inl] when it throws (reading [id] of [null]). *)
Definition handleMessage (message : json) (w : World) : Error + World :=
  match Js.get (Some message) "id" with
  | inl err => inl err
  | inr None => inr w
  | inr (Some id) =>
      match map_key id with
      | Some key =>
          match pendingRequests (client w) !! key with
          | Some pending =>
              let w := unregister key w in
              inr (settle pending (response_outcome (Some message)) w)
          | None => inr w
          end
      | None => inr w
      end
  end.

(** The [try { log; parse; handleMessage } catch { log }] block shared by
    the stdout and the socket handlers. *)
Definition receive (failure : string) (text : string) (w : World) : World :=
  let w := appendLine ("<- " +:+ text) w in
  match JSON_parse rt text with
  | Some message =>
      match handleMessage message w with
      | inr w' => w'
      | inl _ => appendLine (failure +:+ text) w
      end
  | None => appendLine (failure +:+ text) w
  end.

(** The body of the [for (const line of lines)] loop of [handleData]. *)
Definition handleLine (line : string) (w : World) : World :=
  if truthy (trim line) then receive "Failed to parse message: " line w else w.

Definition is_newline (c : ascii) : bool := Ascii.eqb c "010".

Definition handleData (data : string) (w : World) : World :=
  let w := Upd.client_ (λ c, Upd.buffer_ (buffer c +:+ data) c) w in
  (* Try to parse complete JSON messages (newline-delimited) *)
  let '(last_, lines) := pop (split is_newline (buffer (client w))) in
  let w := Upd.client_ (Upd.buffer_ (or_empty last_)) w in
  foldl (λ w line, handleLine line w) w lines.

(** *** Handlers registered by [start], and the event loop *)

Inductive Event :=
| CallStart (stdin_ok : bool)            (* host: start(); [stdin_ok]: spawn gives a stdin pipe *)
| CallStop                               (* host: stop() *)
| CallTool (name : string) (args : json) (* host: callTool(name, args) *)
| StdoutData (data : string)             (* process.stdout 'data' *)
| StderrData (data : string)             (* process.stderr 'data' *)
| ProcessError (err : Error)             (* process 'error' *)
| ProcessExit (code signal : jsval)      (* process 'exit' *)
| WsOpen (k : nat)                       (* socket k: 'open' *)
| WsMessage (k : nat) (text : string)    (* socket k: 'message' *)
| WsError (k : nat) (err : Error)        (* socket k: 'error' *)
| WsClosed (k : nat) (code : Z) (reason : string)   (* socket k: 'close' *)
| HttpEnd (q : promise) (body : string)  (* POST q: response 'end' *)
| HttpError (q : promise) (err : Error). (* POST q: request 'error' *)

Definition on_process_exit (code signal : jsval) (w : World) : World :=
  let w := appendLine ("Process exited with code " +:+ Js.String_ code +:+ ", signal "
                       +:+ Js.String_ signal) w in
  let w := Upd.client_ (Upd.process_ None) w in
  effect (EmitExit code signal) w.

Definition on_process_error (err : Error) (w : World) : World :=
  effect (EmitError err) (appendLine ("Process error: " +:+ message err) w).

Definition on_ws_open (w : World) : World :=
  let w := appendLine "WebSocket connected" w in
  initialize OwnWsOpen w.

Definition on_ws_message (text : string) (w : World) : World :=
  receive "Failed to parse WS message: " text w.

Definition on_ws_error (err : Error) (w : World) : World :=
  effect (EmitError err) (appendLine ("WebSocket error: " +:+ message err) w).

Definition on_ws_close (code : Z) (reason : string) (w : World) : World :=
  let w := appendLine ("WebSocket closed: " +:+ pretty code +:+ " " +:+ reason) w in
  let w := Upd.client_ (Upd.ws_ None) w in
  effect (EmitExit (Some (JNum code)) (Some (JStr reason))) w.

(** The callbacks of [postJson]. *)
Definition on_http_end (q : promise) (body : string) (w : World) : World :=
  match JSON_parse rt body with
  | Some parsed => settle q (Fulfilled (Some parsed)) w
  | None => settle q (Rejected (MkError "Failed to parse HTTP JSON-RPC response")) w
  end.

Definition on_http_error (q : promise) (err : Error) (w : World) : World :=
  settle q (Rejected err) w.

(** The socket library updates [readyState] of socket [k] before it emits. *)
Definition ws_state (k : nat) (st : Z) (w : World) : World :=
  match ws (client w) with
  | Some socket =>
      if (sock socket =? k)%nat
      then Upd.client_ (Upd.ws_ (Some {| sock := k; readyState := st |})) w
      else w
  | None => w
  end.

(** POST [q] was written by this client. *)
Definition posted (q : promise) (w : World) : bool :=
  existsb (λ e, match e with HttpPost q' _ _ => (q' =? q)%nat | _ => false end) (trace w).

(** One turn of the event loop, before the promise jobs run.  Socket and
    HTTP events only exist for sockets and requests the client created. *)
Definition handle (e : Event) (w : World) : World :=
  match e with
  | CallStart stdin_ok => fst (start stdin_ok w)
  | CallStop => fst (stop w)
  | CallTool name args => fst (callTool name args w)
  | StdoutData data => handleData data w
  | StderrData data => appendLine ("stderr: " +:+ data) w
  | ProcessError err => on_process_error err w
  | ProcessExit code signal => on_process_exit code signal w
  | WsOpen k => if (k <? nextSocket w)%nat then on_ws_open (ws_state k WS_OPEN w) else w
  | WsMessage k text => if (k <? nextSocket w)%nat then on_ws_message text w else w
  | WsError k err => if (k <? nextSocket w)%nat then on_ws_error err w else w
  | WsClosed k code reason =>
      if (k <? nextSocket w)%nat then on_ws_close code reason (ws_state k WS_CLOSED w) else w
  | HttpEnd q body => if posted q w then on_http_end q body w else w
  | HttpError q err => if posted q w then on_http_error q err w else w
  end.

(** *** Promise jobs *)

(** An upper bound on the jobs a continuation can still cause to be
    enqueued, itself included. *)
Definition weight (k : Cont) : nat :=
  match k with
  | KInitialize _ => 5
  | KInitialized _ => 3
  | KDiscover _ | KThenResponse _ | KNotified _ => 1
  end.

Definition awaiting_weight (m : gmap promise Cont) : nat :=
  map_fold (λ _ k n, weight k + n) 0 m.

Definition backlog (w : World) : nat :=
  sum_list_with (λ j, weight (fst j)) (jobs w) + awaiting_weight (awaiting w).

Fixpoint drain_go (fuel : nat) (w : World) : World :=
  match fuel, jobs w with
  | S fuel', (k, o) :: rest => drain_go fuel' (run_job k o (Upd.jobs_ rest w))
  | _, _ => w
  end.

(** Run the promise jobs until none is left ([drain_complete] below). *)
Definition drain (w : World) : World := drain_go (backlog w) w.

Definition dispatch (e : Event) (w : World) : World := drain (handle e w).

Definition run (es : list Event) (w : World) : World :=
  foldl (λ w e, dispatch e w) w es.

End Client.

(** A freshly constructed client. *)
Definition new_McpClient (name : string) (config : McpServerConfigExtended) : World :=
  {| client := {| name := name; config := config; process := None; ws := None;
                  httpUrl := None; requestId := 0; pendingRequests := ∅; buffer := "";
                  serverInfo := Some JNull; _tools := Some (JArr []) |};
     settled := ∅; awaiting := ∅; jobs := []; nextPromise := 0; nextSocket := 0;
     trace := [] |}.

(** ** Vocabulary for statements about runs of the client *)

(** The request ids handed out, in order. *)
Definition allocated (l : list Effect) : list Z :=
  omap (λ e, match e with Allocated id => Some id | _ => None end) l.

Definition is_alloc (e : Effect) : bool :=
  match e with Allocated _ => true | _ => false end.

(** No pending request carries an id above the counter. *)
Definition pending_bounded (w : World) : Prop :=
  ∀ id, is_Some (pendingRequests (client w) !! id) → (id ≤ requestId (client w))%Z.

(** [evolves w w']: what every piece of client code guarantees between the
    world it starts in and the world it leaves. *)
Record evolves (w w' : World) : Prop := {
  ev_name : name (client w') = name (client w);
  ev_config : config (client w') = config (client w);
  ev_settled : settled w ⊆ settled w';
  ev_promise : nextPromise w ≤ nextPromise w';
  ev_socket : nextSocket w ≤ nextSocket w';
  ev_requestId : (requestId (client w) ≤ requestId (client w'))%Z;
  ev_trace : ∃ l, trace w' = trace w ++ l
               ∧ StronglySorted Z.lt (allocated l)
               ∧ Forall (λ id, requestId (client w) < id ≤ requestId (client w'))%Z (allocated l);
  ev_pending : pending_bounded w → pending_bounded w';
  ev_process : transport (client w) ≠ "stdio" →
               process (client w) = None → process (client w') = None;
  ev_http : transport (client w) = "http" →
            pendingRequests (client w) = ∅ → pendingRequests (client w') = ∅;
  ev_range : ∀ id (p : promise), pendingRequests (client w') !! id = Some p →
             pendingRequests (client w) !! id = Some p ∨ nextPromise w ≤ p;
}.

(** The promise a continuation will settle, if any. *)
Definition target (k : Cont) : option promise :=
  match k with
  | KInitialize (OwnStart p) | KInitialized (OwnStart p) | KDiscover (OwnStart p)
  | KThenResponse p | KNotified p => Some p
  | _ => None
  end.

(** [p] is not the promise of a pending request. *)
Definition free (w : World) (p : promise) : Prop :=
  ∀ id, pendingRequests (client w) !! id ≠ Some p.

Definition usable (w : World) (p : promise) : Prop :=
  p < nextPromise w ∧ free w p.

Definition cont_ok (w : World) (k : Cont) : Prop :=
  ∀ t, target k = Some t → usable w t.

(** Well-formed worlds: every promise in use has been created; a pending
    request's promise is unsettled, belongs to one id only, and is settled
    by nothing but the table. *)
Record wf (w : World) : Prop := {
  wf_settled : ∀ p : promise, is_Some (settled w !! p) → p < nextPromise w;
  wf_awaiting : ∀ (p : promise) k, awaiting w !! p = Some k → p < nextPromise w ∧ cont_ok w k;
  wf_jobs : ∀ k o, (k, o) ∈ jobs w → cont_ok w k;
  wf_pending : ∀ id (p : promise), pendingRequests (client w) !! id = Some p →
               p < nextPromise w ∧ settled w !! p = None;
  wf_inj : ∀ i j p, pendingRequests (client w) !! i = Some p →
           pendingRequests (client w) !! j = Some p → i = j;
  wf_posted : ∀ q u b, HttpPost q u b ∈ trace w → usable w q;
}.

(** The id a parsed message answers, when it is a number. *)
Definition response_id (m : json) : option Z :=
  match Js.get (Some m) "id" with
  | inr (Some (JNum n)) => Some n
  | _ => None
  end.

Section Runs.
Context (rt : Runtime).

(** The outcome carried by the first text of [texts] that parses to a
    response for request [id]. *)
Fixpoint first_response (id : Z) (texts : list string) : option Outcome :=
  match texts with
  | [] => None
  | t :: rest =>
      match JSON_parse rt t with
      | Some m =>
          if bool_decide (response_id m = Some id) then Some (response_outcome (Some m))
          else first_response id rest
      | None => first_response id rest
      end
  end.

(** Several [callTool] calls in a row, before anything else happens. *)
Fixpoint call_all (calls : list (string * json)) (w : World) : World * list promise :=
  match calls with
  | [] => (w, [])
  | (n, a) :: rest =>
      let '(w, p) := callTool rt n a w in
      let '(w, ps) := call_all rest w in
      (w, p :: ps)
  end.

(** Texts handed one after the other to the receiving block of a handler. *)
Definition receive_all (failure : string) (texts : list string) (w : World) : World :=
  foldl (λ w t, receive rt failure t w) w texts.

Definition not_connected (c : McpClient) : Error :=
  if String.eqb (transport c) "http" then MkError "HTTP transport not configured"
  else if String.eqb (transport c) "stdio" then MkError "MCP server not connected"
  else MkError "MCP WebSocket not connected".

(** How the promise of a POST settles when its response ends. *)
Definition http_body_outcome (body : string) : Outcome :=
  match JSON_parse rt body with
  | Some parsed => Fulfilled (Some parsed)
  | None => Rejected (MkError "Failed to parse HTTP JSON-RPC response")
  end.

(** The world an http [sendRequest] leaves when the URL is configured and
    well formed. *)
Definition http_sent (method : string) (params : json) (url : string) (w : World) : World :=
  let id := (requestId (client w) + 1)%Z in
  let q := nextPromise w in
  Upd.awaiting_ (<[q := KThenResponse (S q)]> (awaiting w))
    (Upd.nextPromise_ (S (S q))
       (effect (HttpPost q url (JSON_stringify rt (jsonrpc_request id method params)))
          (effect (Allocated id) (Upd.client_ (Upd.requestId_ id) w)))).

End Runs.

(** The [.then] stage of [sendRequest] applied to the settlement of the POST. *)
Definition http_request_outcome (o : Outcome) : Outcome :=
  match o with
  | Fulfilled resp => then_response resp
  | Rejected err => Rejected err
  end.

(** The owner of a handshake continuation. *)
Definition handshake_owner (k : Cont) : option Owner :=
  match k with
  | KInitialize own | KInitialized own | KDiscover own => Some own
  | KThenResponse _ | KNotified _ => None
  end.

(** A handshake step fails with [e]: the awaited promise was rejected with
    [e], or the code that consumes its value throws [e]. *)
Definition handshake_error (k : Cont) (o : Outcome) : option Error :=
  match k, o with
  | (KInitialize _ | KInitialized _ | KDiscover _), Rejected e => Some e
  | KInitialize _, Fulfilled v =>
      match connected_line v with inl e => Some e | inr _ => None end
  | KDiscover _, Fulfilled result =>
      match Js.get result "tools" with
      | inl e => Some e
      | inr ts => match discovered_line ts with inl e => Some e | inr _ => None end
      end
  | _, _ => None
  end.


(** A stream transport on which [sendRequest] writes. *)
Definition connected (w : World) : bool :=
  if String.eqb (transport (client w)) "http" then false
  else if String.eqb (transport (client w)) "stdio" then
    match process (client w) with Some {| stdin := true |} => true | _ => false end
  else
    match ws (client w) with
    | Some socket => (readyState socket =? WS_OPEN)%Z
    | None => false
    end.

(** Frames: [unframe frames rest] is the text in which every frame is
    followed by a newline and [rest] comes last. *)
Definition unframe (frames : list string) (rest : string) : string :=
  foldr (λ f acc, f +:+ String "010" acc) rest frames.

Fixpoint no_newline (s : string) : bool :=
  match s with
  | "" => true
  | String c s' => negb (is_newline c) && no_newline s'
  end.

(** ** Vocabulary for statements about the resolver *)

Module Template.
Import JsString Placeholder.

(** The name of a token: not empty, no closing brace inside. *)
Fixpoint closes (s : string) : bool :=
  match s with
  | "" => false
  | String c s' => Ascii.eqb c "}" || closes s'
  end.

Definition is_name (n : string) : bool := JsString.truthy n && negb (closes n).

(** The text between tokens: no dollar sign directly followed by an
    opening brace. *)
Fixpoint opens (s : string) : bool :=
  match s with
  | "" => false
  | String c s' =>
      match s' with
      | String d _ => (Ascii.eqb c "$" && Ascii.eqb d "{") || opens s'
      | "" => false
      end
  end.

Definition no_brace_first (s : string) : Prop :=
  match s with String c _ => c ≠ "{"%char | "" => True end.

(** A template: text pieces alternating with tokens, then a last text. *)
Definition source (parts : list (string * string)) (tail : string) : string :=
  foldr (λ tn acc, fst tn +:+ "${" +:+ snd tn +:+ "}" +:+ acc) tail parts.

Definition rendered (value : string → string) (parts : list (string * string))
    (tail : string) : string :=
  foldr (λ tn acc, fst tn +:+ value (snd tn) +:+ acc) tail parts.

Definition well_formed (parts : list (string * string)) (tail : string) : bool :=
  forallb (λ tn, negb (opens (fst tn)) && is_name (snd tn)) parts && negb (opens tail).

(** What the resolver puts in place of the token named [n]. *)
Definition expand (h : Host) (workspaceFolder : option string) (n : string) : string :=
  resolve_match h workspaceFolder ("${" +:+ n +:+ "}") n.

(** The names the resolver knows, besides the [env:] family. *)
Definition recognized : list string :=
  ["workspaceFolder"; "workspaceFolderBasename"; "userHome"; "cwd"; "pathSeparator"].

End Template.

(** ** Sample hosts, configurations and messages *)

Module Demo.
Import JsString.

Definition h0 : Host :=
  {| process_env := <["HOME" := "/home/u"]> (<["FOO" := "bar"]> ∅);
     workspaceFolder0 := Some "/work/proj";
     process_cwd := "/tmp";
     process_platform := "linux" |}.

(** A serializer in the shape of [JSON.stringify] (no escaping), and a
    parser that recognizes the serializations of a given table of values. *)
Definition dq : string := String (ascii_of_nat 34) "".

Fixpoint stringify (j : json) : string :=
  match j with
  | JNull => "null"
  | JBool true => "true"
  | JBool false => "false"
  | JNum n => pretty n
  | JStr s => dq +:+ s +:+ dq
  | JArr items => "[" +:+ join "," (map stringify items) +:+ "]"
  | JObj fields =>
      "{" +:+ join "," (map (λ kv, dq +:+ fst kv +:+ dq +:+ ":" +:+ stringify (snd kv)) fields)
      +:+ "}"
  end.

Definition parse_in (table : list json) (text : string) : option json :=
  find (λ j, String.eqb (stringify j) text) table.

Definition initialize_ok (id : Z) : json :=
  JObj [("jsonrpc", JStr "2.0"); ("id", JNum id);
        ("result", JObj [("protocolVersion", JStr "2024-11-05"); ("capabilities", JObj []);
                         ("serverInfo", JObj [("name", JStr "mock"); ("version", JStr "0.1")])])].

Definition tools_ok (id : Z) : json :=
  JObj [("jsonrpc", JStr "2.0"); ("id", JNum id);
        ("result", JObj [("tools", JArr [JObj [("name", JStr "echo")];
                                         JObj [("name", JStr "sum")]])])].

Definition call_ok (id : Z) (text : string) : json :=
  JObj [("jsonrpc", JStr "2.0"); ("id", JNum id);
        ("result", JObj [("content", JArr [JObj [("type", JStr "text"); ("text", JStr text)]])])].

Definition error_response (id : Z) : json :=
  JObj [("jsonrpc", JStr "2.0"); ("id", JNum id);
        ("error", JObj [("code", JNum (-32601)); ("message", JStr "Unknown")])].

Definition table : list json :=
  [initialize_ok 1; tools_ok 2; error_response 1; error_response 2;
   call_ok 3 "Echo: hi"; call_ok 4 "7"; error_response 4; JObj []].

Definition rt0 : Runtime :=
  {| host := h0; JSON_parse := parse_in table; JSON_stringify := stringify;
     URL_valid := λ _, true |}.

Definition stdio_config : McpServerConfigExtended :=
  {| cfg_type := None; cfg_command := Some "node"; cfg_args := Some ["server.js"];
     cfg_env := None; cfg_url := None; cfg_headers := None |}.

Definition websocket_config : McpServerConfigExtended :=
  {| cfg_type := Some "websocket"; cfg_command := None; cfg_args := None;
     cfg_env := None; cfg_url := Some "ws://127.0.0.1:8080"; cfg_headers := None |}.

Definition http_config : McpServerConfigExtended :=
  {| cfg_type := Some "http"; cfg_command := None; cfg_args := None;
     cfg_env := None; cfg_url := Some "http://127.0.0.1:8080"; cfg_headers := None |}.

Definition nl : string := String "010" "".

(** A line on stdout carrying the message [j]. *)
Definition line (j : json) : string := stringify j +:+ nl.

Definition echo_args : json := JObj [("message", JStr "hi")].
Definition sum_args : json := JObj [("a", JNum 3); ("b", JNum 4)].

(** A stdio session after a successful handshake. *)
Definition stdio_handshake : list Event :=
  [CallStart true; StdoutData (line (initialize_ok 1)); StdoutData (line (tools_ok 2))].

Definition stdio_ready : World := run rt0 stdio_handshake (new_McpClient "demo" stdio_config).

(** An http session: [start()], then the responses to the three POSTs of
    the handshake (promises 1, 4 and 5 are those of the POSTs). *)
Definition http_handshake : list Event :=
  [CallStart true; HttpEnd 1 (stringify (initialize_ok 1)); HttpEnd 4 (stringify (JObj []));
   HttpEnd 5 (stringify (tools_ok 2))].

(** Two calls in flight and their answers, in the opposite order. *)
Definition two_calls : list (string * json) := [("echo", echo_args); ("sum", sum_args)].
Definition two_answers : list string :=
  [stringify (call_ok 4 "7"); stringify (call_ok 3 "Echo: hi")].

(** A websocket session whose server answers [initialize] with an error. *)
Definition websocket_refused : list Event :=
  [CallStart true; WsOpen 0; WsMessage 0 (stringify (error_response 1))].

End Demo.

(** ** Vocabulary for statements about sessions *)

(** [start()] or a request is refused: the promise is rejected with [msg]
    and nothing else happens. *)
Definition refused (w w' : World) (p : promise) (msg : string) : Prop :=
  settled w' !! p = Some (Rejected (MkError msg))
  ∧ client w' = client w
  ∧ trace w' = trace w ++ [Settled p (Rejected (MkError msg))].

(** The events that assign the process handle. *)
Definition touches_process (e : Event) : bool :=
  match e with CallStart _ | CallStop | ProcessExit _ _ => true | _ => false end.

Section Vocabulary.
Context (rt : Runtime).

(** The body of an HTTP response parses to a JSON-RPC response that settles
    the request with [result]. *)
Definition replies (body : string) (result : jsval) : Prop :=
  ∃ m, JSON_parse rt body = Some m ∧ then_response (Some m) = Fulfilled result.

(** The text parses to a response that carries [id] and settles its request
    with [result]. *)
Definition answers (text : string) (id : Z) (result : jsval) : Prop :=
  ∃ m, JSON_parse rt text = Some m ∧ response_id m = Some id
       ∧ response_outcome (Some m) = Fulfilled result.

(** A complete, non-blank line of output. *)
Definition is_line (text : string) : Prop :=
  no_newline text = true ∧ JsString.truthy (JsString.trim text) = true.

End Vocabulary.

(** What was written to the child's stdin, sent on the sockets and
    posted, in order. *)
Definition stdin_writes (l : list Effect) : list string :=
  omap (λ e, match e with StdinWrite d => Some d | _ => None end) l.

Definition newline : string := String "010" "".

Definition ws_sends (l : list Effect) : list (nat * string) :=
  omap (λ e, match e with WsSend k d => Some (k, d) | _ => None end) l.

Definition http_posts (l : list Effect) : list (promise * string * string) :=
  omap (λ e, match e with HttpPost q u b => Some (q, u, b) | _ => None end) l.

(** ** The extension's configuration helpers (src/extension.ts) *)

Module Extension.
Import JsString.

(** The [while (rel.startsWith('/')) rel = rel.slice(1)] loop. *)
Fixpoint strip_slashes (rel : string) : string :=
  match rel with
  | String "/" rel' => strip_slashes rel'
  | _ => rel
  end.

Definition normalizeRelativeConfigPath (configFile : string) : string :=
  let rel := trim configFile in
  let rel := if startsWith rel "./" then substring_from 2 rel else rel in
  strip_slashes rel.

(** Line terminators among the code units below 256: what [.] does not
    match and what [$] stops at under the [m] flag. *)
Definition is_line_terminator (c : ascii) : bool :=
  match c with "010" | "013" => true | _ => false end%char.

(** [content.replace(/\/\/.*$/gm, '')]: from each [//] found outside a
    removed stretch, everything up to the end of the line goes. *)
Fixpoint strip_line_comments_from (in_comment : bool) (s : string) : string :=
  match s with
  | "" => ""
  | String c s' =>
      if in_comment then
        if is_line_terminator c then String c (strip_line_comments_from false s')
        else strip_line_comments_from true s'
      else
        match c, s' with
        | "/"%char, String "/" s'' => strip_line_comments_from true s''
        | _, _ => String c (strip_line_comments_from false s')
        end
  end.

Definition strip_line_comments (content : string) : string :=
  strip_line_comments_from false content.

(** What follows the first [*/] of [s], if there is one. *)
Fixpoint after_close (s : string) : option string :=
  match s with
  | "" => None
  | String c s' =>
      match c, s' with
      | "*"%char, String "/" rest => Some rest
      | _, _ => after_close s'
      end
  end.

(** [content.replace(/\/\*[\s\S]*?\*\//g, '')]: at each [/*] that has a
    [*/] after it, the shortest such stretch goes; the scan resumes after
    it. *)
Fixpoint strip_block_comments_go (fuel : nat) (s : string) : string :=
  match fuel with
  | O => s
  | S fuel' =>
      match s with
      | "" => ""
      | String c s' =>
          match c, s' with
          | "/"%char, String "*" body =>
              match after_close body with
              | Some rest => strip_block_comments_go fuel' rest
              | None => String c (strip_block_comments_go fuel' s')
              end
          | _, _ => String c (strip_block_comments_go fuel' s')
          end
      end
  end.

Definition strip_block_comments (content : string) : string :=
  strip_block_comments_go (String.length content) content.

(** The text [loadMcpConfig] hands to [JSON.parse]. *)
Definition jsonContent (content : string) : string :=
  strip_block_comments (strip_line_comments content).

End Extension.

(** Vocabulary for statements about comment removal: a text without a
    slash, and a text without a line terminator. *)
Fixpoint no_slash (s : string) : bool :=
  match s with
  | "" => true
  | String c s' => negb (Ascii.eqb c "/") && no_slash s'
  end.

Fixpoint one_line (s : string) : bool :=
  match s with
  | "" => true
  | String c s' => negb (Extension.is_line_terminator c) && one_line s'
  end.

(** No star of [s] is followed by a slash. *)
Fixpoint no_close (s : string) : bool :=
  match s with
  | "" => true
  | String c s' =>
      negb (Ascii.eqb c "*" && match s' with String d _ => Ascii.eqb d "/" | "" => false end)
      && no_close s'
  end.

(** No slash of [s] is followed by a slash or a star. *)
Fixpoint no_opener (s : string) : bool :=
  match s with
  | "" => true
  | String c s' =>
      negb (Ascii.eqb c "/"
            && match s' with
               | String d _ => Ascii.eqb d "/" || Ascii.eqb d "*"
               | "" => false
               end)
      && no_opener s'
  end.

(** ** Tool results for the language model (src/toolProvider.ts, src/extension.ts) *)

(** [new vscode.LanguageModelTextPart(value)] *)
Inductive LanguageModelTextPart :=
| TextPart (value : jsval).

Module ToolResult.
Import JsString.

(** [for (const x of v)] and what [v] must be for it: the elements of an
    array, the characters of a string; nothing else that [JSON.parse]
    produces is iterable.  [what] is the expression named in the error. *)
Definition iterate (what : string) (v : jsval) : Error + list json :=
  match v with
  | Some (JArr items) => inr items
  | Some (JStr s) => inr (map (λ c, JStr (String c "")) (String.list_ascii_of_string s))
  | _ => inl (TypeError (what +:+ " is not iterable"))
  end.

(** [v === s] for a string literal [s] *)
Definition is_string (v : jsval) (s : string) : bool :=
  match v with Some (JStr t) => String.eqb t s | _ => false end.

(** The body of the loop of [convertResult]: the parts one content item
    adds.  The members read here ([type], [text], [mimeType], [resource])
    exist on objects only. *)
Definition convert_content (content : json) : Error + list LanguageModelTextPart :=
  match Js.get (Some content) "type" with
  | inl err => inl err
  | inr type =>
      if is_string type "text" then
        inr [TextPart (Js.prop (Some content) "text")]
      else if is_string type "image" then
        (* For images, we return a description *)
        inr [TextPart (Some (JStr ("[Image: "
               +:+ Js.String_ (Js.prop (Some content) "mimeType") +:+ "]")))]
      else if is_string type "resource" then
        match Js.get (Js.prop (Some content) "resource") "text" with
        | inl err => inl err
        | inr text => if Js.truthy text then inr [TextPart text] else inr []
        end
      else inr []
  end.

Fixpoint convert_contents (items : list json) : Error + list LanguageModelTextPart :=
  match items with
  | [] => inr []
  | content :: rest =>
      match convert_content content with
      | inl err => inl err
      | inr parts =>
          match convert_contents rest with
          | inl err => inl err
          | inr more => inr (parts ++ more)
          end
      end
  end.

Definition completed : LanguageModelTextPart :=
  TextPart (Some (JStr "Tool completed successfully")).

(** [McpToolProvider.convertResult]; [inl] when it throws. *)
Definition convertResult (result : jsval) : Error + list LanguageModelTextPart :=
  match Js.get result "content" with
  | inl err => inl err
  | inr content =>
      match iterate "result.content" content with
      | inl err => inl err
      | inr items =>
          match convert_contents items with
          | inl err => inl err
          | inr [] => inr [completed]
          | inr parts => inr parts
          end
      end
  end.

(** The end of [McpToolProvider.invoke], after [callTool] has settled with
    [o]: the line logged, if any, and the parts of the result handed to
    the language model.  Both failures end in the [catch]. *)
Definition invoke_result (client_name : string) (o : Outcome)
    : list string * list LanguageModelTextPart :=
  let failed err :=
    (["[" +:+ client_name +:+ "] Tool error: " +:+ message err],
     [TextPart (Some (JStr ("Error: " +:+ message err)))]) in
  match o with
  | Rejected err => failed err
  | Fulfilled result =>
      match convertResult result with
      | inl err => failed err
      | inr parts => ([], parts)
      end
  end.

(** [result.content.filter(c => c.type === 'text')] followed by
    [.map(c => new vscode.LanguageModelTextPart(c.text))], in [mcp-call]. *)
Fixpoint text_contents (items : list json) : Error + list LanguageModelTextPart :=
  match items with
  | [] => inr []
  | c :: rest =>
      match Js.get (Some c) "type" with
      | inl err => inl err
      | inr type =>
          match text_contents rest with
          | inl err => inl err
          | inr parts =>
              inr (if is_string type "text" then TextPart (Js.prop (Some c) "text") :: parts
                   else parts)
          end
      end
  end.

(** The end of the [invoke] of [mcp-call], after [callTool] has settled
    with [o]. *)
Definition mcp_call_result (o : Outcome) : list LanguageModelTextPart :=
  let failed err := [TextPart (Some (JStr ("Error calling tool: " +:+ message err)))] in
  match o with
  | Rejected err => failed err
  | Fulfilled result =>
      match Js.get result "content" with
      | inl err => failed err
      | inr (Some (JArr items)) =>
          match text_contents items with
          | inl err => failed err
          | inr [] => [completed]
          | inr textParts => textParts
          end
      | inr None => failed (TypeError "Cannot read properties of undefined (reading 'filter')")
      | inr (Some JNull) => failed (TypeError "Cannot read properties of null (reading 'filter')")
      | inr (Some _) => failed (TypeError "result.content.filter is not a function")
      end
  end.

End ToolResult.

(** A content item that is neither an image nor a resource. *)
Definition plain_content (c : json) : bool :=
  match Js.get (Some c) "type" with
  | inl _ => false
  | inr type => negb (ToolResult.is_string type "image" || ToolResult.is_string type "resource")
  end.

Definition text_item (text : string) : json :=
  JObj [("type", JStr "text"); ("text", JStr text)].

(** ** The tool registry (src/toolProvider.ts, class ToolRegistry) *)

(** The fields of [class ToolRegistry]; a [vscode.Disposable] is named by
    the order of its creation. *)
Record ToolRegistry := {
  disposables : list nat;
  registeredTools : gmap string nat;
}.

Inductive RegistryEffect :=
| RegistryLog (line : string)                     (* outputChannel.appendLine *)
| LmRegisterTool (toolName : string) (d : nat)    (* vscode.lm.registerTool returned d *)
| DisposableDispose (d : nat).                    (* disposable.dispose() *)

Record RegistryWorld := {
  registry : ToolRegistry;
  nextDisposable : nat;
  registry_trace : list RegistryEffect;
}.

Definition new_ToolRegistry : RegistryWorld :=
  {| registry := {| disposables := []; registeredTools := ∅ |};
     nextDisposable := 0; registry_trace := [] |}.

Section Registry.
(** [vscode.lm.registerTool(name, provider)] is library code: the names it
    refuses, and with what error. *)
Context (lm_refuses : string → option Error).

Definition registry_log (line : string) (r : RegistryWorld) : RegistryWorld :=
  {| registry := registry r; nextDisposable := nextDisposable r;
     registry_trace := registry_trace r ++ [RegistryLog line] |}.

(** [`${client.name}_${tool.name}`]; [inl] when reading [tool.name] throws. *)
Definition toolName (c : McpClient) (tool : json) : Error + string :=
  match Js.get (Some tool) "name" with
  | inl err => inl err
  | inr n => inr (name c +:+ "_" +:+ Js.String_ n)
  end.

(** [registerTool]: the world it leaves, and the exception if it throws
    (only the tool name is computed outside its [try]). *)
Definition registerTool (c : McpClient) (tool : json) (r : RegistryWorld)
    : RegistryWorld * option Error :=
  match toolName c tool with
  | inl err => (r, Some err)
  | inr tn =>
      (* Check if already registered *)
      if bool_decide (is_Some (registeredTools (registry r) !! tn)) then
        (registry_log ("Tool " +:+ tn +:+ " already registered, skipping") r, None)
      else
        match lm_refuses tn with
        | None =>
            let d := nextDisposable r in
            let r :=
              {| registry :=
                   {| disposables := disposables (registry r) ++ [d];
                      registeredTools := <[tn := d]> (registeredTools (registry r)) |};
                 nextDisposable := S d;
                 registry_trace := registry_trace r ++ [LmRegisterTool tn d] |} in
            (registry_log ("Registered tool: " +:+ tn) r, None)
        | Some err =>
            (registry_log ("Failed to register tool " +:+ tn +:+ ": " +:+ message err) r, None)
        end
  end.

(** A [for (const tool of ...)] loop whose body may throw. *)
Fixpoint for_each (body : json → RegistryWorld → RegistryWorld * option Error)
    (items : list json) (r : RegistryWorld) : RegistryWorld * option Error :=
  match items with
  | [] => (r, None)
  | tool :: rest =>
      match body tool r with
      | (r', None) => for_each body rest r'
      | (r', Some err) => (r', Some err)
      end
  end.

Definition registerClientTools (c : McpClient) (r : RegistryWorld)
    : RegistryWorld * option Error :=
  match ToolResult.iterate "client.tools" (tools c) with
  | inl err => (r, Some err)
  | inr items => for_each (registerTool c) items r
  end.

(** The body of the loop of [unregisterClientTools]. *)
Definition unregisterTool (c : McpClient) (tool : json) (r : RegistryWorld)
    : RegistryWorld * option Error :=
  match toolName c tool with
  | inl err => (r, Some err)
  | inr tn =>
      match registeredTools (registry r) !! tn with
      | Some d =>
          let r :=
            {| registry :=
                 {| disposables := disposables (registry r);
                    registeredTools := delete tn (registeredTools (registry r)) |};
               nextDisposable := nextDisposable r;
               registry_trace := registry_trace r ++ [DisposableDispose d] |} in
          (registry_log ("Unregistered tool: " +:+ tn) r, None)
      | None => (r, None)
      end
  end.

Definition unregisterClientTools (c : McpClient) (r : RegistryWorld)
    : RegistryWorld * option Error :=
  match ToolResult.iterate "client.tools" (tools c) with
  | inl err => (r, Some err)
  | inr items => for_each (unregisterTool c) items r
  end.

Definition dispose (r : RegistryWorld) : RegistryWorld :=
  {| registry := {| disposables := []; registeredTools := ∅ |};
     nextDisposable := nextDisposable r;
     registry_trace := registry_trace r ++ (DisposableDispose <$> disposables (registry r)) |}.

Inductive RegistryCall :=
| CallRegister (c : McpClient)
| CallUnregister (c : McpClient)
| CallDispose.

(** One call from the host; an exception it throws is the host's. *)
Definition registry_call (call : RegistryCall) (r : RegistryWorld) : RegistryWorld :=
  match call with
  | CallRegister c => fst (registerClientTools c r)
  | CallUnregister c => fst (unregisterClientTools c r)
  | CallDispose => dispose r
  end.

Definition registry_run (calls : list RegistryCall) (r : RegistryWorld) : RegistryWorld :=
  foldl (λ r call, registry_call call r) r calls.

End Registry.

(** The first exception the loop over a tool list meets, and the tools
    before it. *)
Fixpoint first_throw (c : McpClient) (items : list json) : option Error :=
  match items with
  | [] => None
  | t :: rest =>
      match toolName c t with
      | inl err => Some err
      | inr _ => first_throw c rest
      end
  end.

Fixpoint names_before_throw (c : McpClient) (items : list json) : list string :=
  match items with
  | [] => []
  | t :: rest =>
      match toolName c t with
      | inl _ => []
      | inr tn => tn :: names_before_throw c rest
      end
  end.

(** What holds of a registry between calls. *)
Record registry_ok (r : RegistryWorld) : Prop := {
  ok_tracked : ∀ tn d, registeredTools (registry r) !! tn = Some d → d ∈ disposables (registry r);
  ok_fresh : Forall (λ d, d < nextDisposable r) (disposables (registry r));
  ok_nodup : NoDup (disposables (registry r));
  ok_inj : ∀ a b d, registeredTools (registry r) !! a = Some d →
           registeredTools (registry r) !! b = Some d → a = b;
}.

(** ** The [mcp-call] tool (src/extension.ts) *)

Section McpCall.
Context (rt : Runtime).
Import JsString.

(** [mcpClients.get(server)] on the map of started clients, kept in
    insertion order. *)
Fixpoint clients_get (server : string) (mcpClients : list (string * World)) : option World :=
  match mcpClients with
  | [] => None
  | (k, w) :: rest => if String.eqb k server then Some w else clients_get server rest
  end.

(** The line [invoke] writes to the output channel first. *)
Definition mcp_call_log (server tool : string) (args : jsval) : string :=
  "mcp-call: server=" +:+ server +:+ ", tool=" +:+ tool +:+ ", args="
  +:+ match args with Some a => JSON_stringify rt a | None => "undefined" end.

(** The [invoke] of [mcp-call] up to its [await]: the line it logs, and
    either the result it returns at once, or the client's world after
    [callTool] and the promise awaited. *)
Definition mcp_call_invoke (mcpClients : list (string * World)) (server tool : string)
    (args : jsval) : string * (list LanguageModelTextPart + World * promise) :=
  (mcp_call_log server tool args,
   match clients_get server mcpClients with
   | None =>
       let keys := join ", " (map fst mcpClients) in
       let available := if truthy keys then keys else "none" in
       inl [TextPart (Some (JStr ("Error: MCP server '" +:+ server
              +:+ "' not found. Available servers: " +:+ available)))]
   | Some w =>
       if isConnected (client w) then
         inr (callTool rt tool (if Js.truthy args then default (JObj []) args else JObj []) w)
       else
         inl [TextPart (Some (JStr ("Error: MCP server '" +:+ server
                +:+ "' is not connected")))]
   end).

End McpCall.

(** Vocabulary for statements about placeholders. *)
Fixpoint mentions (c : ascii) (s : string) : bool :=
  match s with
  | "" => false
  | String d s' => Ascii.eqb d c || mentions c s'
  end.

Fixpoint no_path_sep (s : string) : bool :=
  match s with
  | "" => true
  | String c s' => negb (Placeholder.is_path_sep c) && no_path_sep s'
  end.

(** ** More samples *)

Module Samples.
Import JsString Demo.

(** A runtime whose [URL] constructor refuses every string. *)
Definition rt_no_url : Runtime :=
  {| host := h0; JSON_parse := parse_in table; JSON_stringify := stringify;
     URL_valid := λ _, false |}.

(** A configuration without a command. *)
Definition no_command : McpServerConfigExtended :=
  {| cfg_type := None; cfg_command := None; cfg_args := None;
     cfg_env := None; cfg_url := None; cfg_headers := None |}.

(** The results carried by [initialize_ok] and [tools_ok]. *)
Definition initialize_result : jsval :=
  Some (JObj [("protocolVersion", JStr "2024-11-05"); ("capabilities", JObj []);
              ("serverInfo", JObj [("name", JStr "mock"); ("version", JStr "0.1")])]).

Definition two_tools : jsval :=
  Some (JArr [JObj [("name", JStr "echo")]; JObj [("name", JStr "sum")]]).

Definition tools_result : jsval :=
  Some (JObj [("tools", JArr [JObj [("name", JStr "echo")]; JObj [("name", JStr "sum")]])]).

(** The result of a call to [echo]. *)
Definition echo_result : jsval := Some (JObj [("content", JArr [text_item "Echo: hi"])]).

(** A [vscode.lm.registerTool] that accepts every name. *)
Definition lm_accepts_all : string → option Error := λ _, None.

(** A configuration file with a comment on a line of its own and a URL. *)
Definition mcp_json : string :=
  "{" +:+ nl
  +:+ "  // the server" +:+ nl
  +:+ "  " +:+ dq +:+ "url" +:+ dq +:+ ": " +:+ dq +:+ "http://localhost:8080" +:+ dq +:+ nl
  +:+ "}".

End Samples.

(** * Properties *)

(** ** Strings *)

Module JsStringFacts.
Import JsString.

Lemma app_cons (c : ascii) (s t : string) : String c s +:+ t = String c (s +:+ t).
Proof. reflexivity. Qed.

Lemma app_nil_l (t : string) : "" +:+ t = t.
Proof. reflexivity. Qed.

Lemma app_nil_r (s : string) : s +:+ "" = s.
Proof. induction s as [|c s IH]; [done|]. by rewrite app_cons, IH. Qed.

Lemma app_assoc (s t u : string) : (s +:+ t) +:+ u = s +:+ t +:+ u.
Proof. induction s as [|c s IH]; [done|]. by rewrite !app_cons, IH. Qed.

Lemma length_app (s t : string) :
  String.length (s +:+ t) = (String.length s + String.length t)%nat.
Proof. induction s as [|c s IH]; [done|]. rewrite app_cons. simpl. by rewrite IH. Qed.

End JsStringFacts.

(** ** The placeholder resolver *)

Module PlaceholderFacts.
Import JsString Placeholder Template JsStringFacts.

Lemma span_name_length s n r :
  span_name s = (n, r) → String.length s = (String.length n + String.length r)%nat.
Proof.
  revert n r. induction s as [|c s IH]; intros n r; simpl.
  - by intros [= <- <-].
  - destruct (Ascii.eqb c "}").
    + by intros [= <- <-].
    + destruct (span_name s) as [n' r'] eqn:E. intros [= <- <-].
      simpl. by rewrite (IH n' r').
Qed.

Lemma match_here_shorter s n r :
  match_here s = Some (n, r) → (String.length r < String.length s)%nat.
Proof.
  unfold match_here. repeat case_match; try done.
  intros [= <- <-]. subst. simpl.
  match goal with H : span_name _ = _ |- _ => apply span_name_length in H; rewrite H end.
  simpl. lia.
Qed.

Lemma replace_go_enough f n : ∀ m s,
  (String.length s ≤ n)%nat → (String.length s ≤ m)%nat →
  replace_go n f s = replace_go m f s.
Proof.
  induction n as [|n IH]; intros m s Hn Hm.
  - destruct s; [|simpl in Hn; lia]. by destruct m.
  - destruct m as [|m].
    { destruct s; [done|simpl in Hm; lia]. }
    simpl. destruct (match_here s) as [[nm rest]|] eqn:E.
    + apply match_here_shorter in E. f_equal. apply IH; lia.
    + destruct s as [|c s]; [done|]. simpl in *. f_equal. apply IH; lia.
Qed.

Lemma replace_all_nil f : replace_all f "" = "".
Proof. reflexivity. Qed.

Lemma replace_all_match f s n r :
  match_here s = Some (n, r) →
  replace_all f s = f ("${" +:+ n +:+ "}") n +:+ replace_all f r.
Proof.
  intros E. unfold replace_all. pose proof (match_here_shorter _ _ _ E) as Hlt.
  destruct (String.length s) as [|k] eqn:Hk; [lia|].
  simpl. rewrite E. f_equal. apply replace_go_enough; lia.
Qed.

Lemma replace_all_skip f c s :
  match_here (String c s) = None →
  replace_all f (String c s) = String c (replace_all f s).
Proof.
  intros E. unfold replace_all.
  change (String.length (String c s)) with (S (String.length s)).
  cbn [replace_go]. by rewrite E.
Qed.

Lemma span_name_token n rest :
  closes n = false → span_name (n +:+ "}" +:+ rest) = (n, "}" +:+ rest).
Proof.
  induction n as [|c n IH]; [done|]. simpl closes. intros [Hc Hn]%orb_false_elim.
  rewrite app_cons. simpl. rewrite Hc, (IH Hn). done.
Qed.

Lemma match_here_token n rest :
  is_name n = true → match_here ("${" +:+ n +:+ "}" +:+ rest) = Some (n, rest).
Proof.
  unfold is_name. intros [Hn Hc]%andb_prop. apply negb_true_iff in Hc.
  change ("${" +:+ n +:+ "}" +:+ rest) with (String "$" (String "{" (n +:+ "}" +:+ rest))).
  unfold match_here. rewrite (span_name_token _ _ Hc).
  destruct n; [done|]. done.
Qed.

Lemma match_here_text c t rest :
  opens (String c t) = false → no_brace_first rest →
  match_here (String c (t +:+ rest)) = None.
Proof.
  intros Ho Hr. unfold match_here.
  destruct (Ascii.eqb_spec c "$") as [->|Hc]; [|by repeat case_match; simplify_eq].
  destruct t as [|d t].
  - rewrite app_nil_l. destruct rest as [|e rest]; [done|]. simpl in Hr.
    repeat case_match; simplify_eq; done.
  - simpl in Ho. apply orb_false_elim in Ho as [Hd _].
    rewrite app_cons. destruct (Ascii.eqb_spec d "{") as [->|Hd']; [done|].
    repeat case_match; simplify_eq; done.
Qed.

Lemma opens_tail c t : opens (String c t) = false → opens t = false.
Proof. simpl. destruct t; [done|]. by intros [_ ?]%orb_false_elim. Qed.

Lemma replace_all_text f t rest :
  opens t = false → no_brace_first rest →
  replace_all f (t +:+ rest) = t +:+ replace_all f rest.
Proof.
  intros Ho Hr. induction t as [|c t IH]; [done|].
  rewrite !app_cons, replace_all_skip by by apply match_here_text.
  f_equal. apply IH. by eapply opens_tail.
Qed.

Lemma resolve_template f parts tail :
  well_formed parts tail = true →
  replace_all f (source parts tail)
  = rendered (λ n, f ("${" +:+ n +:+ "}") n) parts tail.
Proof.
  unfold well_formed. intros [Hp Ht]%andb_prop. apply negb_true_iff in Ht.
  induction parts as [|[t n] parts IH]; simpl.
  - rewrite <- (app_nil_r tail) at 1. rewrite replace_all_text by done.
    by rewrite replace_all_nil, app_nil_r.
  - simpl in Hp. apply andb_prop in Hp as [[Ho Hn]%andb_prop Hp].
    apply negb_true_iff in Ho.
    rewrite replace_all_text by done.
    rewrite (replace_all_match _ _ n (source parts tail)) by by apply match_here_token.
    by rewrite IH.
Qed.

Lemma startsWith_env VAR : startsWith ("env:" +:+ VAR) "env:" = true.
Proof. unfold startsWith. apply bool_decide_eq_true. simpl. by eexists. Qed.

Lemma or_empty_lookup (m : gmap string string) k : or_empty (m !! k) = default "" (m !! k).
Proof. unfold or_empty, or_else, truthy. destruct (m !! k) as [[|c v]|]; done. Qed.



End PlaceholderFacts.

Module PlaceholderExamples.
Import Placeholder Demo.

Example userHome : resolvePlaceholders h0 "${userHome}/x" None = "/home/u/x".
Proof. vm_compute. reflexivity. Qed.

Example env_set : resolvePlaceholders h0 "a=${env:FOO};" None = "a=bar;".
Proof. vm_compute. reflexivity. Qed.

Example env_unset : resolvePlaceholders h0 "a=${env:NOPE};" None = "a=;".
Proof. vm_compute. reflexivity. Qed.

Example unknown : resolvePlaceholders h0 "${unknownToken}" None = "${unknownToken}".
Proof. vm_compute. reflexivity. Qed.

Example basename :
  resolvePlaceholders h0 "${workspaceFolderBasename}${pathSeparator}${cwd}" None
  = "proj//tmp".
Proof. vm_compute. reflexivity. Qed.

Example stray : resolvePlaceholders h0 "${}${${env:FOO}" None = "${}${${env:FOO}".
Proof. vm_compute. reflexivity. Qed.
End PlaceholderExamples.

(** Proof steps shared by the lemmas that walk through the methods. *)

(** Name the two components of a call that returns a world and a value. *)
Ltac step_call :=
  match goal with
  | |- context [match ?c with (_, _) => _ end] =>
      let w := fresh "w" in let p := fresh "p" in let E := fresh "E" in
      destruct c as [w p] eqn:E;
      let Ew := fresh in let Ep := fresh in
      pose proof (f_equal fst E) as Ew; pose proof (f_equal snd E) as Ep;
      cbn [fst snd] in Ew, Ep; clear E; subst w p
  end.

Ltac open_calls := unfold new_promise, next_id; cbv beta iota zeta.

(** ** Promise jobs: the queue always drains *)

Module JobFacts.
Section JobFacts.
Context (rt : Runtime).

Lemma awaiting_weight_insert m p k :
  m !! p = None → awaiting_weight (<[p := k]> m) = weight k + awaiting_weight m.
Proof.
  intros. unfold awaiting_weight. rewrite map_fold_insert_L; [done| |done].
  intros. lia.
Qed.

Lemma awaiting_weight_delete m p k :
  m !! p = Some k → awaiting_weight m = weight k + awaiting_weight (delete p m).
Proof.
  intros H. rewrite <- (insert_delete_id m p k H) at 1.
  apply awaiting_weight_insert, lookup_delete_eq.
Qed.

Lemma awaiting_weight_insert_le m p k :
  awaiting_weight (<[p := k]> m) ≤ weight k + awaiting_weight m.
Proof.
  destruct (m !! p) as [k'|] eqn:E.
  - rewrite <- insert_delete_eq, awaiting_weight_insert by apply lookup_delete_eq.
    rewrite (awaiting_weight_delete m p k' E). lia.
  - by rewrite awaiting_weight_insert.
Qed.

Lemma backlog_eq w :
  backlog w = sum_list_with (λ j, weight (fst j)) (jobs w) + awaiting_weight (awaiting w).
Proof. reflexivity. Qed.

Lemma backlog_effect e w : backlog (effect e w) = backlog w.
Proof. reflexivity. Qed.

Lemma backlog_client f w : backlog (Upd.client_ f w) = backlog w.
Proof. reflexivity. Qed.

Lemma backlog_nextPromise n w : backlog (Upd.nextPromise_ n w) = backlog w.
Proof. reflexivity. Qed.

Lemma backlog_nextSocket n w : backlog (Upd.nextSocket_ n w) = backlog w.
Proof. reflexivity. Qed.

Lemma backlog_settle p o w : backlog (settle p o w) = backlog w.
Proof.
  unfold settle. destruct (settled w !! p); [done|]. simpl.
  destruct (awaiting w !! p) as [k|] eqn:E; [|done].
  rewrite !backlog_eq. simpl. rewrite sum_list_with_app. simpl.
  rewrite (awaiting_weight_delete _ _ _ E). lia.
Qed.

Lemma backlog_await p k w : backlog (await p k w) ≤ weight k + backlog w.
Proof.
  unfold await. destruct (settled w !! p); rewrite !backlog_eq; simpl.
  - rewrite sum_list_with_app. simpl. lia.
  - pose proof (awaiting_weight_insert_le (awaiting w) p k). lia.
Qed.

Lemma backlog_postJson u b w : backlog (fst (postJson rt u b w)) = backlog w.
Proof.
  unfold postJson. simpl. destruct (URL_valid rt u); simpl; [done|].
  by rewrite backlog_settle.
Qed.

Ltac quiet :=
  unfold appendLine, register, unregister;
  repeat first
    [ rewrite backlog_settle | rewrite backlog_effect | rewrite backlog_client
    | rewrite backlog_nextPromise | rewrite backlog_nextSocket | rewrite backlog_postJson ].

Lemma backlog_sendRequest m ps w : backlog (fst (sendRequest rt m ps w)) ≤ 1 + backlog w.
Proof.
  unfold sendRequest. open_calls.
  repeat first [step_call | case_match]; cbn [fst snd]; quiet; try lia.
  etrans; [apply backlog_await|]. quiet. cbn [weight]. lia.
Qed.

Lemma backlog_sendNotification m ps w :
  backlog (fst (sendNotification rt m ps w)) ≤ 1 + backlog w.
Proof.
  unfold sendNotification. open_calls.
  repeat first [step_call | case_match]; cbn [fst snd]; quiet; try lia.
  etrans; [apply backlog_await|]. quiet. cbn [weight]. lia.
Qed.

Lemma backlog_handshake_failed own e w : backlog (handshake_failed own e w) = backlog w.
Proof. destruct own; simpl; [apply backlog_settle|done]. Qed.

Lemma backlog_handshake_done own w : backlog (handshake_done own w) = backlog w.
Proof. destruct own; simpl; [apply backlog_settle|done]. Qed.

Lemma backlog_run_job k o w :
  backlog (run_job rt k o w) < weight k + backlog w.
Proof.
  destruct k, o; simpl run_job; unfold discoverTools; 
    repeat first [step_call | case_match]; cbn [fst snd weight];
    rewrite ?backlog_handshake_failed, ?backlog_handshake_done; quiet; try lia.
  - eapply Nat.le_lt_trans; [apply backlog_await|]. cbn [weight].
    pose proof (backlog_sendNotification "notifications/initialized" (JObj [])
      (appendLine s (Upd.client_ (Upd.serverInfo_ value) w))).
    revert H0. unfold appendLine. quiet. lia.
  - eapply Nat.le_lt_trans; [apply backlog_await|]. cbn [weight].
    pose proof (backlog_sendRequest "tools/list" (JObj []) w). lia.
Qed.

Lemma drain_go_complete n w : backlog w ≤ n → jobs (drain_go rt n w) = [].
Proof.
  revert w. induction n as [|n IH]; intros w Hn.
  - simpl. rewrite backlog_eq in Hn. destruct (jobs w) as [|[k o] rest]; [done|].
    simpl in Hn. destruct k; simpl in Hn; lia.
  - simpl. destruct (jobs w) as [|[k o] rest] eqn:E; [done|].
    apply IH. pose proof (backlog_run_job k o (Upd.jobs_ rest w)) as Hlt.
    rewrite !backlog_eq in *. rewrite E in Hn. simpl in *. lia.
Qed.

Theorem drain_complete w : jobs (drain rt w) = [].
Proof. by apply drain_go_complete. Qed.

Lemma drain_idle w : jobs w = [] → drain rt w = w.
Proof. unfold drain. intros E. destruct (backlog w); simpl; [done|]. by rewrite E. Qed.

End JobFacts.
End JobFacts.

(** ** What every step preserves *)

Module EvolveFacts.
Section EvolveFacts.
Context (rt : Runtime).

Lemma allocated_app l1 l2 : allocated (l1 ++ l2) = allocated l1 ++ allocated l2.
Proof. apply omap_app. Qed.

Lemma transport_config c c' : config c' = config c → transport c' = transport c.
Proof. unfold transport. by intros ->. Qed.

Lemma evolves_refl w : evolves w w.
Proof.
  split; try done; [|by left].
  exists []. rewrite app_nil_r. repeat split; constructor.
Qed.

Lemma StronglySorted_app_lt (l1 l2 : list Z) (b : Z) :
  StronglySorted Z.lt l1 → StronglySorted Z.lt l2 →
  Forall (λ x, x ≤ b)%Z l1 → Forall (λ x, b < x)%Z l2 →
  StronglySorted Z.lt (l1 ++ l2).
Proof.
  intros H1 H2 Hb1 Hb2. induction H1 as [|x l1 Hs IH Hx]; [done|].
  simpl. apply Forall_cons in Hb1 as [Hxb Hb1]. constructor; [by apply IH|].
  apply Forall_app. split; [done|].
  eapply Forall_impl; [exact Hb2|]. simpl. lia.
Qed.

Lemma evolves_trans w1 w2 w3 : evolves w1 w2 → evolves w2 w3 → evolves w1 w3.
Proof.
  intros [] []. 
  pose proof (transport_config _ _ ev_config0) as Ht.
  split; try congruence; try (etrans; eassumption); try lia.
  - destruct ev_trace0 as (l1 & E1 & S1 & B1), ev_trace1 as (l2 & E2 & S2 & B2).
    exists (l1 ++ l2). rewrite E2, E1, <- app_assoc, allocated_app. repeat split.
    + apply (StronglySorted_app_lt _ _ (requestId (client w2))); [done..| |].
      * eapply Forall_impl; [exact B1|]. simpl. lia.
      * eapply Forall_impl; [exact B2|]. simpl. lia.
    + apply Forall_app. split; (eapply Forall_impl; [eassumption|]); simpl; lia.
  - auto.
  - intros ??. apply ev_process1; [by rewrite Ht|]. auto.
  - intros ??. apply ev_http1; [by rewrite Ht|]. auto.
  - intros id p Hp. destruct (ev_range1 id p Hp) as [Hp'|]; [|right; lia].
    destruct (ev_range0 id p Hp') as [|]; [by left|right; lia].
Qed.

Lemma evolves_step w w1 w2 : evolves w1 w2 → evolves w w1 → evolves w w2.
Proof. intros. by eapply evolves_trans. Qed.

(** Primitive steps *)

Lemma evolves_quiet w w' :
  client w' = client w → settled w ⊆ settled w' → nextPromise w ≤ nextPromise w' →
  nextSocket w ≤ nextSocket w' →
  (∃ e, trace w' = trace w ++ e ∧ allocated e = []) →
  evolves w w'.
Proof.
  intros Hc ??? (e & He & Ha). split; rewrite ?Hc; try done.
  - exists e. rewrite Ha. repeat split; [done|constructor..].
  - unfold pending_bounded. by rewrite Hc.
  - auto.
Qed.

Lemma evolves_effect e w : is_alloc e = false → evolves w (effect e w).
Proof.
  intros. apply evolves_quiet; try done. exists [e]. split; [done|]. by destruct e.
Qed.

Lemma evolves_appendLine t w : evolves w (appendLine t w).
Proof. by apply evolves_effect. Qed.

Lemma evolves_new_promise w : evolves w (fst (new_promise w)).
Proof.
  apply evolves_quiet; simpl; try done; [lia|]. exists []. by rewrite app_nil_r.
Qed.

Lemma evolves_nextSocket w : evolves w (Upd.nextSocket_ (S (nextSocket w)) w).
Proof.
  apply evolves_quiet; simpl; try done; [lia|]. exists []. by rewrite app_nil_r.
Qed.

Lemma evolves_settle p o w : evolves w (settle p o w).
Proof.
  unfold settle. destruct (settled w !! p) eqn:E; [apply evolves_refl|].
  destruct (awaiting _ !! p); apply evolves_quiet; simpl; try done;
    try (by apply insert_subseteq); by exists [Settled p o].
Qed.

Lemma evolves_await p k w : evolves w (await p k w).
Proof.
  unfold await. destruct (settled w !! p);
    apply evolves_quiet; simpl; try done; exists []; by rewrite app_nil_r.
Qed.

Lemma evolves_next_id w : evolves w (fst (next_id w)).
Proof.
  unfold next_id. split; simpl; try done; try lia.
  - exists [Allocated (requestId (client w) + 1)]. split; [done|]. simpl.
    split; [repeat constructor|]. apply Forall_singleton. lia.
  - unfold pending_bounded. simpl. intros Hb id Hid. specialize (Hb id Hid). lia.
  - auto.
Qed.

Lemma evolves_client f w :
  name (f (client w)) = name (client w) →
  config (f (client w)) = config (client w) →
  requestId (f (client w)) = requestId (client w) →
  pendingRequests (f (client w)) = pendingRequests (client w) →
  (process (f (client w)) = process (client w) ∨ process (f (client w)) = None
   ∨ transport (client w) = "stdio") →
  evolves w (Upd.client_ f w).
Proof.
  intros Hn Hc Hr Hp Hpr.
  split; simpl; try done; try lia.
  - exists []. rewrite app_nil_r. repeat split; constructor.
  - unfold pending_bounded. simpl. by rewrite Hp, Hr.
  - intros ? Hnone. destruct Hpr as [->| [->|]]; done.
  - by rewrite Hp.
  - rewrite Hp. auto.
Qed.

Lemma evolves_register id p w0 w :
  (id ≤ requestId (client w))%Z → transport (client w) ≠ "http" →
  nextPromise w0 ≤ p → evolves w0 w →
  evolves w0 (register id p w).
Proof.
  intros Hid Ht Hp [].
  pose proof (transport_config _ _ ev_config0) as Htr.
  split; simpl; try done.
  - intros Hb i Hi. simpl in *. destruct (decide (i = id)) as [->|Hne]; [done|].
    rewrite lookup_insert_ne in Hi by done. by apply ev_pending0.
  - intros ??. rewrite Htr in Ht. done.
  - intros i q Hq. destruct (decide (i = id)) as [->|Hne].
    + rewrite lookup_insert_eq in Hq. simplify_eq. by right.
    + rewrite lookup_insert_ne in Hq by done. auto.
Qed.

Lemma evolves_unregister id w :
  evolves w (unregister id w).
Proof.
  split; simpl; try done.
  - exists []. rewrite app_nil_r. repeat split; constructor.
  - intros Hb i Hi. simpl in *. apply Hb.
    rewrite lookup_delete_is_Some in Hi. tauto.
  - intros _ ->. apply delete_empty.
  - intros i q [_ Hq]%lookup_delete_Some. by left.
Qed.

Create HintDb evo.
Hint Resolve evolves_effect evolves_appendLine evolves_new_promise evolves_nextSocket
  evolves_settle evolves_await evolves_next_id evolves_unregister : evo.

Ltac evo :=
  repeat first
    [ assumption
    | apply evolves_refl
    | eapply evolves_step; [ solve [ eauto 2 with evo ] | ] ].

Ltac walk := repeat first [ step_call | case_match ]; cbn [fst snd]; evo.

Lemma evolves_postJson u b w : evolves w (fst (postJson rt u b w)).
Proof. unfold postJson. walk. Qed.
Hint Resolve evolves_postJson : evo.

Lemma evolves_set_serverInfo v w : evolves w (Upd.client_ (Upd.serverInfo_ v) w).
Proof. apply evolves_client; simpl; auto. Qed.
Lemma evolves_set_tools v w : evolves w (Upd.client_ (Upd.tools_ v) w).
Proof. apply evolves_client; simpl; auto. Qed.
Lemma evolves_set_buffer f w : evolves w (Upd.client_ (λ c, Upd.buffer_ (f c) c) w).
Proof. apply evolves_client; simpl; auto. Qed.
Lemma evolves_set_ws v w : evolves w (Upd.client_ (Upd.ws_ v) w).
Proof. apply evolves_client; simpl; auto. Qed.
Lemma evolves_set_httpUrl v w : evolves w (Upd.client_ (Upd.httpUrl_ v) w).
Proof. apply evolves_client; simpl; auto. Qed.
Lemma evolves_clear_process w : evolves w (Upd.client_ (Upd.process_ None) w).
Proof. apply evolves_client; simpl; auto. Qed.
Lemma evolves_set_process v w :
  transport (client w) = "stdio" → evolves w (Upd.client_ (Upd.process_ v) w).
Proof. intros. apply evolves_client; simpl; auto. Qed.
Hint Resolve evolves_set_serverInfo evolves_set_tools evolves_set_buffer evolves_set_ws
  evolves_set_httpUrl evolves_clear_process : evo.

Lemma next_id_spec w :
  snd (next_id w) = requestId (client (fst (next_id w)))
  ∧ config (client (fst (next_id w))) = config (client w)
  ∧ process (client (fst (next_id w))) = process (client w)
  ∧ ws (client (fst (next_id w))) = ws (client w).
Proof. done. Qed.

Lemma new_promise_client w : client (fst (new_promise w)) = client w.
Proof. done. Qed.

Lemma eqb_false_ne (s t : string) : String.eqb s t = false → s ≠ t.
Proof. by intros ?%String.eqb_neq. Qed.

Lemma evolves_sendRequest m ps w : evolves w (fst (sendRequest rt m ps w)).
Proof.
  unfold sendRequest.
  destruct (String.eqb (transport (client w)) "http") eqn:Ht; [walk|].
  apply eqb_false_ne in Ht.
  assert (∀ w1, evolves w w1 → config (client w1) = config (client w) →
    evolves w (register (snd (next_id w1)) (snd (new_promise w)) (fst (next_id w1))))
    as Hreg.
  { intros w1 Hw1 Hc. apply evolves_register.
    - by rewrite (proj1 (next_id_spec _)).
    - by rewrite (transport_config (client w) (client (fst (next_id w1))) Hc).
    - done.
    - eapply evolves_step; [apply evolves_next_id|exact Hw1]. }
  walk. all: try (apply Hreg; [evo|done]).
Qed.

Lemma evolves_sendNotification m ps w : evolves w (fst (sendNotification rt m ps w)).
Proof. unfold sendNotification. walk. Qed.

Hint Resolve evolves_sendRequest evolves_sendNotification : evo.

Lemma evolves_callTool n a w : evolves w (fst (callTool rt n a w)).
Proof. apply evolves_sendRequest. Qed.

Lemma evolves_initialize own w : evolves w (initialize rt own w).
Proof. unfold initialize. walk. Qed.

Lemma evolves_discoverTools own w : evolves w (discoverTools rt own w).
Proof. unfold discoverTools. walk. Qed.

Lemma evolves_handshake_failed own e w : evolves w (handshake_failed own e w).
Proof. unfold handshake_failed. walk. Qed.

Lemma evolves_handshake_done own w : evolves w (handshake_done own w).
Proof. unfold handshake_done. walk. Qed.

Hint Resolve evolves_callTool evolves_initialize evolves_discoverTools
  evolves_handshake_failed evolves_handshake_done : evo.

Lemma evolves_run_job k o w : evolves w (run_job rt k o w).
Proof. unfold run_job. walk. Qed.

Lemma evolves_stop w : evolves w (fst (stop w)).
Proof. unfold stop. walk. Qed.

Lemma eqb_true_eq (s t : string) : String.eqb s t = true → s = t.
Proof. by intros ?%String.eqb_eq. Qed.

Lemma evolves_start b w : evolves w (fst (start rt b w)).
Proof.
  unfold start. walk.
  eapply evolves_step; [apply evolves_set_process|evo].
  by apply eqb_true_eq.
Qed.

Lemma evolves_handleMessage m w w' : handleMessage m w = inr w' → evolves w w'.
Proof.
  unfold handleMessage. intros H. repeat case_match; simplify_eq; evo.
Qed.

Lemma evolves_receive f t w : evolves w (receive rt f t w).
Proof.
  unfold receive. repeat case_match; evo.
  eapply evolves_step; [eapply evolves_handleMessage; eassumption|evo].
Qed.

Lemma evolves_handleLine l w : evolves w (handleLine rt l w).
Proof. unfold handleLine. case_match; [apply evolves_receive|apply evolves_refl]. Qed.
Hint Resolve evolves_receive evolves_handleLine evolves_run_job evolves_stop
  evolves_start : evo.

Lemma evolves_handleLines ls : ∀ w w0,
  evolves w0 w → evolves w0 (foldl (λ w line, handleLine rt line w) w ls).
Proof. induction ls as [|l ls IH]; intros w w0 H; simpl; [done|]. apply IH. evo. Qed.

Lemma evolves_handleData d w : evolves w (handleData rt d w).
Proof. unfold handleData. walk. apply evolves_handleLines. evo. Qed.

Lemma evolves_ws_state k st w : evolves w (ws_state k st w).
Proof. unfold ws_state. walk. Qed.
Hint Resolve evolves_handleData evolves_ws_state : evo.

Lemma evolves_handle e w : evolves w (handle rt e w).
Proof.
  destruct e; cbn [handle]; unfold on_process_error, on_process_exit, on_ws_open, on_ws_message,
    on_ws_error, on_ws_close, on_http_end, on_http_error; walk.
Qed.

Lemma evolves_drain_go n : ∀ w, evolves w (drain_go rt n w).
Proof.
  induction n as [|n IH]; intros w; simpl; [apply evolves_refl|].
  destruct (jobs w) as [|[k o] rest] eqn:E; [apply evolves_refl|].
  eapply evolves_step; [apply IH|]. eapply evolves_step; [apply evolves_run_job|].
  apply evolves_quiet; try done. exists []. by rewrite app_nil_r.
Qed.

Lemma evolves_dispatch e w : evolves w (dispatch rt e w).
Proof.
  unfold dispatch, drain. eapply evolves_step; [apply evolves_drain_go|apply evolves_handle].
Qed.

Lemma evolves_run es : ∀ w, evolves w (run rt es w).
Proof.
  induction es as [|e es IH]; intros w; simpl; [apply evolves_refl|].
  eapply evolves_trans; [apply evolves_dispatch|apply IH].
Qed.


(** ** Well-formed worlds *)

Lemma usable_mono w w' t : evolves w w' → usable w t → usable w' t.
Proof.
  intros [] [Hlt Hfree]. split; [lia|]. intros id Hid.
  destruct (ev_range0 id t Hid) as [?|?]; [by eapply Hfree|lia].
Qed.

Lemma cont_ok_mono w w' k : evolves w w' → cont_ok w k → cont_ok w' k.
Proof. intros ? Hk t Ht. eapply usable_mono; eauto. Qed.

Lemma usable_fresh w w' :
  wf w → evolves (fst (new_promise w)) w' → usable w' (nextPromise w).
Proof.
  intros Hw Hev. eapply usable_mono; [exact Hev|]. split; simpl; [lia|].
  intros id Hid. apply (wf_pending _ Hw) in Hid as [? _]. lia.
Qed.

Lemma wf_new n c : wf (new_McpClient n c).
Proof.
  split; simpl.
  - intros p [? Hp]. by rewrite lookup_empty in Hp.
  - intros p k Hp. by rewrite lookup_empty in Hp.
  - intros k o Hk. by apply elem_of_nil in Hk.
  - intros id p Hp. by rewrite lookup_empty in Hp.
  - intros i j p Hp. by rewrite lookup_empty in Hp.
  - intros q u b Hq. by apply elem_of_nil in Hq.
Qed.

Lemma wf_quiet w w' :
  pendingRequests (client w') = pendingRequests (client w) → settled w' = settled w → awaiting w' = awaiting w →
  jobs w' = jobs w → nextPromise w ≤ nextPromise w' →
  (∀ q u b, HttpPost q u b ∈ trace w' → HttpPost q u b ∈ trace w ∨ usable w' q) →
  wf w → wf w'.
Proof.
  intros Hc Hs Ha Hj Hn Ht [].
  assert (∀ t, usable w t → usable w' t) as Hu.
  { intros t [? Hf]. split; [lia|]. unfold free. by rewrite Hc. }
  assert (∀ k, cont_ok w k → cont_ok w' k) as Hk by (intros k Hk t ?; auto).
  split; rewrite ?Hc, ?Hs, ?Ha, ?Hj.
  - intros p Hp. apply wf_settled0 in Hp. lia.
  - intros p k Hp. apply wf_awaiting0 in Hp as [??]. split; [lia|auto].
  - intros k o Hk'. eauto.
  - intros id p Hp. apply wf_pending0 in Hp as [??]. split; [lia|done].
  - done.
  - intros q u b Hq. destruct (Ht q u b Hq); eauto.
Qed.

Lemma wf_effect e w :
  (∀ q u b, e = HttpPost q u b → usable w q) → wf w → wf (effect e w).
Proof.
  intros He. apply wf_quiet; try done. simpl. intros q u b [?|Hq]%elem_of_app; [by left|].
  apply list_elem_of_singleton in Hq. right. by eapply He.
Qed.

Lemma wf_appendLine t w : wf w → wf (appendLine t w).
Proof. by apply wf_effect. Qed.

Lemma wf_new_promise w : wf w → wf (fst (new_promise w)).
Proof. apply wf_quiet; simpl; try done; [lia|auto]. Qed.

Lemma wf_nextSocket n w : wf w → wf (Upd.nextSocket_ n w).
Proof. apply wf_quiet; simpl; try done; auto. Qed.

Lemma wf_next_id w : wf w → wf (fst (next_id w)).
Proof.
  intros []. split; simpl; try done.
  intros q u b [?|Hq]%elem_of_app; [eauto|]. by apply list_elem_of_singleton in Hq.
Qed.

Lemma wf_client f w :
  pendingRequests (f (client w)) = pendingRequests (client w) → wf w → wf (Upd.client_ f w).
Proof.
  intros Hp. apply wf_quiet; simpl; auto.
Qed.

Lemma wf_settle t o w : usable w t → wf w → wf (settle t o w).
Proof.
  intros [Hlt Hfree] Hw. unfold settle. destruct (settled w !! t) eqn:Es; [done|].
  assert (wf (effect (Settled t o) (Upd.settled_ (<[t:=o]> (settled w)) w))) as Hw'.
  { destruct Hw. split; simpl; try done.
    - intros p [->|Hp]%lookup_insert_is_Some; [done|]. apply wf_settled0. tauto.
    - intros id p Hp. destruct (wf_pending0 id p Hp) as [??]. split; [done|].
      rewrite lookup_insert_ne; [done|]. intros ->. by eapply Hfree.
    - intros q u b [?|Hq]%elem_of_app; [eauto|]. by apply list_elem_of_singleton in Hq. }
  simpl. destruct (awaiting w !! t) as [k|] eqn:Ea; [|done].
  destruct Hw'. split; simpl in *; try done.
  - intros p k' [_ Hp]%lookup_delete_Some. eauto.
  - intros k' o' [?|Hj]%elem_of_app; [eauto|]. apply list_elem_of_singleton in Hj.
    simplify_eq. by eapply wf_awaiting0.
Qed.

Lemma wf_await (p : promise) k w : p < nextPromise w → cont_ok w k → wf w → wf (await p k w).
Proof.
  intros Hp Hk []. unfold await. destruct (settled w !! p); split; simpl; try done.
  - intros k' o' [?|Hj]%elem_of_app; [by eapply wf_jobs0|].
    apply list_elem_of_singleton in Hj. by simplify_eq.
  - intros q k' Hq. destruct (decide (q = p)) as [->|].
    + rewrite lookup_insert_eq in Hq. by simplify_eq.
    + rewrite lookup_insert_ne in Hq by done. by eapply wf_awaiting0.
Qed.


Lemma wf_register_fresh id w :
  wf w → wf (register id (nextPromise w) (fst (next_id (fst (new_promise w))))).
Proof.
  intros [Hs Ha Hj Hp Hi Hq].
  assert (∀ t, usable w t →
    usable (register id (nextPromise w) (fst (next_id (fst (new_promise w))))) t) as Hu.
  { intros t [? Hf]. split; [simpl; lia|]. intros i. simpl.
    destruct (decide (i = id)) as [->|].
    - rewrite lookup_insert_eq. intros ?. simplify_eq. lia.
    - rewrite lookup_insert_ne by done. apply Hf. }
  assert (settled w !! nextPromise w = None) as Hnone.
  { destruct (settled w !! nextPromise w) eqn:E; [|done].
    assert (nextPromise w < nextPromise w); [|lia]. apply Hs. by rewrite E. }
  split; simpl.
  - intros p ?%Hs. lia.
  - intros p k [? Hk]%Ha. split; [lia|]. intros t ?. eauto.
  - intros k o Hk%Hj t ?. eauto.
  - intros i p. destruct (decide (i = id)) as [->|].
    + rewrite lookup_insert_eq. intros [= <-]. split; [lia|done].
    + rewrite lookup_insert_ne by done. intros [??]%Hp. split; [lia|done].
  - intros i j p. destruct (decide (i = id)) as [->|], (decide (j = id)) as [->|];
      rewrite ?lookup_insert_eq, ?lookup_insert_ne by done; try done.
    + intros [= <-] [? _]%Hp. lia.
    + intros [? _]%Hp [= <-]. lia.
    + apply Hi.
  - intros q u b [?|Hin]%elem_of_app; [eauto|]. by apply list_elem_of_singleton in Hin.
Qed.

Lemma wf_unregister id w : wf w → wf (unregister id w).
Proof.
  intros [Hs Ha Hj Hp Hi Hq].
  assert (∀ t, usable w t → usable (unregister id w) t) as Hu.
  { intros t [? Hf]. split; [done|]. intros i. simpl.
    intros [_ ?]%lookup_delete_Some. by eapply Hf. }
  split; simpl; try done.
  - intros p k [? Hk]%Ha. split; [done|]. intros t ?. eauto.
  - intros k o Hk%Hj t ?. eauto.
  - intros i p [_ ?]%lookup_delete_Some. eauto.
  - intros i j p [_ ?]%lookup_delete_Some [_ ?]%lookup_delete_Some. eauto.
  - eauto.
Qed.

Lemma usable_unregistered id (p : promise) w :
  wf w → pendingRequests (client w) !! id = Some p → usable (unregister id w) p.
Proof.
  intros [_ _ _ Hp Hi _] Hid. split; [by eapply Hp|].
  intros i. simpl. intros [Hne ?]%lookup_delete_Some. apply Hne. by eapply Hi.
Qed.


Lemma wf_set_plain f w :
  (∀ c, pendingRequests (f c) = pendingRequests c) → wf w → wf (Upd.client_ f w).
Proof. intros H. by apply wf_client. Qed.

Lemma wf_effect_plain e w :
  (match e with HttpPost _ _ _ => False | _ => True end) → wf w → wf (effect e w).
Proof. intros He. apply wf_effect. intros q u b ->. done. Qed.

Lemma fresh_lt w w' : evolves (fst (new_promise w)) w' → nextPromise w < nextPromise w'.
Proof. intros []. simpl in *. lia. Qed.

Create HintDb wfdb.
Hint Resolve wf_appendLine wf_new_promise wf_next_id wf_nextSocket wf_unregister : wfdb.
Hint Extern 1 (evolves _ _) => solve [evo] : wfdb.
Hint Extern 2 (wf (Upd.client_ _ _)) => apply wf_set_plain; [done|] : wfdb.
Hint Extern 2 (wf (effect _ _)) => apply wf_effect_plain; [done|] : wfdb.

Ltac fresh_usable :=
  match goal with
  | |- usable _ (snd (new_promise ?w)) =>
      apply (usable_fresh w); [solve [auto 10 with wfdb] | solve [evo]]
  | |- usable _ (nextPromise ?w) =>
      apply (usable_fresh w); [solve [auto 10 with wfdb] | solve [evo]]
  end.

Lemma wf_postJson u b w : wf w → wf (fst (postJson rt u b w)).
Proof.
  intros Hw. unfold postJson. walk.
  - apply wf_effect; [|auto with wfdb]. intros ??? [= <- _ _]. fresh_usable.
  - apply wf_settle; [fresh_usable|auto with wfdb].
Qed.

Hint Resolve wf_postJson : wfdb.

Lemma postJson_promise u b w : snd (postJson rt u b w) = nextPromise w.
Proof. unfold postJson. walk; done. Qed.

Lemma nextPromise_settle p o w : nextPromise (settle p o w) = nextPromise w.
Proof. unfold settle. by repeat case_match. Qed.

Lemma nextPromise_await p k w : nextPromise (await p k w) = nextPromise w.
Proof. unfold await. by repeat case_match. Qed.

Lemma nextPromise_postJson u b w : nextPromise (fst (postJson rt u b w)) = S (nextPromise w).
Proof. unfold postJson. walk; by rewrite ?nextPromise_settle. Qed.

Ltac count_promises :=
  repeat first
    [ rewrite nextPromise_settle | rewrite nextPromise_await | rewrite nextPromise_postJson
    | rewrite postJson_promise | progress simpl ].

Lemma sendRequest_promise_lt m ps w :
  snd (sendRequest rt m ps w) < nextPromise (fst (sendRequest rt m ps w)).
Proof. unfold sendRequest. walk; count_promises; lia. Qed.

Lemma sendNotification_promise_lt m ps w :
  snd (sendNotification rt m ps w) < nextPromise (fst (sendNotification rt m ps w)).
Proof. unfold sendNotification. walk; count_promises; lia. Qed.

Lemma wf_sendRequest m ps w : wf w → wf (fst (sendRequest rt m ps w)).
Proof.
  intros Hw. unfold sendRequest.
  destruct (String.eqb (transport (client w)) "http") eqn:Ht.
  - walk.
    + apply wf_settle; [fresh_usable|auto with wfdb].
    + apply wf_await; [count_promises; lia| |auto 10 with wfdb].
      intros t [= <-]. fresh_usable.
    + apply wf_settle; [fresh_usable|auto with wfdb].
  - pose proof (wf_register_fresh (snd (next_id (fst (new_promise w)))) w Hw) as Hreg.
    assert (usable (unregister (snd (next_id (fst (new_promise w))))
      (register (snd (next_id (fst (new_promise w)))) (nextPromise w)
         (fst (next_id (fst (new_promise w)))))) (nextPromise w)) as Hun.
    { apply usable_unregistered; [done|]. simpl. apply lookup_insert_eq. }
    walk; first [ by apply wf_settle; [exact Hun|apply wf_unregister]
                | auto with wfdb ].
Qed.


Lemma wf_sendNotification m ps w : wf w → wf (fst (sendNotification rt m ps w)).
Proof.
  intros Hw. unfold sendNotification. walk;
    first [ apply wf_settle; [fresh_usable|auto 10 with wfdb]
          | apply wf_await; [count_promises; lia| |auto 10 with wfdb];
            intros t [= <-]; eapply usable_fresh; [exact Hw|evo] ].
Qed.

Hint Resolve wf_sendRequest wf_sendNotification : wfdb.

Lemma wf_callTool n a w : wf w → wf (fst (callTool rt n a w)).
Proof. apply wf_sendRequest. Qed.

Lemma wf_initialize own w :
  cont_ok w (KInitialize own) → wf w → wf (initialize rt own w).
Proof.
  intros Hown Hw. unfold initialize. walk.
  apply wf_await; [apply sendRequest_promise_lt| |auto with wfdb].
  eapply cont_ok_mono; [|exact Hown]. evo.
Qed.

Lemma wf_discoverTools own w :
  cont_ok w (KDiscover own) → wf w → wf (discoverTools rt own w).
Proof.
  intros Hown Hw. unfold discoverTools. walk.
  apply wf_await; [apply sendRequest_promise_lt| |auto with wfdb].
  eapply cont_ok_mono; [|exact Hown]. evo.
Qed.

Lemma wf_handshake_failed own e w :
  cont_ok w (KDiscover own) → wf w → wf (handshake_failed own e w).
Proof.
  intros Hown Hw. destruct own; simpl; [|auto with wfdb].
  apply wf_settle; [by apply Hown|done].
Qed.

Lemma wf_handshake_done own w :
  cont_ok w (KDiscover own) → wf w → wf (handshake_done own w).
Proof.
  intros Hown Hw. destruct own; simpl; [|auto with wfdb].
  apply wf_settle; [by apply Hown|done].
Qed.

Lemma cont_ok_owner w own :
  cont_ok w (KDiscover own) ↔ cont_ok w (KInitialize own).
Proof. by destruct own. Qed.

Lemma cont_ok_owner' w own :
  cont_ok w (KDiscover own) ↔ cont_ok w (KInitialized own).
Proof. by destruct own. Qed.

Lemma wf_run_job k o w : cont_ok w k → wf w → wf (run_job rt k o w).
Proof.
  intros Hk Hw. destruct k as [own|own|own|p|p]; simpl.
  - apply cont_ok_owner in Hk.
    assert (∀ w', evolves w w' → cont_ok w' (KDiscover own)) as Hmono.
    { intros w' ?. by eapply cont_ok_mono. }
    destruct o as [v|e]; [|by apply wf_handshake_failed].
    destruct (connected_line v).
    + apply wf_handshake_failed; [apply Hmono; evo|auto with wfdb].
    + step_call. apply wf_await; [apply sendNotification_promise_lt| |auto 10 with wfdb].
      apply cont_ok_owner', Hmono. evo.
  - apply cont_ok_owner' in Hk.
    destruct o; [by apply wf_discoverTools|by apply wf_handshake_failed].
  - assert (∀ w', evolves w w' → cont_ok w' (KDiscover own)) as Hmono.
    { intros w' ?. by eapply cont_ok_mono. }
    destruct o as [v|e]; [|by apply wf_handshake_failed].
    repeat case_match.
    + by apply wf_handshake_failed.
    + apply wf_handshake_failed; [apply Hmono; evo|auto with wfdb].
    + apply wf_handshake_done; [apply Hmono; evo|auto with wfdb].
  - repeat case_match; (apply wf_settle; [by apply Hk|done]).
  - apply wf_settle; [by apply Hk|done].
Qed.


Hint Resolve wf_initialize wf_discoverTools wf_run_job : wfdb.

Lemma wf_stop w : wf w → wf (fst (stop w)).
Proof.
  intros Hw. unfold stop. walk; (apply wf_settle; [fresh_usable|auto 10 with wfdb]).
Qed.

Lemma wf_start b w : wf w → wf (fst (start rt b w)).
Proof.
  intros Hw. unfold start. walk;
    first [ apply wf_settle; [fresh_usable|auto 10 with wfdb]
          | apply wf_initialize; [|auto 10 with wfdb]; intros t [= <-]; fresh_usable
          | idtac ].
  apply wf_initialize; [|auto 10 with wfdb]. intros t [= <-].
  apply (usable_fresh w); [done|].
  eapply evolves_step; [apply evolves_set_process; by apply eqb_true_eq|evo].
Qed.

Lemma wf_handleMessage m w w' : wf w → handleMessage m w = inr w' → wf w'.
Proof.
  intros Hw. unfold handleMessage. intros H. repeat case_match; simplify_eq; try done.
  apply wf_settle; [by apply usable_unregistered|by apply wf_unregister].
Qed.

Lemma wf_receive f t w : wf w → wf (receive rt f t w).
Proof.
  intros Hw. unfold receive. repeat case_match; auto with wfdb.
  eapply wf_handleMessage; [|eassumption]. auto with wfdb.
Qed.

Lemma wf_handleLine l w : wf w → wf (handleLine rt l w).
Proof. intros. unfold handleLine. case_match; [by apply wf_receive|done]. Qed.

Lemma wf_handleLines ls : ∀ w, wf w → wf (foldl (λ w line, handleLine rt line w) w ls).
Proof. induction ls as [|l ls IH]; intros w H; simpl; [done|]. by apply IH, wf_handleLine. Qed.

Lemma wf_handleData d w : wf w → wf (handleData rt d w).
Proof. intros. unfold handleData. walk. apply wf_handleLines. auto with wfdb. Qed.

Lemma wf_ws_state k st w : wf w → wf (ws_state k st w).
Proof. intros. unfold ws_state. walk; auto with wfdb. Qed.

Lemma posted_elem q w : posted q w = true → ∃ u b, HttpPost q u b ∈ trace w.
Proof.
  unfold posted. intros (e & He & Hq)%existsb_exists. apply list_elem_of_In in He.
  destruct e; try done. apply Nat.eqb_eq in Hq as ->. eauto.
Qed.

Hint Resolve wf_stop wf_start wf_callTool wf_receive wf_handleData wf_ws_state : wfdb.

Lemma wf_handle e w : wf w → wf (handle rt e w).
Proof.
  intros Hw. destruct e; cbn [handle]; unfold on_process_error, on_process_exit, on_ws_open,
    on_ws_message, on_ws_error, on_ws_close, on_http_end, on_http_error;
    repeat case_match; auto 10 with wfdb.
  - apply wf_initialize; [done|auto with wfdb].
  - destruct (posted_elem _ _ H) as (u & b & Hq). apply wf_settle; [|done].
    by eapply wf_posted.
  - destruct (posted_elem _ _ H) as (u & b & Hq). apply wf_settle; [|done].
    by eapply wf_posted.
  - destruct (posted_elem _ _ H) as (u & b & Hq). apply wf_settle; [|done].
    by eapply wf_posted.
Qed.

Lemma wf_drain_go n : ∀ w, wf w → wf (drain_go rt n w).
Proof.
  induction n as [|n IH]; intros w Hw; simpl; [done|].
  destruct (jobs w) as [|[k o] rest] eqn:E; [done|].
  apply IH. assert (cont_ok w k) as Hk.
  { eapply (wf_jobs _ Hw k o). rewrite E. left. }
  apply wf_run_job; [exact Hk|].
  destruct Hw. split; simpl; try done.
  intros k' o' Hin. eapply wf_jobs0. rewrite E. right. exact Hin.
Qed.

Lemma wf_dispatch e w : wf w → wf (dispatch rt e w).
Proof. intros. by apply wf_drain_go, wf_handle. Qed.

Lemma wf_run es : ∀ w, wf w → wf (run rt es w).
Proof. induction es as [|e es IH]; intros w Hw; simpl; [done|]. by apply IH, wf_dispatch. Qed.

End EvolveFacts.
End EvolveFacts.

(** ** The claims *)

Module Claims.
Import JsString EvolveFacts JobFacts.
Section Claims.
Context (rt : Runtime).

Lemma evolves_from_new name cfg events :
  evolves (new_McpClient name cfg) (run rt events (new_McpClient name cfg)).
Proof. apply evolves_run. Qed.

Lemma StronglySorted_lt_NoDup (l : list Z) : StronglySorted Z.lt l → NoDup l.
Proof.
  induction 1 as [|x l Hs IH Hx]; constructor; [|done].
  intros Hin. rewrite Forall_forall in Hx. specialize (Hx x Hin). lia.
Qed.


(** C3, the part that fails. A session whose transport is not stdio never
    holds a process, so [isConnected] answers false at every moment of its
    life, also after [start()] has completed successfully. *)
Theorem isConnected_false_off_stdio name cfg (events : list Event) :
  transport (client (new_McpClient name cfg)) ≠ "stdio" →
  isConnected (client (run rt events (new_McpClient name cfg))) = false.
Proof.
  intros Ht. destruct (evolves_from_new name cfg events) as [_ _ _ _ _ _ _ _ Hproc _ _].
  unfold isConnected. by rewrite Hproc.
Qed.

Lemma wf_reachable name cfg events : wf (run rt events (new_McpClient name cfg)).
Proof. apply wf_run, wf_new. Qed.

Lemma idle_run events : ∀ w, jobs w = [] → jobs (run rt events w) = [].
Proof.
  induction events as [|e es IH]; intros w Hw; simpl; [done|].
  apply IH, drain_complete.
Qed.

Lemma idle_reachable name cfg events : jobs (run rt events (new_McpClient name cfg)) = [].
Proof. by apply idle_run. Qed.

Lemma fresh_unsettled w (p : promise) :
  wf w → nextPromise w ≤ p → settled w !! p = None ∧ awaiting w !! p = None.
Proof.
  intros [Hs Ha _ _ _ _] Hp. split.
  - destruct (settled w !! p) eqn:E; [|done].
    assert (p < nextPromise w); [|lia]. apply Hs. by rewrite E.
  - destruct (awaiting w !! p) eqn:E; [|done]. apply Ha in E as [? _]. lia.
Qed.

Lemma settle_fresh (p : promise) o w :
  settled w !! p = None → awaiting w !! p = None →
  settle p o w = effect (Settled p o) (Upd.settled_ (<[p := o]> (settled w)) w).
Proof. intros Hs Ha. unfold settle. rewrite Hs. simpl. by rewrite Ha. Qed.

Lemma settled_settle_fresh (p : promise) o w :
  settled w !! p = None → awaiting w !! p = None →
  settled (settle p o w) = <[p := o]> (settled w).
Proof. intros. by rewrite settle_fresh. Qed.

Lemma trace_settle_fresh (p : promise) o w :
  settled w !! p = None → awaiting w !! p = None →
  trace (settle p o w) = trace w ++ [Settled p o].
Proof. intros. by rewrite settle_fresh. Qed.

Lemma client_settle (p : promise) o w : client (settle p o w) = client w.
Proof. unfold settle. by repeat case_match. Qed.

(** What one [stop()] does, from any well-formed world. *)
Lemma stop_effects v :
  wf v →
  settled (fst (stop v)) !! snd (stop v) = Some (Fulfilled None)
  ∧ tools (client (fst (stop v))) = Some (JArr [])
  ∧ serverInfo (client (fst (stop v))) = Some JNull
  ∧ process (client (fst (stop v))) = None ∧ ws (client (fst (stop v))) = None
  ∧ httpUrl (client (fst (stop v))) = None
  ∧ (process (client v) = None → ws (client v) = None → httpUrl (client v) = None →
     _tools (client v) = Some (JArr []) → serverInfo (client v) = Some JNull →
     client (fst (stop v)) = client v
     ∧ trace (fst (stop v)) = trace v ++ [Settled (snd (stop v)) (Fulfilled None)]).
Proof.
  intros Hv. destruct (fresh_unsettled v (nextPromise v) Hv (le_n _)) as [Hs Ha].
  unfold stop. cbn [new_promise]. cbv beta iota zeta.
  destruct (process (client v)) eqn:Ep, (ws (client v)) eqn:Ew;
    do 3 (simpl; rewrite ?Ep, ?Ew).
  all: rewrite settle_fresh by (first [exact Hs|exact Ha]); simpl; rewrite lookup_insert_eq;
    repeat split; try done.
  all: destruct (client v); simpl in *; by subst.
Qed.

(** C8. [stop()] never fails, whatever state the session is in (also in
    the middle of a handshake): its promise is fulfilled.  After it the
    tool list is empty, the server identity is cleared and no transport is
    held; a second [stop()] is fulfilled too, leaves the session's fields
    as they are and touches no transport. *)
Theorem stop_idempotent name cfg (events : list Event) :
  let w := run rt events (new_McpClient name cfg) in
  let w1 := fst (stop w) in
  let w2 := fst (stop w1) in
  settled w1 !! snd (stop w) = Some (Fulfilled None)
  ∧ settled w2 !! snd (stop w1) = Some (Fulfilled None)
  ∧ tools (client w1) = Some (JArr [])
  ∧ serverInfo (client w1) = Some JNull
  ∧ process (client w1) = None ∧ ws (client w1) = None ∧ httpUrl (client w1) = None
  ∧ client w2 = client w1
  ∧ trace w2 = trace w1 ++ [Settled (snd (stop w1)) (Fulfilled None)].
Proof.
  intros w w1 w2.
  pose proof (wf_reachable name cfg events) as Hw. fold w in Hw.
  destruct (stop_effects w Hw) as (H1 & H2 & H3 & H4 & H5 & H6 & _).
  destruct (stop_effects w1 (wf_stop _ Hw)) as (H1' & _ & _ & _ & _ & _ & H7).
  destruct (H7 H4 H5 H6 H2 H3) as [??]. by repeat split.
Qed.

(** C1, as the code has it. An unsolicited closure of the transport (the
    child's exit event, the socket's close event) drops the transport
    handle and emits the exit event, and that is all: the pending-request
    table is left as it is and no promise is settled, so the requests that
    were pending stay pending. *)
Theorem closure_keeps_pending_requests name cfg (events : list Event)
    (code signal : jsval) (k : nat) (c : Z) (reason : string) :
  let w := run rt events (new_McpClient name cfg) in
  let w1 := dispatch rt (ProcessExit code signal) w in
  let w2 := dispatch rt (WsClosed k c reason) w in
  (pendingRequests (client w1) = pendingRequests (client w)
   ∧ settled w1 = settled w
   ∧ process (client w1) = None
   ∧ ∃ line, trace w1 = trace w ++ [Log line; EmitExit code signal])
  ∧ (pendingRequests (client w2) = pendingRequests (client w)
     ∧ settled w2 = settled w
     ∧ (k < nextSocket w →
        ws (client w2) = None
        ∧ ∃ line, trace w2 = trace w ++ [Log line; EmitExit (Some (JNum c)) (Some (JStr reason))])).
Proof.
  intros w w1 w2. pose proof (idle_reachable name cfg events) as Hidle. fold w in Hidle.
  split.
  - subst w1. unfold dispatch. rewrite drain_idle by done.
    cbn [handle]. unfold on_process_exit, appendLine, effect. simpl.
    repeat split. eexists. by rewrite <- app_assoc.
  - subst w2. unfold dispatch. cbn [handle].
    destruct (k <? nextSocket w) eqn:Hk.
    + rewrite drain_idle.
      2: { unfold on_ws_close, ws_state. by repeat case_match. }
      unfold on_ws_close, ws_state, appendLine, effect.
      repeat case_match; simpl; repeat split; try done; eexists; by rewrite <- app_assoc.
    + rewrite drain_idle by done. apply Nat.ltb_ge in Hk. repeat split; lia.
Qed.

Lemma delete_register id (p : promise) w :
  pendingRequests (client w) !! id = None →
  pendingRequests (client (unregister id (register id p w))) = pendingRequests (client w).
Proof. intros H. simpl. rewrite delete_insert_eq. by apply delete_id. Qed.

(** C6, as the code has it. After [stop()] a request is refused: the promise
    [sendRequest] returns is rejected with the transport's not-connected
    error, nothing is written, sent or posted, and the pending-request table
    is as before.  A notification is dropped in silence: the promise
    [sendNotification] returns is fulfilled and nothing is written, sent or
    posted. *)
Theorem sends_after_stop name cfg (events : list Event) (method : string) (params : json) :
  let w := fst (stop (run rt events (new_McpClient name cfg))) in
  let w1 := fst (sendRequest rt method params w) in
  let p1 := snd (sendRequest rt method params w) in
  let w2 := fst (sendNotification rt method params w) in
  let p2 := snd (sendNotification rt method params w) in
  settled w1 !! p1 = Some (Rejected (not_connected (client w)))
  ∧ pendingRequests (client w1) = pendingRequests (client w)
  ∧ (∃ l, trace w1 = trace w ++ l
          ∧ Forall (λ e, match e with Allocated _ | Settled _ _ => True | _ => False end) l)
  ∧ settled w2 !! p2 = Some (Fulfilled None)
  ∧ trace w2 = trace w ++ [Settled p2 (Fulfilled None)].
Proof.
  intros w w1 p1 w2 p2.
  pose proof (wf_stop _ (wf_reachable name cfg events)) as Hw. fold w in Hw.
  destruct (stop_effects _ (wf_reachable name cfg events)) as (_ & _ & _ & Hp & Hs & Hu & _).
  fold w in Hp, Hs, Hu.
  destruct (fresh_unsettled w (nextPromise w) Hw (le_n _)) as [Hns Hna].
  assert (pendingRequests (client w) !! (requestId (client w) + 1)%Z = None) as Hfree.
  { destruct (pendingRequests (client w) !! (requestId (client w) + 1)%Z) eqn:E; [|done].
    assert (requestId (client w) + 1 ≤ requestId (client w))%Z; [|lia].
    pose proof (evolves_trans _ _ _ (evolves_from_new name cfg events) (evolves_stop _))
      as [_ _ _ _ _ _ _ Hpend _ _ _].
    apply Hpend; [|eexists; exact E].
    intros i [? Hi]. simpl in Hi. by rewrite lookup_empty in Hi. }
  assert (∀ f g, pendingRequests (client w) !! g (requestId (client w) + 1)%Z = None →
    delete (g (requestId (client w) + 1)%Z)
      (<[g (requestId (client w) + 1)%Z := f]> (pendingRequests (client w)))
    = pendingRequests (client w)) as Hdel.
  { intros f g Hg. rewrite delete_insert_eq. by apply delete_id. }
  subst w1 p1 w2 p2. unfold sendRequest, sendNotification, not_connected.
  destruct (String.eqb (transport (client w)) "http") eqn:Eh;
    [|destruct (String.eqb (transport (client w)) "stdio") eqn:Es];
    unfold transport in *;
    rewrite ?Hu, ?Hp, ?Hs; cbn [new_promise next_id fst snd]; cbv beta iota zeta;
    cbn [client config Upd.client_ Upd.nextPromise_ Upd.requestId_ effect
         Upd.trace_ register unregister Upd.pendingRequests_ process ws httpUrl];
    rewrite ?Eh, ?Es, ?Hu, ?Hp, ?Hs; cbn [fst snd];
    rewrite ?client_settle;
    rewrite ?settled_settle_fresh, ?trace_settle_fresh by (first [exact Hns|exact Hna]);
    rewrite ?lookup_insert_eq;
    cbn [client Upd.client_ Upd.nextPromise_ Upd.requestId_ effect Upd.trace_
         Upd.pendingRequests_ pendingRequests trace nextPromise register unregister].
  - repeat split; try done. eexists. split; [done|]. by repeat constructor.
  - repeat split; try done.
    + by apply (Hdel _ id).
    + eexists. rewrite <- app_assoc. split; [done|]. by repeat constructor.
  - repeat split; try done.
    + by apply (Hdel _ id).
    + eexists. rewrite <- app_assoc. split; [done|]. by repeat constructor.
Qed.

Lemma drain_single k o w :
  jobs w = [(k, o)] → jobs (run_job rt k o (Upd.jobs_ [] w)) = [] →
  drain rt w = run_job rt k o (Upd.jobs_ [] w).
Proof.
  intros Hj Hdone. unfold drain.
  assert (0 < backlog w) as Hpos.
  { rewrite backlog_eq, Hj. simpl. destruct k; simpl; lia. }
  destruct (backlog w) as [|n]; [lia|]. simpl. rewrite Hj.
  destruct n; simpl; [done|]. by rewrite Hdone.
Qed.

Lemma posted_app q l1 l2 w :
  trace w = l1 ++ l2 →
  existsb (λ e, match e with HttpPost q' _ _ => (q' =? q)%nat | _ => false end) l2 = true →
  posted q w = true.
Proof. intros Ht H. unfold posted. rewrite Ht, existsb_app, H. apply orb_true_r. Qed.

Lemma await_unsettled (p : promise) k w :
  settled w !! p = None → await p k w = Upd.awaiting_ (<[p := k]> (awaiting w)) w.
Proof. intros H. unfold await. by rewrite H. Qed.

Lemma sendRequest_http method params url w :
  transport (client w) = "http" → httpUrl (client w) = Some url → url ≠ "" →
  URL_valid rt url = true → settled w !! nextPromise w = None →
  sendRequest rt method params w = (http_sent rt method params url w, S (nextPromise w)).
Proof.
  intros Ht Hu Hne Hv Hs. unfold sendRequest. rewrite Ht, Hu. simpl.
  destruct url as [|a url]; [done|]. unfold postJson. cbn [next_id new_promise fst snd].
  cbv beta iota zeta. rewrite Hv. cbv beta iota zeta.
  by rewrite await_unsettled by exact Hs.
Qed.

Lemma http_answer method params url w q o :
  wf w → jobs w = [] → q = nextPromise w →
  let w' := http_sent rt method params url w in
  jobs (settle q o w') = [(KThenResponse (S q), o)] ∧
  drain rt (settle q o w')
  = effect (Settled (S q) (http_request_outcome o))
      (Upd.settled_ (<[S q := http_request_outcome o]> (<[q := o]> (settled w)))
         (Upd.jobs_ []
           (Upd.awaiting_ (delete q (<[q := KThenResponse (S q)]> (awaiting w)))
             (effect (Settled q o) w')))).
Proof.
  intros Hw Hidle -> w'.
  destruct (fresh_unsettled w (nextPromise w) Hw (le_n _)) as [Hs Ha].
  destruct (fresh_unsettled w (S (nextPromise w)) Hw (le_S _ _ (le_n _))) as [Hs' Ha'].
  assert (settle (nextPromise w) o w'
    = Upd.jobs_ [(KThenResponse (S (nextPromise w)), o)]
        (Upd.awaiting_ (delete (nextPromise w)
            (<[nextPromise w := KThenResponse (S (nextPromise w))]> (awaiting w)))
          (effect (Settled (nextPromise w) o)
             (Upd.settled_ (<[nextPromise w := o]> (settled w)) w')))) as Hsettle.
  { unfold settle. subst w'. unfold http_sent.
    cbn [settled awaiting Upd.awaiting_ Upd.nextPromise_ effect Upd.trace_ Upd.client_
         Upd.settled_ jobs Upd.jobs_].
    rewrite Hs, lookup_insert_eq, Hidle. done. }
  rewrite Hsettle. split; [done|].
  rewrite (drain_single (KThenResponse (S (nextPromise w))) o).
  - destruct o; cbn [run_job]; (rewrite settle_fresh; [done|..]);
      cbn [settled awaiting Upd.awaiting_ Upd.nextPromise_ effect Upd.trace_ Upd.client_
           Upd.settled_ jobs Upd.jobs_]; subst w'; unfold http_sent;
      cbn [settled awaiting Upd.awaiting_ Upd.nextPromise_ effect Upd.trace_ Upd.client_
           Upd.settled_ jobs Upd.jobs_];
      first [ by rewrite lookup_insert_ne by lia
            | by rewrite lookup_delete_ne, lookup_insert_ne by lia ].
  - done.
  - destruct o; cbn [run_job]; (rewrite settle_fresh; [done|..]);
      cbn [settled awaiting Upd.awaiting_ Upd.nextPromise_ effect Upd.trace_ Upd.client_
           Upd.settled_ jobs Upd.jobs_]; subst w'; unfold http_sent;
      cbn [settled awaiting Upd.awaiting_ Upd.nextPromise_ effect Upd.trace_ Upd.client_
           Upd.settled_ jobs Upd.jobs_];
      first [ by rewrite lookup_insert_ne by lia
            | by rewrite lookup_delete_ne, lookup_insert_ne by lia ].
Qed.


(** *** Framing *)

Lemma split_no_newline s : no_newline s = true → split is_newline s = [s].
Proof.
  induction s as [|c s IH]; [done|]. simpl. intros [Hc Hs]%andb_prop.
  apply negb_true_iff in Hc. rewrite Hc, (IH Hs). done.
Qed.

Lemma split_frame f s :
  no_newline f = true →
  split is_newline (f +:+ String "010" s) = f :: split is_newline s.
Proof.
  induction f as [|c f IH]; [done|]. simpl no_newline. intros [Hc Hf]%andb_prop.
  apply negb_true_iff in Hc. rewrite JsStringFacts.app_cons. simpl. by rewrite Hc, (IH Hf).
Qed.

Lemma split_unframe frames rest :
  Forall (λ f, no_newline f = true) frames → no_newline rest = true →
  split is_newline (unframe frames rest) = frames ++ [rest].
Proof.
  intros Hf Hr. induction Hf as [|f frames Hf _ IH]; simpl.
  - by apply split_no_newline.
  - by rewrite split_frame, IH.
Qed.

Lemma unframe_exists s :
  ∃ frames rest, s = unframe frames rest
    ∧ Forall (λ f, no_newline f = true) frames ∧ no_newline rest = true.
Proof.
  induction s as [|c s (frames & rest & -> & Hf & Hr)].
  - by exists [], "".
  - destruct (is_newline c) eqn:Hc.
    + exists ("" :: frames), rest. repeat split; [|by constructor|done].
      unfold is_newline in Hc. apply Ascii.eqb_eq in Hc as ->. done.
    + destruct frames as [|f frames].
      * exists [], (String c rest). repeat split; [done|]. simpl. by rewrite Hc.
      * exists (String c f :: frames), rest. apply Forall_cons in Hf as [Hf1 Hf2].
        split; [done|]. split; [|done]. constructor; [|done]. simpl. by rewrite Hc.
Qed.

Lemma pop_snoc (frames : list string) rest : pop (frames ++ [rest]) = (Some rest, frames).
Proof. unfold pop. by rewrite last_snoc, removelast_last. Qed.

Lemma or_empty_Some s : or_empty (Some s) = s.
Proof. by destruct s. Qed.

Lemma set_buffer_twice f v w :
  Upd.client_ (Upd.buffer_ v) (Upd.client_ (λ c, Upd.buffer_ (f c) c) w)
  = Upd.client_ (Upd.buffer_ v) w.
Proof. done. Qed.

Lemma buffer_settle (p : promise) o w : buffer (client (settle p o w)) = buffer (client w).
Proof. by rewrite client_settle. Qed.

Lemma buffer_receive f t w : buffer (client (receive rt f t w)) = buffer (client w).
Proof.
  unfold receive, handleMessage. repeat case_match; simplify_eq; try done.
  by rewrite buffer_settle.
Qed.

Lemma buffer_handleLines ls : ∀ w,
  buffer (client (foldl (λ w line, handleLine rt line w) w ls)) = buffer (client w).
Proof.
  induction ls as [|l ls IH]; intros w; simpl; [done|]. rewrite IH.
  unfold handleLine. case_match; [apply buffer_receive|done].
Qed.

(** C7, as the code has it. Whatever the buffer holds and whatever chunk
    arrives, buffer-plus-chunk splits in one way into complete frames and a
    last piece without newline; the handler keeps that piece as the new
    buffer and runs the loop body on exactly the complete frames, in order.
    The loop body skips a frame that is blank (nothing is parsed, nothing is
    logged); on any other frame that fails JSON parsing it logs the frame
    and a diagnostic and changes nothing else (pending-request table,
    promises and transports stay as they are); a frame that parses goes to
    [handleMessage]. *)
Theorem handleData_frames (w : World) (data : string) :
  ∃ frames rest,
    buffer (client w) +:+ data = unframe frames rest
    ∧ Forall (λ f, no_newline f = true) frames
    ∧ no_newline rest = true
    ∧ handleData rt data w
      = foldl (λ w line, handleLine rt line w) (Upd.client_ (Upd.buffer_ rest) w) frames
    ∧ buffer (client (handleData rt data w)) = rest
    ∧ (∀ line v, truthy (trim line) = false → handleLine rt line v = v)
    ∧ (∀ line v, truthy (trim line) = true → JSON_parse rt line = None →
         handleLine rt line v
         = appendLine ("Failed to parse message: " +:+ line) (appendLine ("<- " +:+ line) v)
         ∧ client (handleLine rt line v) = client v
         ∧ settled (handleLine rt line v) = settled v)
    ∧ (∀ line v m, truthy (trim line) = true → JSON_parse rt line = Some m →
         handleLine rt line v
         = match handleMessage m (appendLine ("<- " +:+ line) v) with
           | inr v' => v'
           | inl _ =>
               appendLine ("Failed to parse message: " +:+ line)
                 (appendLine ("<- " +:+ line) v)
           end).
Proof.
  destruct (unframe_exists (buffer (client w) +:+ data)) as (frames & rest & Hs & Hf & Hr).
  exists frames, rest.
  assert (handleData rt data w
    = foldl (λ w line, handleLine rt line w) (Upd.client_ (Upd.buffer_ rest) w) frames) as Hd.
  { unfold handleData. cbn [client Upd.client_ buffer Upd.buffer_]. rewrite Hs.
    rewrite split_unframe, pop_snoc, or_empty_Some by done. by rewrite set_buffer_twice. }
  repeat split; try done.
  - by rewrite Hd, buffer_handleLines.
  - intros line v Hb. unfold handleLine. by rewrite Hb.
  - unfold handleLine, receive. by rewrite H, H0.
  - unfold handleLine, receive. by rewrite H, H0.
  - unfold handleLine, receive. by rewrite H, H0.
  - intros line v m Hb Hp. unfold handleLine, receive. by rewrite Hb, Hp.
Qed.

(** *** Handshake failures *)

Lemma failed_job k o e w :
  handshake_error k o = Some e →
  ∃ own w0, handshake_owner k = Some own ∧ run_job rt k o w = handshake_failed own e w0
    ∧ settled w0 = settled w ∧ awaiting w0 = awaiting w ∧ jobs w0 = jobs w
    ∧ pendingRequests (client w0) = pendingRequests (client w)
    ∧ trace w0 = trace w ∧ name (client w0) = name (client w).
Proof.
  intros He. destruct k as [own|own|own|p|p], o as [v|err]; simpl in He; simplify_eq.
  - destruct (connected_line v) eqn:E; simplify_eq.
    exists own, (Upd.client_ (Upd.serverInfo_ v) w). simpl. rewrite E.
    by repeat split.
  - by exists own, w.
  - by exists own, w.
  - destruct (Js.get v "tools") as [err|ts] eqn:E; simplify_eq.
    + exists own, w. simpl. by rewrite E.
    + destruct (discovered_line ts) eqn:E'; simplify_eq.
      exists own, (Upd.client_ (Upd.tools_ ts) w). simpl. rewrite E, E'.
      by repeat split.
  - by exists own, w.
Qed.

Lemma settled_settle (p : promise) o w :
  settled w !! p = None → settled (settle p o w) !! p = Some o.
Proof.
  intros H. unfold settle. rewrite H. simpl.
  destruct (awaiting w !! p); simpl; by rewrite lookup_insert_eq.
Qed.

Lemma settled_kept w w' (p : promise) o :
  evolves w w' → settled w !! p = Some o → settled w' !! p = Some o.
Proof. intros [] ?. by eapply lookup_weaken. Qed.


(** *** Correlation *)

Lemma callTool_connected n a w :
  connected w = true → settled w !! nextPromise w = None →
  let w' := fst (callTool rt n a w) in
  snd (callTool rt n a w) = nextPromise w
  ∧ pendingRequests (client w')
    = <[(requestId (client w) + 1)%Z := nextPromise w]> (pendingRequests (client w))
  ∧ requestId (client w') = (requestId (client w) + 1)%Z
  ∧ connected w' = true
  ∧ settled w' = settled w
  ∧ nextPromise w' = S (nextPromise w)
  ∧ awaiting w' = awaiting w ∧ jobs w' = jobs w ∧ nextSocket w' = nextSocket w.
Proof.
  unfold connected, callTool, sendRequest. intros Hc Hs.
  destruct (String.eqb (transport (client w)) "http") eqn:Eh; [done|].
  cbn [new_promise next_id fst snd]. cbv beta iota zeta.
  unfold transport in *.
  cbn [client config Upd.client_ Upd.nextPromise_ Upd.requestId_ effect Upd.trace_
       register Upd.pendingRequests_ process ws].
  destruct (String.eqb _ "stdio") eqn:Es.
  - destruct (process (client w)) as [[k []]|] eqn:Ep; try done. simpl.
    by rewrite Eh, Es, Ep.
  - destruct (ws (client w)) as [socket|] eqn:Ew; [|done]. rewrite Hc. simpl.
    by rewrite Eh, Es, Ew, Hc.
Qed.

Lemma call_all_spec calls : ∀ w,
  connected w = true → wf w → pending_bounded w →
  let w1 := fst (call_all rt calls w) in
  let ps := snd (call_all rt calls w) in
  length ps = length calls
  ∧ wf w1
  ∧ settled w1 = settled w ∧ awaiting w1 = awaiting w ∧ jobs w1 = jobs w
  ∧ nextSocket w1 = nextSocket w
  ∧ (∀ id, id ≤ requestId (client w) →
       pendingRequests (client w1) !! id = pendingRequests (client w) !! id)%Z
  ∧ (∀ (n : nat) p, ps !! n = Some p →
       pendingRequests (client w1) !! (requestId (client w) + 1 + Z.of_nat n)%Z = Some p).
Proof.
  induction calls as [|[n a] calls IH]; intros w Hc Hw Hb.
  - simpl. do 7 (split; [done|]). intros n p Hn. by rewrite lookup_nil in Hn.
  - cbn [call_all]. 
    destruct (fresh_unsettled w (nextPromise w) Hw (le_n _)) as [Hs _].
    destruct (callTool_connected n a w Hc Hs) as (Hp & Hpend & Hrid & Hc' & Hs' & Hn & Ha & Hj & Hk).
    destruct (callTool rt n a w) as [w' p] eqn:Ecall. cbn [fst snd] in *. subst p.
    assert (wf w') as Hw'.
    { pose proof (wf_callTool rt n a w Hw) as H. by rewrite Ecall in H. }
    assert (pending_bounded w') as Hb'.
    { pose proof (evolves_callTool rt n a w) as H. rewrite Ecall in H. by apply H. }
    specialize (IH w' Hc' Hw' Hb').
    destruct (call_all rt calls w') as [w1 ps] eqn:Eall. cbn [fst snd] in *.
    destruct IH as (Hlen & Hw1 & Hs1 & Ha1 & Hj1 & Hk1 & Hold & Hnew).
    split; [simpl; by rewrite Hlen|]. do 5 (split; [congruence|]). split.
    + intros id Hid. rewrite Hold by lia. rewrite Hpend.
      apply lookup_insert_ne. lia.
    + intros [|m] p Hm; simpl in Hm.
      * simplify_eq. rewrite Hold by lia. rewrite Hpend.
        replace (requestId (client w) + 1 + Z.of_nat 0)%Z
          with (requestId (client w) + 1)%Z by lia.
        apply lookup_insert_eq.
      * specialize (Hnew m p Hm). rewrite Hrid in Hnew.
        replace (requestId (client w) + 1 + Z.of_nat (S m))%Z
          with (requestId (client w) + 1 + 1 + Z.of_nat m)%Z by lia. done.
Qed.

Lemma evolves_receive_all f texts : ∀ w, evolves w (receive_all rt f texts w).
Proof.
  induction texts as [|t texts IH]; intros w; simpl; [apply evolves_refl|].
  eapply evolves_trans; [apply evolves_receive|apply IH].
Qed.

(** What [receive] does, by what the text parses to. *)
Lemma receive_cases f t w :
  let w0 := appendLine ("<- " +:+ t) w in
  (∃ m id p, JSON_parse rt t = Some m ∧ response_id m = Some id
      ∧ pendingRequests (client w) !! id = Some p
      ∧ receive rt f t w = settle p (response_outcome (Some m)) (unregister id w0))
  ∨ ((∀ m id, JSON_parse rt t = Some m → response_id m = Some id →
        pendingRequests (client w) !! id = None)
     ∧ (receive rt f t w = w0 ∨ receive rt f t w = appendLine (f +:+ t) w0)).
Proof.
  intros w0. unfold receive, handleMessage. fold w0.
  destruct (JSON_parse rt t) as [m|]; [|right; split; [done|by right]].
  assert (∀ r, Js.get (Some m) "id" = r →
    (∀ n, r ≠ inr (Some (JNum n))) →
    ∀ m' id, Some m = Some m' → response_id m' = Some id →
      pendingRequests (client w) !! id = None) as Hnot.
  { intros r Hr Hne m' id [= <-]. unfold response_id. rewrite Hr.
    destruct r as [?|[[]|]]; try done. by destruct (Hne n). }
  destruct (Js.get (Some m) "id") as [?|[idv|]] eqn:Eid;
    [right; split; [eapply (Hnot _ eq_refl); done|by right]| |right; split; [eapply (Hnot _ eq_refl); done|by left]].
  destruct idv as [|b|n|s|items|fields];
    try (right; split; [eapply (Hnot _ eq_refl); done|by left]).
  cbn [map_key]. destruct (pendingRequests (client w) !! n) as [p|] eqn:Ep.
  - left. exists m, n, p. subst w0. unfold response_id. cbn [client appendLine effect
      Upd.trace_]. rewrite Eid, Ep. done.
  - right. subst w0. cbn [client appendLine effect Upd.trace_]. rewrite Ep.
    split; [|by left].
    intros m' id [= <-]. unfold response_id. rewrite Eid. by intros [= <-].
Qed.

Lemma first_response_cons id t texts :
  first_response rt id (t :: texts)
  = match JSON_parse rt t with
    | Some m =>
        if bool_decide (response_id m = Some id) then Some (response_outcome (Some m))
        else first_response rt id texts
    | None => first_response rt id texts
    end.
Proof. done. Qed.

Lemma correlation f texts : ∀ w id (p : promise),
  wf w → pendingRequests (client w) !! id = Some p →
  settled (receive_all rt f texts w) !! p = first_response rt id texts.
Proof.
  induction texts as [|t texts IH]; intros w id p Hw Hp.
  - simpl. by apply (wf_pending _ Hw) in Hp as [_ ?].
  - cbn [receive_all foldl]. fold (receive_all rt f texts (receive rt f t w)).
    rewrite first_response_cons.
    pose proof (wf_receive rt f t w Hw) as Hw'.
    destruct (wf_pending _ Hw id p Hp) as [_ Hs].
    destruct (receive_cases f t w) as [(m & n & p' & Hm & Hn & Hp' & Hr)|[Hno Hr]].
    + rewrite Hm. destruct (decide (n = id)) as [->|Hne].
      * rewrite bool_decide_eq_true_2 by done. simplify_eq.
        eapply settled_kept; [apply evolves_receive_all|].
        rewrite Hr. by apply settled_settle.
      * rewrite bool_decide_eq_false_2 by congruence.
        apply IH; [done|]. rewrite Hr, client_settle. simpl.
        by rewrite lookup_delete_ne.
    + assert (pendingRequests (client (receive rt f t w)) !! id = Some p) as Hp'.
      { by destruct Hr as [-> | ->]. }
      rewrite (IH _ id p Hw' Hp').
      destruct (JSON_parse rt t) as [m|] eqn:Em; [|done].
      rewrite bool_decide_eq_false_2; [done|].
      intros Hid. specialize (Hno m id eq_refl Hid). congruence.
Qed.

Lemma receive_idle f t w :
  awaiting w = ∅ → jobs w = [] →
  awaiting (receive rt f t w) = ∅ ∧ jobs (receive rt f t w) = []
  ∧ nextSocket (receive rt f t w) = nextSocket w.
Proof.
  intros Ha Hj.
  destruct (receive_cases f t w) as [(m & n & p' & Hm & Hn & Hp' & Hr)|[Hno [Hr|Hr]]];
    rewrite Hr; try done.
  unfold settle. simpl. rewrite Ha, lookup_empty. by case_match.
Qed.

Lemma run_ws_messages k texts : ∀ w,
  awaiting w = ∅ → jobs w = [] → k < nextSocket w →
  run rt (WsMessage k <$> texts) w = receive_all rt "Failed to parse WS message: " texts w.
Proof.
  induction texts as [|t texts IH]; intros w Ha Hj Hk; [done|].
  cbn [fmap list_fmap run foldl receive_all].
  assert (dispatch rt (WsMessage k t) w = receive rt "Failed to parse WS message: " t w) as ->.
  { unfold dispatch. cbn [handle]. apply Nat.ltb_lt in Hk. rewrite Hk.
    unfold on_ws_message. apply drain_idle. by apply receive_idle. }
  destruct (receive_idle "Failed to parse WS message: " t w Ha Hj) as (Ha' & Hj' & Hk').
  apply IH; [done..|]. by rewrite Hk'.
Qed.


End Claims.
End Claims.

(** ** The claims on sample sessions *)

Module Scenarios.
Import JsString Demo Claims.

(** The end-to-end scenario of the stdio transport: two tools are
    discovered and the session is connected. *)
Example stdio_session :
  settled stdio_ready !! 0 = Some (Fulfilled None)
  ∧ tools (client stdio_ready)
    = Some (JArr [JObj [("name", JStr "echo")]; JObj [("name", JStr "sum")]])
  ∧ isConnected (client stdio_ready) = true
  ∧ isConnected (client (run rt0 [CallStop] stdio_ready)) = false.
Proof. vm_compute. done. Qed.

(** C1 fails on the code: a request is pending (id 3, promise 4) when the
    child exits; afterwards it is still in the table and its promise is
    still unsettled. *)
Lemma pending_request_survives_exit :
  let w := run rt0 [CallTool "echo" echo_args; ProcessExit (Some (JNum 1)) (Some JNull)]
             stdio_ready in
  snd (callTool rt0 "echo" echo_args stdio_ready) = 4
  ∧ pendingRequests (client w) !! 3%Z = Some 4
  ∧ settled w !! 4 = None
  ∧ process (client w) = None.
Proof. vm_compute. done. Qed.



(** C3 on the code: an http session completes [start()] (promise 0 is
    fulfilled, two tools are discovered) and [isConnected] is false. *)
Lemma isConnected_false_off_stdio_witness :
  let w0 := new_McpClient "demo" http_config in
  let w := run rt0 http_handshake w0 in
  transport (client w0) ≠ "stdio"
  ∧ snd (start rt0 true w0) = 0
  ∧ settled w !! 0 = Some (Fulfilled None)
  ∧ tools (client w)
    = Some (JArr [JObj [("name", JStr "echo")]; JObj [("name", JStr "sum")]])
  ∧ isConnected (client w) = false.
Proof.
  intros w0 w. assert (transport (client w0) ≠ "stdio") as Ht by (vm_compute; discriminate).
  split; [exact Ht|]. split; [vm_compute; reflexivity|]. split; [vm_compute; reflexivity|].
  split; [vm_compute; reflexivity|].
  exact (isConnected_false_off_stdio rt0 "demo" http_config http_handshake Ht).
Defined.

(** The same over websocket. *)
Example websocket_session_not_connected :
  let w := run rt0 [CallStart true; WsOpen 0; WsMessage 0 (stringify (initialize_ok 1));
                    WsMessage 0 (stringify (tools_ok 2))]
             (new_McpClient "demo" websocket_config) in
  tools (client w) = Some (JArr [JObj [("name", JStr "echo")]; JObj [("name", JStr "sum")]])
  ∧ isConnected (client w) = false.
Proof. vm_compute. done. Qed.


(** The same session evaluated: each caller gets its own answer. *)
Example two_calls_answered_out_of_order :
  let w1 := fst (call_all rt0 two_calls stdio_ready) in
  let w2 := receive_all rt0 "Failed to parse message: " two_answers w1 in
  snd (call_all rt0 two_calls stdio_ready) = [4; 5]
  ∧ settled w2 !! 4
    = Some (Fulfilled (Some (JObj [("content",
              JArr [JObj [("type", JStr "text"); ("text", JStr "Echo: hi")]])])))
  ∧ settled w2 !! 5
    = Some (Fulfilled (Some (JObj [("content",
              JArr [JObj [("type", JStr "text"); ("text", JStr "7")]])])))
  ∧ pendingRequests (client w2) = ∅.
Proof. vm_compute. done. Qed.

(** C6 fails on the code: after [stop()] a notification is not refused;
    its promise is fulfilled and nothing else happens. *)
Lemma notification_after_stop_is_dropped :
  let w := fst (stop stdio_ready) in
  let w' := fst (sendNotification rt0 "notifications/initialized" (JObj []) w) in
  let p := snd (sendNotification rt0 "notifications/initialized" (JObj []) w) in
  settled w' !! p = Some (Fulfilled None)
  ∧ trace w' = trace w ++ [Settled p (Fulfilled None)].
Proof. vm_compute. done. Qed.

(** C7 fails on the code: a blank line does not parse as JSON, and the
    handler drops it without logging anything: the world is untouched. *)
Lemma blank_line_skipped_without_diagnostic :
  JSON_parse rt0 " " = None
  ∧ handleData rt0 (" " +:+ nl) stdio_ready = stdio_ready.
Proof. vm_compute. done. Qed.

(** A frame split over two chunks is handled once it is complete. *)
Example frame_over_two_chunks :
  let w1 := handleData rt0 "{" (run rt0 [CallStart true] (new_McpClient "demo" stdio_config)) in
  let w2 := handleData rt0 (substring_from 1 (line (initialize_ok 1))) w1 in
  buffer (client w1) = "{" ∧ pendingRequests (client w1) !! 1%Z = Some 1
  ∧ buffer (client w2) = "" ∧ pendingRequests (client w2) !! 1%Z = None
  ∧ is_Some (settled w2 !! 1).
Proof. vm_compute. repeat split; try done. by eexists. Qed.


(** [stop()] in the middle of a handshake. *)
Example stop_during_handshake :
  let w := run rt0 [CallStart true; CallStop] (new_McpClient "demo" stdio_config) in
  settled w !! 2 = Some (Fulfilled None)
  ∧ settled w !! 0 = None
  ∧ tools (client w) = Some (JArr []) ∧ serverInfo (client w) = Some JNull
  ∧ isConnected (client w) = false.
Proof. vm_compute. done. Qed.

End Scenarios.

(** ** Starting, stopping and sending, on every reachable session *)

Module ClientFacts.
Import JsString EvolveFacts JobFacts Claims.
Section ClientFacts.
Context (rt : Runtime).

Lemma config_reachable n cfg events :
  config (client (run rt events (new_McpClient n cfg))) = cfg
  ∧ name (client (run rt events (new_McpClient n cfg))) = n.
Proof.
  destruct (evolves_from_new rt n cfg events) as [Hn Hc _ _ _ _ _ _ _ _ _]. done.
Qed.

Lemma refused_settle w (p : promise) msg :
  settled w !! p = None → awaiting w !! p = None →
  ∀ v, client v = client w → trace v = trace w → settled v = settled w → awaiting v = awaiting w →
  refused w (settle p (Rejected (MkError msg)) v) p msg.
Proof.
  intros Hs Ha v Hc Ht Hsv Hav. unfold refused.
  rewrite settle_fresh by (rewrite ?Hsv, ?Hav; done).
  cbn [settled effect Upd.trace_ Upd.settled_ client trace]. rewrite lookup_insert_eq, Hc, Ht. done.
Qed.

(** X1. [start()] on a session that holds no process and whose
    configuration lacks the field its transport needs ([command] for
    stdio, [url] for websocket and http, missing or empty), or whose
    transport type is none of the three, is refused: the promise is
    rejected with the message that names the field or the type, no client
    field changes and nothing is spawned, connected or sent. *)
Theorem start_requires_transport_field nm cfg (events : list Event) (b : bool) :
  let w := run rt events (new_McpClient nm cfg) in
  let w' := fst (start rt b w) in
  let p := snd (start rt b w) in
  process (client w) = None →
  (transport (client w) = "stdio" → falsy (cfg_command cfg) = true →
     refused w w' p "stdio transport requires a `command` in server config")
  ∧ (transport (client w) = "websocket" → falsy (cfg_url cfg) = true →
     refused w w' p "WebSocket transport requires a `url` in server config")
  ∧ (transport (client w) = "http" → falsy (cfg_url cfg) = true →
     refused w w' p "HTTP transport requires a `url` in server config")
  ∧ (transport (client w) ∉ ["stdio"; "websocket"; "http"] →
     refused w w' p ("Unsupported MCP transport type: " +:+ transport (client w))).
Proof.
  intros w w' p Hp.
  pose proof (wf_reachable rt nm cfg events) as Hw. fold w in Hw.
  destruct (config_reachable nm cfg events) as [Hc _]. fold w in Hc.
  destruct (fresh_unsettled w (nextPromise w) Hw (le_n _)) as [Hs Ha].
  subst w' p. unfold start. cbn [new_promise]. cbv beta iota zeta.
  cbn [client Upd.nextPromise_ fst snd]. rewrite Hp, Hc.
  split; [|split; [|split]].
  - intros Ht Hf. rewrite Ht. cbn [String.eqb Ascii.eqb Bool.eqb]. rewrite Hf. cbn [fst snd].
    by apply refused_settle.
  - intros Ht Hf. rewrite Ht. cbn [String.eqb Ascii.eqb Bool.eqb]. rewrite Hf. cbn [fst snd].
    by apply refused_settle.
  - intros Ht Hf. rewrite Ht. cbn [String.eqb Ascii.eqb Bool.eqb]. rewrite Hf. cbn [fst snd].
    by apply refused_settle.
  - intros Ht.
    destruct (String.eqb (transport (client w)) "stdio") eqn:E1;
      [apply eqb_true_eq in E1; rewrite E1 in Ht; set_solver|].
    destruct (String.eqb (transport (client w)) "websocket") eqn:E2;
      [apply eqb_true_eq in E2; rewrite E2 in Ht; set_solver|].
    destruct (String.eqb (transport (client w)) "http") eqn:E3;
      [apply eqb_true_eq in E3; rewrite E3 in Ht; set_solver|].
    cbn [fst snd]. by apply refused_settle.
Qed.

(** X2. [start()] on a session that holds a process does nothing: its
    promise is fulfilled at once, no field of the client changes and no
    second process is spawned. *)
Theorem start_while_running_is_noop nm cfg (events : list Event) (b : bool) :
  let w := run rt events (new_McpClient nm cfg) in
  let w' := fst (start rt b w) in
  let p := snd (start rt b w) in
  is_Some (process (client w)) →
  settled w' !! p = Some (Fulfilled None)
  ∧ client w' = client w
  ∧ trace w' = trace w ++ [Settled p (Fulfilled None)].
Proof.
  intros w w' p [proc Hp].
  pose proof (wf_reachable rt nm cfg events) as Hw. fold w in Hw.
  destruct (fresh_unsettled w (nextPromise w) Hw (le_n _)) as [Hs Ha].
  subst w' p. unfold start. cbn [new_promise]. cbv beta iota zeta.
  cbn [client Upd.nextPromise_ fst snd]. rewrite Hp. cbn [fst snd].
  rewrite settle_fresh by done.
  cbn [settled effect Upd.trace_ Upd.settled_ client trace Upd.nextPromise_].
  by rewrite lookup_insert_eq.
Qed.

Lemma next_id_free n cfg events :
  let w := run rt events (new_McpClient n cfg) in
  pendingRequests (client w) !! (requestId (client w) + 1)%Z = None.
Proof.
  intros w.
  destruct (pendingRequests (client w) !! (requestId (client w) + 1)%Z) eqn:E; [|done].
  assert (requestId (client w) + 1 ≤ requestId (client w))%Z; [|lia].
  destruct (evolves_from_new rt n cfg events) as [_ _ _ _ _ _ _ Hpend _ _ _].
  apply Hpend; [|eexists; exact E].
  intros i [? Hi]. simpl in Hi. by rewrite lookup_empty in Hi.
Qed.

(** X3. A request on a session that is not connected is rejected with
    the error of its transport ([MCP server not connected], [MCP
    WebSocket not connected], [HTTP transport not configured]) and
    nothing is sent.  On stdio and websocket the request id is consumed
    all the same (the counter moves on) and the pending-request table is
    left as it was; on http, without a URL, the client is left untouched. *)
Theorem request_refused_when_not_connected nm cfg (events : list Event)
    (method : string) (params : json) :
  let w := run rt events (new_McpClient nm cfg) in
  let w1 := fst (sendRequest rt method params w) in
  let p := snd (sendRequest rt method params w) in
  let id := (requestId (client w) + 1)%Z in
  (transport (client w) ≠ "http" → connected w = false →
     settled w1 !! p = Some (Rejected (not_connected (client w)))
     ∧ pendingRequests (client w1) = pendingRequests (client w)
     ∧ requestId (client w1) = id
     ∧ trace w1 = trace w ++ [Allocated id; Settled p (Rejected (not_connected (client w)))])
  ∧ (transport (client w) = "http" → falsy (httpUrl (client w)) = true →
     settled w1 !! p = Some (Rejected (not_connected (client w)))
     ∧ client w1 = client w
     ∧ trace w1 = trace w ++ [Settled p (Rejected (not_connected (client w)))]).
Proof.
  intros w w1 p id.
  pose proof (wf_reachable rt nm cfg events) as Hw. fold w in Hw.
  pose proof (next_id_free nm cfg events) as Hfree. fold w in Hfree. cbv zeta in Hfree.
  destruct (fresh_unsettled w (nextPromise w) Hw (le_n _)) as [Hns Hna].
  assert (delete id (<[id := nextPromise w]> (pendingRequests (client w)))
          = pendingRequests (client w)) as Hdel.
  { rewrite delete_insert_eq. by apply delete_id. }
  subst w1 p. unfold sendRequest, not_connected, connected. split.
  - intros Hh Hc.
    destruct (String.eqb (transport (client w)) "http") eqn:Eh;
      [by apply eqb_true_eq in Eh|].
    destruct (String.eqb (transport (client w)) "stdio") eqn:Es;
      unfold transport in *;
      cbn [new_promise next_id fst snd]; cbv beta iota zeta;
      cbn [client config Upd.client_ Upd.nextPromise_ Upd.requestId_ effect
           Upd.trace_ register unregister Upd.pendingRequests_ process ws httpUrl];
      rewrite ?Eh, ?Es.
    + destruct (process (client w)) as [[k []]|] eqn:Ep; try done; cbn [fst snd];
        rewrite ?client_settle;
        rewrite ?settled_settle_fresh, ?trace_settle_fresh by (first [exact Hns|exact Hna]);
        rewrite ?lookup_insert_eq; unfold register, unregister;
        cbn [client Upd.client_ Upd.nextPromise_ Upd.requestId_ effect Upd.trace_
             Upd.pendingRequests_ pendingRequests trace nextPromise requestId];
        rewrite <- ?app_assoc; done.
    + destruct (ws (client w)) as [socket|] eqn:Ew; rewrite ?Hc; cbn [fst snd];
        rewrite ?client_settle;
        rewrite ?settled_settle_fresh, ?trace_settle_fresh by (first [exact Hns|exact Hna]);
        rewrite ?lookup_insert_eq; unfold register, unregister;
        cbn [client Upd.client_ Upd.nextPromise_ Upd.requestId_ effect Upd.trace_
             Upd.pendingRequests_ pendingRequests trace nextPromise requestId];
        rewrite <- ?app_assoc; done.
  - intros Hh Hf. rewrite Hh. cbn [String.eqb Ascii.eqb Bool.eqb].
    destruct (httpUrl (client w)) as [[|c u]|] eqn:Eu; try done;
      cbn [new_promise fst snd]; cbv beta iota zeta;
      rewrite ?client_settle;
      rewrite ?settled_settle_fresh, ?trace_settle_fresh by (first [exact Hns|exact Hna]);
      rewrite ?lookup_insert_eq; done.
Qed.

(** X4. [stop()] settles no promise but its own: the requests that are
    pending stay in the table, unsettled, and the request counter and the
    receive buffer are kept (they are not reset); the only effects are
    the kill of the process and the close of the socket, when there is
    one. *)
Theorem stop_keeps_requests nm cfg (events : list Event) :
  let w := run rt events (new_McpClient nm cfg) in
  let w1 := fst (stop w) in
  let p := snd (stop w) in
  pendingRequests (client w1) = pendingRequests (client w)
  ∧ requestId (client w1) = requestId (client w)
  ∧ buffer (client w1) = buffer (client w)
  ∧ settled w1 = <[p := Fulfilled None]> (settled w)
  ∧ (∀ id (q : promise), pendingRequests (client w) !! id = Some q → settled w1 !! q = None)
  ∧ trace w1 = trace w
      ++ match process (client w) with Some _ => [Kill] | None => [] end
      ++ match ws (client w) with Some socket => [WsClose (sock socket)] | None => [] end
      ++ [Settled p (Fulfilled None)].
Proof.
  intros w w1 p.
  pose proof (wf_reachable rt nm cfg events) as Hw. fold w in Hw.
  destruct (fresh_unsettled w (nextPromise w) Hw (le_n _)) as [Hs Ha].
  assert (p = nextPromise w) as Hp by done.
  assert (pendingRequests (client w1) = pendingRequests (client w)
          ∧ requestId (client w1) = requestId (client w)
          ∧ buffer (client w1) = buffer (client w)
          ∧ settled w1 = <[p := Fulfilled None]> (settled w)
          ∧ trace w1 = trace w
              ++ match process (client w) with Some _ => [Kill] | None => [] end
              ++ match ws (client w) with Some socket => [WsClose (sock socket)] | None => [] end
              ++ [Settled p (Fulfilled None)]) as (H1 & H2 & H3 & H4 & H5).
  { subst w1 p. unfold stop. cbn [new_promise]. cbv beta iota zeta.
    destruct (process (client w)) eqn:Ep, (ws (client w)) eqn:Ew;
      do 3 (simpl; rewrite ?Ep, ?Ew).
    all: rewrite settle_fresh by (first [exact Hs|exact Ha]); simpl;
      rewrite <- ?app_assoc; done. }
  do 4 (split; [done|]). split; [|done].
  intros id q Hq. rewrite H4. destruct Hw as [_ _ _ Hpend _ _].
  destruct (Hpend id q Hq) as [Hlt Hn].
  rewrite lookup_insert_ne; [done|]. lia.
Qed.



End ClientFacts.
End ClientFacts.

(** ** Which events assign the process handle *)

Module HandleFacts.
Import JsString EvolveFacts JobFacts Claims.
Section HandleFacts.
Context (rt : Runtime).

Ltac proj :=
  unfold register, unregister, appendLine, effect, new_promise, next_id;
  cbn [client process Upd.client_ Upd.process_ Upd.ws_ Upd.httpUrl_ Upd.requestId_
       Upd.pendingRequests_ Upd.buffer_ Upd.serverInfo_ Upd.tools_ Upd.settled_
       Upd.awaiting_ Upd.jobs_ Upd.nextPromise_ Upd.nextSocket_ Upd.trace_ fst snd].

Lemma process_settle (p : promise) o w : process (client (settle p o w)) = process (client w).
Proof. by rewrite client_settle. Qed.

Lemma process_await (p : promise) k w : process (client (await p k w)) = process (client w).
Proof. unfold await. by case_match. Qed.

Lemma process_postJson u b w : process (client (fst (postJson rt u b w))) = process (client w).
Proof.
  unfold postJson. cbn [new_promise]. cbv beta iota zeta. case_match; cbn [fst]; [done|].
  by rewrite process_settle.
Qed.

Ltac kept :=
  repeat first
    [ rewrite process_await | rewrite process_settle | rewrite process_postJson
    | progress proj ].

Lemma process_sendRequest m ps w :
  process (client (fst (sendRequest rt m ps w))) = process (client w).
Proof.
  unfold sendRequest. open_calls.
  repeat first [step_call | case_match]; cbn [fst snd];
    kept; done.
Qed.

Lemma process_sendNotification m ps w :
  process (client (fst (sendNotification rt m ps w))) = process (client w).
Proof.
  unfold sendNotification. open_calls.
  repeat first [step_call | case_match]; cbn [fst snd];
    kept; done.
Qed.

Lemma process_initialize own w : process (client (initialize rt own w)) = process (client w).
Proof.
  unfold initialize. step_call. by rewrite process_await, process_sendRequest.
Qed.

Lemma process_discoverTools own w :
  process (client (discoverTools rt own w)) = process (client w).
Proof.
  unfold discoverTools. step_call. by rewrite process_await, process_sendRequest.
Qed.

Lemma process_handshake_failed own e w :
  process (client (handshake_failed own e w)) = process (client w).
Proof. destruct own; simpl; [apply process_settle|done]. Qed.

Lemma process_handshake_done own w :
  process (client (handshake_done own w)) = process (client w).
Proof. destruct own; simpl; [apply process_settle|done]. Qed.

Lemma process_run_job k o w : process (client (run_job rt k o w)) = process (client w).
Proof.
  destruct k, o; cbn [run_job];
    repeat first [step_call | case_match]; cbn [fst snd];
    rewrite ?process_handshake_failed, ?process_handshake_done, ?process_discoverTools,
      ?process_await, ?process_sendNotification, ?process_settle; done.
Qed.

Lemma process_drain_go n : ∀ w, process (client (drain_go rt n w)) = process (client w).
Proof.
  induction n as [|n IH]; intros w; [done|]. simpl.
  destruct (jobs w) as [|[k o] rest]; [done|]. by rewrite IH, process_run_job.
Qed.

Lemma process_receive f t w : process (client (receive rt f t w)) = process (client w).
Proof.
  unfold receive, handleMessage. repeat case_match; simplify_eq;
    rewrite ?process_settle; done.
Qed.

Lemma process_handleLines ls : ∀ w,
  process (client (foldl (λ w line, handleLine rt line w) w ls)) = process (client w).
Proof.
  induction ls as [|l ls IH]; intros w; [done|]. simpl. rewrite IH.
  unfold handleLine. case_match; [apply process_receive|done].
Qed.

Lemma process_handleData d w : process (client (handleData rt d w)) = process (client w).
Proof. unfold handleData. case_match. by rewrite process_handleLines. Qed.

Lemma process_ws_state k st w : process (client (ws_state k st w)) = process (client w).
Proof. unfold ws_state. by repeat case_match. Qed.

(** X7. Only [start()], [stop()] and the exit of the child assign the
    process handle: any other event (a call, data on stdout or stderr, a
    process error, a socket or HTTP event) leaves it, and therefore
    [isConnected], as it was. *)
Theorem process_handle_kept (e : Event) (w : World) :
  touches_process e = false →
  process (client (dispatch rt e w)) = process (client w)
  ∧ isConnected (client (dispatch rt e w)) = isConnected (client w).
Proof.
  intros He.
  assert (process (client (dispatch rt e w)) = process (client w)) as H;
    [|by unfold isConnected; rewrite H].
  unfold dispatch, drain. rewrite process_drain_go.
  destruct e; try done; cbn [handle];
    unfold callTool, on_process_error, on_ws_open, on_ws_message, on_ws_error, on_ws_close,
      on_http_end, on_http_error;
    repeat case_match;
    rewrite ?process_sendRequest, ?process_handleData, ?process_initialize, ?process_receive,
      ?process_settle; cbn; rewrite ?process_ws_state; done.
Qed.

End HandleFacts.
End HandleFacts.

(** ** Notifications *)

Module NotificationFacts.
Import JsString EvolveFacts JobFacts Claims.
Section NotificationFacts.
Context (rt : Runtime).

Lemma client_await (p : promise) k w : client (await p k w) = client w.
Proof. unfold await. by case_match. Qed.

Lemma client_postJson u b w : client (fst (postJson rt u b w)) = client w.
Proof.
  unfold postJson. cbn [new_promise]. cbv beta iota zeta. case_match; cbn [fst]; [done|].
  by rewrite client_settle.
Qed.

Lemma client_sendNotification method params w :
  client (fst (sendNotification rt method params w)) = client w.
Proof.
  unfold sendNotification. open_calls.
  repeat first [step_call | case_match]; cbn [fst snd];
    rewrite ?client_await, ?client_settle, ?client_postJson; done.
Qed.


Lemma http_posts_app l1 l2 : http_posts (l1 ++ l2) = http_posts l1 ++ http_posts l2.
Proof. apply omap_app. Qed.

Lemma posted_last (q : promise) u b l : existsb
  (λ e, match e with HttpPost q' _ _ => (q' =? q)%nat | _ => false end) (l ++ [HttpPost q u b])
  = true.
Proof. rewrite existsb_app. simpl. by rewrite Nat.eqb_refl, orb_true_r. Qed.

(** The job of a notification whose POST has ended. *)
Lemma notified_job (p : promise) o v :
  jobs v = [(KNotified p, o)] → settled v !! p = None → awaiting v !! p = None →
  settled (drain rt v) !! p = Some (Fulfilled None).
Proof.
  intros Hj Hs Ha.
  assert (run_job rt (KNotified p) o (Upd.jobs_ [] v)
          = settle p (Fulfilled None) (Upd.jobs_ [] v)) as Hrun by (by destruct o).
  rewrite (drain_single rt (KNotified p) o v Hj); rewrite Hrun.
  - rewrite settled_settle_fresh by done. cbn [settled Upd.jobs_]. by rewrite lookup_insert_eq.
  - by rewrite settle_fresh by done.
Qed.

Lemma notified_after_end (p q : promise) o v :
  jobs v = [] → settled v !! q = None → awaiting v !! q = Some (KNotified p) →
  settled v !! p = None → awaiting v !! p = None → p ≠ q →
  settled (drain rt (settle q o v)) !! p = Some (Fulfilled None).
Proof.
  intros Hj Hsq Haq Hsp Hap Hne. unfold settle. rewrite Hsq.
  cbn [awaiting effect Upd.trace_ Upd.settled_]. rewrite Haq.
  apply (notified_job _ o);
    cbn [jobs settled awaiting effect Upd.jobs_ Upd.awaiting_ Upd.trace_ Upd.settled_].
  - by rewrite Hj.
  - by rewrite lookup_insert_ne.
  - by rewrite lookup_delete_ne.
Qed.

(** X9. Over http the promise of a notification is fulfilled whatever
    becomes of its POST: when the response ends, with any body, when the
    request fails, and, once the promise jobs have run, when the URL
    constructor refuses the URL (nothing is posted then). *)
Theorem http_notification_is_fulfilled nm cfg (events : list Event)
    (method : string) (params : json) (url : string) :
  let w := run rt events (new_McpClient nm cfg) in
  let w1 := fst (sendNotification rt method params w) in
  let p := snd (sendNotification rt method params w) in
  let message := JSON_stringify rt (jsonrpc_notification method params) in
  transport (client w) = "http" → httpUrl (client w) = Some url → url ≠ "" →
  (URL_valid rt url = true →
     http_posts (trace w1) = http_posts (trace w) ++ [(S p, url, message)]
     ∧ settled w1 !! p = None
     ∧ (∀ body, settled (dispatch rt (HttpEnd (S p) body) w1) !! p = Some (Fulfilled None))
     ∧ (∀ err, settled (dispatch rt (HttpError (S p) err) w1) !! p = Some (Fulfilled None)))
  ∧ (URL_valid rt url = false →
     http_posts (trace w1) = http_posts (trace w)
     ∧ settled (drain rt w1) !! p = Some (Fulfilled None)).
Proof.
  intros w w1 p message Ht Hu Hne.
  pose proof (wf_reachable rt nm cfg events) as Hw. fold w in Hw.
  pose proof (idle_reachable rt nm cfg events) as Hidle. fold w in Hidle.
  destruct (fresh_unsettled w (nextPromise w) Hw (le_n _)) as [Hs Ha].
  destruct (fresh_unsettled w (S (nextPromise w)) Hw (le_S _ _ (le_n _))) as [Hs' Ha'].
  destruct url as [|c u]; [done|].
  subst w1 p. unfold sendNotification, postJson. cbn [new_promise].
  cbv beta iota zeta. cbn [client Upd.nextPromise_ nextPromise].
  rewrite Ht, Hu. cbn [String.eqb Ascii.eqb Bool.eqb].
  destruct (URL_valid rt (String c u)); cbn [fst snd]; (split; [intros Hv|intros Hv]);
    try discriminate Hv; clear Hv.
  - rewrite await_unsettled by done.
    unfold effect. cbn [settled trace Upd.awaiting_ Upd.trace_ Upd.nextPromise_].
    rewrite http_posts_app. split; [done|]. split; [done|].
    match goal with |- context [dispatch rt _ ?v] => set (w1 := v) end.
    assert (∀ o, settled (drain rt (settle (S (nextPromise w)) o w1)) !! nextPromise w
                 = Some (Fulfilled None)) as Hjob.
    { intros o. apply notified_after_end; subst w1;
        cbn [jobs settled awaiting Upd.awaiting_ Upd.trace_ Upd.nextPromise_];
        rewrite ?lookup_insert_eq, ?lookup_insert_ne by lia; first [done|lia]. }
    assert (posted (S (nextPromise w)) w1 = true) as Hposted.
    { subst w1. unfold posted. cbn [trace Upd.awaiting_ Upd.trace_]. apply posted_last. }
    split.
    + intros body. unfold dispatch. cbn [handle]. rewrite Hposted.
      unfold on_http_end. by destruct (JSON_parse rt body).
    + intros err. unfold dispatch. cbn [handle]. rewrite Hposted. apply Hjob.
  - rewrite settle_fresh by done. unfold await, effect.
    cbn [settled trace Upd.settled_ Upd.trace_ Upd.nextPromise_]. rewrite lookup_insert_eq.
    cbn [trace Upd.jobs_ Upd.trace_]. rewrite http_posts_app, app_nil_r. split; [done|].
    eapply notified_job;
      cbn [jobs settled awaiting Upd.jobs_ Upd.awaiting_ Upd.trace_ Upd.nextPromise_
           Upd.settled_].
    + by rewrite Hidle.
    + rewrite lookup_insert_ne by lia. done.
    + done.
Qed.

End NotificationFacts.
End NotificationFacts.

(** ** The handshake on the three transports *)

Module HandshakeFacts.
Import JsString EvolveFacts JobFacts Claims.
Section HandshakeFacts.
Context (rt : Runtime).

Lemma response_id_get m id : response_id m = Some id → Js.get (Some m) "id" = inr (Some (JNum id)).
Proof.
  unfold response_id. destruct (Js.get (Some m) "id") as [e|[[]|]]; try done. by intros [= ->].
Qed.

Lemma handleData_line t w :
  buffer (client w) = "" → no_newline t = true →
  handleData rt (t +:+ newline) w = handleLine rt t (Upd.client_ (Upd.buffer_ "") w).
Proof.
  intros Hb Hn. unfold handleData.
  cbn [client Upd.client_ buffer Upd.buffer_]. rewrite Hb.
  change ("" +:+ (t +:+ newline)) with (unframe [t] "").
  rewrite split_unframe; [|by repeat constructor|done].
  rewrite pop_snoc, or_empty_Some. done.
Qed.

Lemma drain_go_fuel n : ∀ m w,
  backlog w ≤ n → backlog w ≤ m → drain_go rt n w = drain_go rt m w.
Proof.
  induction n as [|n IH]; intros m w Hn Hm.
  - destruct m; [done|]. simpl. destruct (jobs w) as [|[k o] rest] eqn:E; [done|].
    rewrite backlog_eq, E in Hn. simpl in Hn. destruct k; simpl in Hn; lia.
  - simpl. destruct (jobs w) as [|[k o] rest] eqn:E.
    + destruct m; simpl; by rewrite ?E.
    + pose proof (backlog_run_job rt k o (Upd.jobs_ rest w)) as Hlt.
      assert (backlog w = weight k + backlog (Upd.jobs_ rest w)) as Hb.
      { rewrite !backlog_eq, E. simpl. lia. }
      destruct m as [|m]; [destruct k; simpl in Hb; lia|].
      simpl. rewrite E. apply IH; lia.
Qed.

Lemma drain_step w k o rest :
  jobs w = (k, o) :: rest → drain rt w = drain rt (run_job rt k o (Upd.jobs_ rest w)).
Proof.
  intros E. unfold drain at 1.
  pose proof (backlog_run_job rt k o (Upd.jobs_ rest w)) as Hlt.
  assert (backlog w = weight k + backlog (Upd.jobs_ rest w)) as Hb.
  { rewrite !backlog_eq, E. simpl. lia. }
  destruct (backlog w) as [|n]; [destruct k; simpl in Hb; lia|].
  simpl. rewrite E. apply drain_go_fuel; lia.
Qed.

Lemma run_cons e es w w' w'' :
  dispatch rt e w = w' → run rt es w' = w'' → run rt (e :: es) w = w''.
Proof. by intros <- <-. Qed.

Lemma run_nil w : run rt [] w = w.
Proof. done. Qed.

Lemma dispatch_drain e w w' : drain rt (handle rt e w) = w' → dispatch rt e w = w'.
Proof. done. Qed.

(** A complete line on stdout that answers the pending request [id]. *)
Lemma stdout_answer t w m id (p : promise) o :
  buffer (client w) = "" → no_newline t = true → truthy (trim t) = true →
  JSON_parse rt t = Some m → Js.get (Some m) "id" = inr (Some (JNum id)) →
  response_outcome (Some m) = o →
  pendingRequests (client w) !! id = Some p →
  handle rt (StdoutData (t +:+ newline)) w
  = settle p o (unregister id (appendLine ("<- " +:+ t) (Upd.client_ (Upd.buffer_ "") w))).
Proof.
  intros Hbuf Hn Hb Hp Hid Ho Hpend. cbn [handle]. rewrite handleData_line by done.
  unfold handleLine. rewrite Hb. unfold receive. rewrite Hp. unfold handleMessage.
  rewrite Hid. cbn [map_key]. cbn [client appendLine effect Upd.trace_ Upd.client_
    Upd.buffer_ pendingRequests]. by rewrite Hpend, Ho.
Qed.

(** The two handshake jobs when the server's answer has the expected members. *)
Lemma job_initialize_ok own v line w :
  connected_line v = inr line →
  run_job rt (KInitialize own) (Fulfilled v) w
  = (let '(w1, p) := sendNotification rt "notifications/initialized" (JObj [])
                       (appendLine line (Upd.client_ (Upd.serverInfo_ v) w)) in
     await p (KInitialized own) w1).
Proof. intros H. cbn [run_job]. by rewrite H. Qed.

Lemma job_discover_ok own result ts line w :
  Js.get result "tools" = inr ts → discovered_line ts = inr line →
  run_job rt (KDiscover own) (Fulfilled result) w
  = handshake_done own (appendLine line (Upd.client_ (Upd.tools_ ts) w)).
Proof. intros H1 H2. cbn [run_job]. by rewrite H1, H2. Qed.

Lemma job_then_ok (p : promise) resp o w :
  then_response resp = o → run_job rt (KThenResponse p) (Fulfilled resp) w = settle p o w.
Proof. by intros <-. Qed.

Lemma job_notified (p : promise) o w :
  run_job rt (KNotified p) o w = settle p (Fulfilled None) w.
Proof. by destruct o. Qed.

(** A message on the socket that answers the pending request [id]. *)
Lemma ws_answer k t w m id (p : promise) o :
  (k <? nextSocket w)%nat = true →
  JSON_parse rt t = Some m → Js.get (Some m) "id" = inr (Some (JNum id)) →
  response_outcome (Some m) = o →
  pendingRequests (client w) !! id = Some p →
  handle rt (WsMessage k t) w
  = settle p o (unregister id (appendLine ("<- " +:+ t) w)).
Proof.
  intros Hk Hp Hid Ho Hpend. cbn [handle]. rewrite Hk. unfold on_ws_message, receive.
  rewrite Hp. unfold handleMessage. rewrite Hid. cbn [map_key].
  cbn [client appendLine effect Upd.trace_ Upd.client_ pendingRequests].
  by rewrite Hpend, Ho.
Qed.

Lemma http_end_parsed (q : promise) body m w :
  posted q w = true → JSON_parse rt body = Some m →
  handle rt (HttpEnd q body) w = settle q (Fulfilled (Some m)) w.
Proof. intros Hq Hp. cbn [handle]. rewrite Hq. unfold on_http_end. by rewrite Hp. Qed.

Lemma http_end_any (q : promise) body w :
  posted q w = true →
  handle rt (HttpEnd q body) w = settle q (http_body_outcome rt body) w.
Proof.
  intros Hq. cbn [handle]. rewrite Hq. unfold on_http_end, http_body_outcome.
  by destruct (JSON_parse rt body).
Qed.

Lemma http_error_any (q : promise) err w :
  posted q w = true → handle rt (HttpError q err) w = settle q (Rejected err) w.
Proof. intros Hq. cbn [handle]. by rewrite Hq. Qed.

Ltac crunch :=
  lazy -[String.append join union Placeholder.resolveEnvPlaceholders
         Placeholder.resolvePlaceholders response_outcome connected_line discovered_line
         Js.get then_response http_body_outcome pretty handleData drain
         JSON_parse JSON_stringify URL_valid host workspaceFolder0 process_env
         lookup insert delete empty map_insert map_delete map_union gmap_merge
         gmap_partial_alter gmap_empty gmap_lookup
         numbers.Nat.eq_dec nat_countable numbers.Z.eq_dec Z_countable
         String.eq_dec String.countable].

Ltac maps :=
  repeat first
    [ rewrite lookup_insert_eq
    | rewrite lookup_insert_ne by (first [lia|done])
    | rewrite lookup_empty
    | rewrite lookup_delete_eq
    | rewrite lookup_delete_ne by (first [lia|done])
    | match goal with H : URL_valid rt _ = _ |- _ => rewrite H end
    | match goal with H : Placeholder.resolvePlaceholders _ _ _ = _ |- _ => rewrite H end ].

Ltac norm := crunch; repeat (progress maps; crunch).

(** Normalize the world under [drain], then run the promise jobs one at a
    time. *)
Ltac settle_jobs :=
  repeat (eapply eq_trans; [apply (f_equal (drain rt)); norm; reflexivity|];
          first [ eapply eq_trans; [apply drain_idle; reflexivity|]
                | eapply eq_trans; [eapply drain_step; reflexivity|];
                  first [ eapply eq_trans; [apply (f_equal (drain rt));
                                   first [ eapply job_initialize_ok; eassumption
                                         | eapply job_discover_ok; eassumption
                                         | eapply job_then_ok; eassumption
                                         | apply job_notified ]|]
                        | cbn [run_job] ] ]);
  reflexivity.

Ltac answer Hn Hb Hp Hid Ho :=
  eapply eq_trans; [apply (f_equal (drain rt)); eapply stdout_answer;
             [reflexivity|exact Hn|exact Hb|exact Hp|exact Hid|exact Ho|norm; reflexivity]|].

Ltac ws_message Hp Hid Ho :=
  eapply eq_trans; [apply (f_equal (drain rt)); eapply ws_answer;
             [reflexivity|exact Hp|exact Hid|exact Ho|norm; reflexivity]|].

Ltac http_response lem :=
  eapply eq_trans; [apply (f_equal (drain rt)); eapply lem;
             [norm; reflexivity|try eassumption..]|].

(** X10. The handshake over stdio, end to end.  When the server answers
    request 1 and then request 2 on a line each, and the answers have the
    members the log lines read, [start()] is fulfilled, [serverInfo] is
    the result of [initialize], [tools] is the [tools] member of the
    result of [tools/list], no request is left pending, and the child
    has been written exactly three lines: the [initialize] request, the
    [notifications/initialized] notification, the [tools/list] request. *)
Theorem stdio_handshake_completes nm cfg (t1 t2 : string) (info result ts : jsval) :
  transport (client (new_McpClient nm cfg)) = "stdio" →
  falsy (cfg_command cfg) = false →
  is_line t1 → answers rt t1 1 info → (∃ line, connected_line info = inr line) →
  is_line t2 → answers rt t2 2 result → Js.get result "tools" = inr ts →
  (∃ line, discovered_line ts = inr line) →
  let w0 := new_McpClient nm cfg in
  let w := run rt [CallStart true; StdoutData (t1 +:+ newline); StdoutData (t2 +:+ newline)] w0 in
  snd (start rt true w0) = 0
  ∧ settled w !! 0 = Some (Fulfilled None)
  ∧ serverInfo (client w) = info
  ∧ tools (client w) = ts
  ∧ pendingRequests (client w) = ∅
  ∧ stdin_writes (trace w)
    = [JSON_stringify rt (jsonrpc_request 1 "initialize" initialize_params) +:+ newline;
       JSON_stringify rt (jsonrpc_notification "notifications/initialized" (JObj [])) +:+ newline;
       JSON_stringify rt (jsonrpc_request 2 "tools/list" (JObj [])) +:+ newline].
Proof.
  intros Ht Hcmd [Hn1 Hb1] (m1 & Hp1 & Hid1 & Ho1) [line1 Hl1]
         [Hn2 Hb2] (m2 & Hp2 & Hid2 & Ho2) Htools [line2 Hl2] w0 w.
  apply response_id_get in Hid1, Hid2.
  destruct cfg as [ty cmd args env url hdrs].
  destruct cmd as [[|c0 cmd]|]; try done.
  assert (ty = None ∨ ty = Some "" ∨ ty = Some "stdio") as Hty.
  { unfold transport in Ht. simpl in Ht. destruct ty as [[|c s]|]; auto.
    right; right. cbv in Ht. by rewrite Ht. }
  clear Ht Hcmd.
  destruct Hty as [->|[->| ->]].
  all: eassert (w = _) as E;
    [ subst w w0;
      eapply run_cons; [apply dispatch_drain; cbn [handle]; settle_jobs|];
      eapply run_cons; [apply dispatch_drain; answer Hn1 Hb1 Hp1 Hid1 Ho1; settle_jobs|];
      eapply run_cons; [apply dispatch_drain; answer Hn2 Hb2 Hp2 Hid2 Ho2; settle_jobs|];
      apply run_nil
    | rewrite E; clear E; subst w0;
      split; [norm; reflexivity|]; norm; repeat split; vm_compute; reflexivity ].
Qed.


(** X12. The handshake over http.  Each message is a POST of its own to
    the resolved URL; the result is read from the response to that POST.
    The response to the notification does not matter: whatever its body,
    or if the POST fails, the handshake goes on.  [start()] is fulfilled
    once the response to [tools/list] has arrived. *)
Theorem http_handshake_completes nm cfg (url body1 body3 : string) (b : bool)
    (notified : Event) (info result ts : jsval) :
  let target := Placeholder.resolvePlaceholders (host rt) url (workspaceFolder0 (host rt)) in
  cfg_type cfg = Some "http" → cfg_url cfg = Some url → url ≠ "" →
  target ≠ "" → URL_valid rt target = true →
  replies rt body1 info → (∃ line, connected_line info = inr line) →
  ((∃ body, notified = HttpEnd 4 body) ∨ (∃ err, notified = HttpError 4 err)) →
  replies rt body3 result → Js.get result "tools" = inr ts →
  (∃ line, discovered_line ts = inr line) →
  let w0 := new_McpClient nm cfg in
  let w := run rt [CallStart b; HttpEnd 1 body1; notified; HttpEnd 5 body3] w0 in
  snd (start rt b w0) = 0
  ∧ settled w !! 0 = Some (Fulfilled None)
  ∧ serverInfo (client w) = info
  ∧ tools (client w) = ts
  ∧ pendingRequests (client w) = ∅
  ∧ http_posts (trace w)
    = [(1, target, JSON_stringify rt (jsonrpc_request 1 "initialize" initialize_params));
       (4, target,
        JSON_stringify rt (jsonrpc_notification "notifications/initialized" (JObj [])));
       (5, target, JSON_stringify rt (jsonrpc_request 2 "tools/list" (JObj [])))].
Proof.
  intros target Hty Hurl Hne Htarget Hvalid (m1 & Hp1 & Ho1) [line1 Hl1] Hnot
         (m3 & Hp3 & Ho3) Htools [line2 Hl2] w0 w.
  destruct cfg as [ty cmd args env u hdrs]. simpl in Hty, Hurl. subst ty u.
  destruct url as [|c0 url]; [done|]. clear Hne.
  subst target.
  destruct (Placeholder.resolvePlaceholders (host rt) (String c0 url)
              (workspaceFolder0 (host rt))) as [|c1 target] eqn:Htgt; [done|].
  clear Htarget.
  destruct Hnot as [[body2 ->]|[err ->]].
  all: eassert (w = _) as E;
    [ subst w w0;
      eapply run_cons; [apply dispatch_drain; cbn [handle]; settle_jobs|];
      eapply run_cons; [apply dispatch_drain; http_response http_end_parsed; settle_jobs|];
      eapply run_cons;
        [apply dispatch_drain;
         first [http_response http_end_any|http_response http_error_any]; settle_jobs|];
      eapply run_cons; [apply dispatch_drain; http_response http_end_parsed; settle_jobs|];
      apply run_nil
    | rewrite E; clear E; subst w0;
      split; [norm; reflexivity|]; norm; repeat split; vm_compute; reflexivity ].
Qed.

(** X13. [start()] over http with a URL that cannot be used.  A URL that
    resolves to the empty string is stored, and [start()] is rejected
    with [HTTP transport not configured] before any request id is
    allocated; a URL that the [URL] constructor refuses rejects
    [start()] with its [TypeError] after request id 1 has been allocated.
    In both cases nothing is posted. *)
Theorem http_start_rejects_bad_url nm cfg (url : string) (b : bool) :
  let target := Placeholder.resolvePlaceholders (host rt) url (workspaceFolder0 (host rt)) in
  let w0 := new_McpClient nm cfg in
  let w := dispatch rt (CallStart b) w0 in
  cfg_type cfg = Some "http" → cfg_url cfg = Some url → url ≠ "" →
  snd (start rt b w0) = 0
  ∧ httpUrl (client w) = Some target
  ∧ (target = "" →
     settled w !! 0 = Some (Rejected (MkError "HTTP transport not configured"))
     ∧ requestId (client w) = 0%Z
     ∧ http_posts (trace w) = [])
  ∧ (target ≠ "" → URL_valid rt target = false →
     settled w !! 0 = Some (Rejected (TypeError "Invalid URL"))
     ∧ requestId (client w) = 1%Z
     ∧ http_posts (trace w) = []).
Proof.
  intros target w0 w Hty Hurl Hne.
  destruct cfg as [ty cmd args env u hdrs]. simpl in Hty, Hurl. subst ty u.
  destruct url as [|c0 url]; [done|]. clear Hne.
  subst w w0 target.
  destruct (Placeholder.resolvePlaceholders (host rt) (String c0 url)
              (workspaceFolder0 (host rt))) as [|c1 target] eqn:Htgt;
    [|destruct (URL_valid rt (String c1 target)) eqn:Hv].
  all: match goal with |- context [dispatch rt ?e ?v] =>
         eassert (dispatch rt e v = _) as E end;
    [ apply dispatch_drain; cbn [handle]; settle_jobs
    | rewrite E; clear E; split; [norm; reflexivity|]; norm;
      repeat split; try done; intros; vm_compute; reflexivity ].
Qed.

End HandshakeFacts.
End HandshakeFacts.

(** ** Chunks of the output stream *)

Module ChunkFacts.
Import JsString JsStringFacts EvolveFacts JobFacts Claims.
Section ChunkFacts.
Context (rt : Runtime).

Lemma settle_set_buffer (p : promise) o b w :
  settle p o (Upd.client_ (Upd.buffer_ b) w) = Upd.client_ (Upd.buffer_ b) (settle p o w).
Proof.
  unfold settle. cbn [settled awaiting Upd.client_ effect Upd.settled_ Upd.trace_].
  destruct (settled w !! p); [done|]. by destruct (awaiting w !! p).
Qed.

Lemma receive_set_buffer f t b w :
  receive rt f t (Upd.client_ (Upd.buffer_ b) w) = Upd.client_ (Upd.buffer_ b) (receive rt f t w).
Proof.
  unfold receive, handleMessage. destruct (JSON_parse rt t) as [m|]; [|done].
  destruct (Js.get (Some m) "id") as [?|[id|]]; [done| |done].
  destruct (map_key id) as [key|]; [|done].
  cbn [client appendLine effect Upd.trace_ Upd.client_ Upd.buffer_ pendingRequests].
  destruct (pendingRequests (client w) !! key) as [p|]; [|done].
  by rewrite <- settle_set_buffer.
Qed.

Lemma handleLines_set_buffer b ls : ∀ w,
  foldl (λ w line, handleLine rt line w) (Upd.client_ (Upd.buffer_ b) w) ls
  = Upd.client_ (Upd.buffer_ b) (foldl (λ w line, handleLine rt line w) w ls).
Proof.
  induction ls as [|l ls IH]; intros w; [done|]. cbn [foldl]. rewrite <- IH. f_equal.
  unfold handleLine. destruct (truthy (trim l)); [apply receive_set_buffer|done].
Qed.

Lemma unframe_app frames1 rest1 data frames2 rest2 :
  rest1 +:+ data = unframe frames2 rest2 →
  unframe frames1 rest1 +:+ data = unframe (frames1 ++ frames2) rest2.
Proof.
  intros H. induction frames1 as [|f fs IH]; [done|]. simpl.
  rewrite JsStringFacts.app_assoc, app_cons. by rewrite IH.
Qed.

Lemma handleData_unframe data w frames rest :
  buffer (client w) +:+ data = unframe frames rest →
  Forall (λ f, no_newline f = true) frames → no_newline rest = true →
  handleData rt data w
  = foldl (λ w line, handleLine rt line w) (Upd.client_ (Upd.buffer_ rest) w) frames.
Proof.
  intros Hs Hf Hr. unfold handleData. cbn [client Upd.client_ buffer Upd.buffer_].
  rewrite Hs, split_unframe, pop_snoc, or_empty_Some by done. by rewrite set_buffer_twice.
Qed.


End ChunkFacts.
End ChunkFacts.

(** ** More on placeholders *)

Module PlaceholderMore.
Import JsString Placeholder Template JsStringFacts PlaceholderFacts.

Lemma span_name_mentions s n c r :
  span_name s = (n, String c r) → mentions "}" s = true.
Proof.
  revert n. induction s as [|d s IH]; intros n; simpl; [done|].
  destruct (Ascii.eqb d "}"); [done|].
  destruct (span_name s) as [n' r'] eqn:E. intros [= <- ->]. simpl. by eapply IH.
Qed.

Lemma match_here_mentions s x :
  match_here s = Some x → mentions "$" s = true ∧ mentions "}" s = true.
Proof.
  unfold match_here. destruct s as [|c s]; [done|].
  destruct (Ascii.eqb_spec c "$") as [->|Hc]; [|by repeat case_match; simplify_eq].
  destruct s as [|d s]; [done|].
  destruct (Ascii.eqb_spec d "{") as [->|Hd]; [|by repeat case_match; simplify_eq].
  destruct (span_name s) as [n r] eqn:E. destruct n as [|a n]; [done|].
  destruct r as [|b r]; [done|]. intros _. split; [done|].
  simpl. by apply span_name_mentions in E.
Qed.

(** X15. A string without a dollar sign, or without a closing brace,
    holds no placeholder: the resolver returns it unchanged, whatever the
    host and the workspace folder. *)
Theorem resolvePlaceholders_without_token (h : Host) (workspaceFolder : option string)
    (value : string) :
  mentions "$" value = false ∨ mentions "}" value = false →
  resolvePlaceholders h value workspaceFolder = value.
Proof.
  unfold resolvePlaceholders. induction value as [|c s IH]; [done|]. intros Hm.
  rewrite replace_all_skip.
  - f_equal. apply IH. simpl in Hm.
    destruct Hm as [[_ ?]%orb_false_elim|[_ ?]%orb_false_elim]; auto.
  - destruct (match_here (String c s)) as [x|] eqn:E; [|done].
    apply match_here_mentions in E as [H1 H2]. rewrite H1, H2 in Hm. by destruct Hm.
Qed.

Lemma split_last (sep : ascii → bool) base :
  (∀ c, sep c = true → mentions c base = false) →
  ∀ dir c, sep c = true → last (split sep (dir +:+ String c base)) = Some base.
Proof.
  intros Hb.
  assert (split sep base = [base]) as Hbase.
  { clear -Hb. induction base as [|d base IH]; [done|]. simpl.
    destruct (sep d) eqn:Ed.
    - specialize (Hb d Ed). simpl in Hb. by rewrite Ascii.eqb_refl in Hb.
    - rewrite IH; [done|]. intros c Hc. specialize (Hb c Hc). simpl in Hb.
      by apply orb_false_elim in Hb as [_ ?]. }
  assert (∀ dir c, sep c = true →
    ∃ p ps, split sep (dir +:+ String c base) = p :: ps ++ [base]) as Hsplit.
  { induction dir as [|d dir IH]; intros c Hc.
    - rewrite app_nil_l. simpl. rewrite Hc, Hbase. by exists "", [].
    - rewrite app_cons. simpl. destruct (IH c Hc) as (p & ps & ->).
      destruct (sep d); [by exists "", (p :: ps)|by exists (String d p), ps]. }
  intros dir c Hc. destruct (Hsplit dir c Hc) as (p & ps & ->).
  by rewrite app_comm_cons, last_snoc.
Qed.

Lemma no_path_sep_mentions base :
  no_path_sep base = true → ∀ c, is_path_sep c = true → mentions c base = false.
Proof.
  induction base as [|d base IH]; [done|]. simpl. intros [Hd Hb]%andb_prop c Hc.
  rewrite (IH Hb c Hc), orb_false_r. apply negb_true_iff in Hd.
  destruct (Ascii.eqb_spec d c) as [->|]; [congruence|done].
Qed.

(** X16. [${workspaceFolderBasename}] resolves to what follows the last
    separator (slash or backslash) of the workspace folder: the whole
    folder when it has none, the empty string when it ends with one. *)
Theorem workspaceFolderBasename_is_last_segment (h : Host) (workspaceFolder : option string)
    (dir base : string) (sep : ascii) :
  let folder := or_empty (or_else workspaceFolder (workspaceFolder0 h)) in
  no_path_sep base = true →
  (folder = base ∨ (is_path_sep sep = true ∧ folder = dir +:+ String sep base)) →
  resolvePlaceholders h "${workspaceFolderBasename}" workspaceFolder = base.
Proof.
  intros folder Hb Hf. unfold resolvePlaceholders.
  rewrite (replace_all_match _ _ "workspaceFolderBasename" "") by done.
  rewrite replace_all_nil, app_nil_r. unfold resolve_match.
  change (startsWith "workspaceFolderBasename" "env:") with false.
  cbn [String.eqb Ascii.eqb Bool.eqb]. fold folder.
  destruct Hf as [Hf|[Hs Hf]]; rewrite Hf.
  - destruct base as [|c base]; [done|]. change (truthy (String c base)) with true.
    cbv iota. unfold pop. cbn [fst].
    assert (split is_path_sep (String c base) = [String c base]) as ->; [|done].
    clear -Hb. induction (String c base) as [|d s IH]; [done|]. simpl in *.
    apply andb_prop in Hb as [Hd Hb]. apply negb_true_iff in Hd. by rewrite Hd, IH.
  - assert (truthy (dir +:+ String sep base) = true) as ->.
    { by destruct dir. }
    unfold pop. cbn [fst]. rewrite split_last; [by destruct base|..|done].
    by apply no_path_sep_mentions.
Qed.

End PlaceholderMore.

(** ** Tool results *)

Module ToolResultFacts.
Import JsString ToolResult.

Lemma convert_contents_length items parts :
  convert_contents items = inr parts → length parts ≤ length items.
Proof.
  revert parts. induction items as [|c items IH]; intros parts; simpl.
  - by intros [= <-].
  - destruct (convert_content c) as [?|ps] eqn:Ec; [done|].
    destruct (convert_contents items) as [?|more]; [done|]. intros [= <-].
    rewrite length_app. specialize (IH _ eq_refl).
    assert (length ps ≤ 1); [|lia].
    unfold convert_content in Ec. repeat case_match; simplify_eq; simpl; lia.
Qed.

Lemma convertResult_nonempty result parts : convertResult result = inr parts → parts ≠ [].
Proof. unfold convertResult. intros H. repeat case_match; simplify_eq; done. Qed.

(** X17. When [convertResult] returns, the result has at least one part
    and at most one part per content item (one when there is no item);
    and it depends on the [content] member alone, so a result flagged
    [isError] is converted like any other. *)
Theorem convertResult_never_empty (result : jsval) (parts : list LanguageModelTextPart) :
  convertResult result = inr parts →
  parts ≠ []
  ∧ (∀ items, Js.get result "content" = inr (Some (JArr items)) →
       length parts ≤ max 1 (length items))
  ∧ (∀ result', Js.get result' "content" = Js.get result "content" →
       convertResult result' = inr parts).
Proof.
  intros H. split; [|split].
  - by eapply convertResult_nonempty.
  - intros items Hc. unfold convertResult in H. rewrite Hc in H. cbn [iterate] in H.
    destruct (convert_contents items) as [?|ps] eqn:E; [done|].
    apply convert_contents_length in E. destruct ps; simplify_eq; simpl in *; lia.
  - intros result' Hc. unfold convertResult in *. by rewrite Hc.
Qed.

Lemma convert_contents_text texts :
  convert_contents (text_item <$> texts) = inr ((λ t, TextPart (Some (JStr t))) <$> texts).
Proof.
  induction texts as [|t texts IH]; [done|]. rewrite !fmap_cons.
  cbn [convert_contents]. by rewrite IH.
Qed.

(** X18. Text items pass through [convertResult] unchanged and in order,
    whatever other members the result has. *)
Theorem convertResult_text (texts : list string) (others : list (string * json)) :
  texts ≠ [] →
  convertResult (Some (JObj (("content", JArr (text_item <$> texts)) :: others)))
  = inr ((λ t, TextPart (Some (JStr t))) <$> texts).
Proof.
  intros Hne. unfold convertResult. cbn [Js.get Js.field]. rewrite String.eqb_refl.
  cbn [iterate]. rewrite convert_contents_text. by destruct texts.
Qed.

(** X19. Whatever [callTool] ends in, [McpToolProvider.invoke] hands the
    language model a result with at least one part: a rejected call, and
    a result that [convertResult] cannot convert, both end as the single
    text [Error: <message>], which is also logged; nothing is logged
    otherwise. *)
Theorem invoke_never_fails (client_name : string) (o : Outcome) :
  snd (invoke_result client_name o) ≠ []
  ∧ (∀ err, o = Rejected err ∨ (∃ result, o = Fulfilled result ∧ convertResult result = inl err) →
       invoke_result client_name o
       = (["[" +:+ client_name +:+ "] Tool error: " +:+ message err],
          [TextPart (Some (JStr ("Error: " +:+ message err)))]))
  ∧ (∀ result parts, o = Fulfilled result → convertResult result = inr parts →
       invoke_result client_name o = ([], parts)).
Proof.
  split; [|split].
  - unfold invoke_result. destruct o as [result|err]; [|done].
    destruct (convertResult result) as [?|parts] eqn:E; [done|].
    by apply convertResult_nonempty in E.
  - intros err [->|(result & -> & E)]; [done|]. unfold invoke_result. by rewrite E.
  - intros result parts -> E. unfold invoke_result. by rewrite E.
Qed.

Lemma convert_text_contents items :
  forallb plain_content items = true → convert_contents items = text_contents items.
Proof.
  induction items as [|c items IH]; [done|]. cbn [forallb].
  intros [Hc Hi]%andb_prop. cbn [convert_contents text_contents]. rewrite <- (IH Hi).
  unfold plain_content in Hc. unfold convert_content.
  destruct (Js.get (Some c) "type") as [?|type]; [done|].
  apply negb_true_iff, orb_false_elim in Hc as [-> ->].
  destruct (is_string type "text"); by destruct (convert_contents items).
Qed.

(** X20. On a content array without image and resource items the
    [mcp-call] tool and [McpToolProvider.convertResult] hand the same
    parts to the language model, and at least one. *)
Theorem mcp_call_agrees_on_plain_content (result : jsval) (items : list json) :
  Js.get result "content" = inr (Some (JArr items)) →
  forallb plain_content items = true →
  convertResult result = inr (mcp_call_result (Fulfilled result))
  ∧ mcp_call_result (Fulfilled result) ≠ [].
Proof.
  intros Hc Hp.
  assert (convertResult result = inr (mcp_call_result (Fulfilled result))) as H.
  { unfold convertResult, mcp_call_result. rewrite Hc. cbn [iterate].
    rewrite (convert_text_contents _ Hp).
    destruct (text_contents items) as [err|parts] eqn:E; [|by destruct parts].
    exfalso. clear Hc. induction items as [|c items IH]; [done|].
    cbn [forallb] in Hp. apply andb_prop in Hp as [Hc Hi]. cbn [text_contents] in E.
    unfold plain_content in Hc. destruct (Js.get (Some c) "type"); [done|].
    destruct (text_contents items); [by apply IH|done]. }
  split; [done|]. by apply convertResult_nonempty in H.
Qed.

End ToolResultFacts.

(** ** The tool registry *)

Module RegistryFacts.
Section RegistryFacts.
Context (lm_refuses : string → option Error).

Ltac rsimpl :=
  cbn [registry_log registry registeredTools disposables nextDisposable registry_trace
       fst snd] in *.

Lemma register_pass (c : McpClient) items : ∀ r,
  let r1 := fst (for_each (registerTool lm_refuses c) items r) in
  snd (for_each (registerTool lm_refuses c) items r) = first_throw c items
  ∧ (∀ tn, is_Some (registeredTools (registry r) !! tn) →
       registeredTools (registry r1) !! tn = registeredTools (registry r) !! tn)
  ∧ (∀ tn, tn ∉ names_before_throw c items →
       registeredTools (registry r1) !! tn = registeredTools (registry r) !! tn)
  ∧ (∀ tn, tn ∈ names_before_throw c items →
       is_Some (registeredTools (registry r1) !! tn) ∨ is_Some (lm_refuses tn))
  ∧ (∃ ds, disposables (registry r1) = disposables (registry r) ++ ds).
Proof.
  induction items as [|t items IH]; intros r.
  - simpl. repeat split; try done. { intros ? ?%elem_of_nil. done. }
    by exists []; rewrite app_nil_r.
  - cbn [for_each first_throw names_before_throw]. unfold registerTool.
    destruct (toolName c t) as [err|tn0] eqn:Et.
    { simpl. repeat split; try done. { intros ? ?%elem_of_nil. done. }
      by exists []; rewrite app_nil_r. }
    case_bool_decide as Hreg; [|destruct (lm_refuses tn0) as [err|] eqn:El].
    + destruct (IH (registry_log ("Tool " +:+ tn0 +:+ " already registered, skipping") r))
        as (H1 & H2 & H3 & H4 & H5). rsimpl.
      split; [done|]. split; [done|]. split; [|split; [|done]].
      * intros tn Hn. apply H3. intros Hin. apply Hn. by right.
      * intros tn [->|Hn]%elem_of_cons; [|by apply H4].
        left. by rewrite H2.
    + destruct (IH (registry_log ("Failed to register tool " +:+ tn0 +:+ ": "
                                  +:+ message err) r)) as (H1 & H2 & H3 & H4 & H5). rsimpl.
      split; [done|]. split; [done|]. split; [|split; [|done]].
      * intros tn Hn. apply H3. intros Hin. apply Hn. by right.
      * intros tn [->|Hn]%elem_of_cons; [|by apply H4]. right. by rewrite El.
    + match goal with |- context [for_each _ items ?r'] =>
        destruct (IH r') as (H1 & H2 & H3 & H4 & [ds H5]) end. rsimpl.
      assert (registeredTools (registry r) !! tn0 = None) as Hnone.
      { destruct (registeredTools (registry r) !! tn0) eqn:E; [|done]. destruct Hreg. by eexists. }
      split; [done|]. split; [|split; [|split]].
      * intros tn Hn.
        assert (tn ≠ tn0) as Hne by (intros ->; rewrite Hnone in Hn; by destruct Hn).
        rewrite H2; rewrite lookup_insert_ne; done.
      * intros tn Hn. rewrite H3 by (intros Hin; apply Hn; by right).
        rewrite lookup_insert_ne; [done|]. intros <-. apply Hn. by left.
      * intros tn [->|Hn]%elem_of_cons; [|by apply H4].
        left. rewrite H2; rewrite lookup_insert_eq; by eexists.
      * exists (nextDisposable r :: ds). rewrite <- app_assoc in H5. exact H5.
Qed.

Lemma register_again (c : McpClient) items : ∀ r,
  (∀ tn, tn ∈ names_before_throw c items →
     is_Some (registeredTools (registry r) !! tn) ∨ is_Some (lm_refuses tn)) →
  ∃ lines,
    for_each (registerTool lm_refuses c) items r
    = ({| registry := registry r; nextDisposable := nextDisposable r;
          registry_trace := registry_trace r ++ (RegistryLog <$> lines) |},
       first_throw c items).
Proof.
  induction items as [|t items IH]; intros r Hr.
  - exists []. simpl. rewrite app_nil_r. by destruct r.
  - cbn [for_each first_throw names_before_throw] in *. unfold registerTool.
    destruct (toolName c t) as [err|tn0] eqn:Et.
    { exists []. simpl. rewrite app_nil_r. by destruct r. }
    assert (∀ line, ∃ lines,
      for_each (registerTool lm_refuses c) items (registry_log line r)
      = ({| registry := registry r; nextDisposable := nextDisposable r;
            registry_trace := registry_trace r ++ (RegistryLog <$> lines) |},
         first_throw c items)) as Hlog.
    { intros line. destruct (IH (registry_log line r)) as [lines Hl].
      { intros tn Hn. apply Hr. by right. }
      exists (line :: lines). rewrite Hl. cbn [registry_log registry nextDisposable
        registry_trace]. by rewrite <- app_assoc. }
    case_bool_decide as Hreg; [apply Hlog|].
    destruct (Hr tn0) as [?|[err Herr]]; [by left|done|].
    rewrite Herr. apply Hlog.
Qed.

(** X21. Registering a client's tools a second time registers nothing:
    the registry is as the first call left it, the same exception (if
    any) is thrown, and only log lines are written. *)
Theorem registerClientTools_idempotent (c : McpClient) (r : RegistryWorld) :
  let r1 := fst (registerClientTools lm_refuses c r) in
  let r2 := fst (registerClientTools lm_refuses c r1) in
  registry r2 = registry r1
  ∧ nextDisposable r2 = nextDisposable r1
  ∧ snd (registerClientTools lm_refuses c r1) = snd (registerClientTools lm_refuses c r)
  ∧ ∃ lines, registry_trace r2 = registry_trace r1 ++ (RegistryLog <$> lines).
Proof.
  unfold registerClientTools.
  destruct (ToolResult.iterate "client.tools" (tools c)) as [err|items].
  { simpl. repeat split. exists []. by rewrite app_nil_r. }
  destruct (register_pass c items r) as (H1 & _ & _ & H4 & _).
  destruct (register_again c items _ H4) as [lines Hl].
  rewrite Hl, H1. cbn [fst snd registry nextDisposable registry_trace]. eauto.
Qed.

Lemma names_before_throw_elem (c : McpClient) items tn :
  tn ∈ names_before_throw c items → ∃ t, t ∈ items ∧ toolName c t = inr tn.
Proof.
  induction items as [|t items IH]; cbn [names_before_throw]; [by intros ?%elem_of_nil|].
  destruct (toolName c t) as [err|tn0] eqn:Et; [by intros ?%elem_of_nil|].
  intros [->|Hn]%elem_of_cons.
  - exists t. split; [by left|done].
  - destruct (IH Hn) as (t' & Ht' & Hn'). exists t'. split; [by right|done].
Qed.

Lemma unregister_pass (c : McpClient) items : ∀ r,
  let r2 := fst (for_each (unregisterTool c) items r) in
  (∀ tn, registeredTools (registry r2) !! tn
         = if bool_decide (tn ∈ names_before_throw c items) then None
           else registeredTools (registry r) !! tn)
  ∧ disposables (registry r2) = disposables (registry r)
  ∧ nextDisposable r2 = nextDisposable r.
Proof.
  induction items as [|t items IH]; intros r.
  - cbn [for_each names_before_throw fst]. split; [|done]. intros tn.
    case_bool_decide as H; [by apply elem_of_nil in H|done].
  - cbn [for_each names_before_throw]. unfold unregisterTool.
    destruct (toolName c t) as [err|tn0] eqn:Et.
    { cbn [fst]. split; [|done]. intros tn.
      case_bool_decide as H; [by apply elem_of_nil in H|done]. }
    assert (∀ r',
      (∀ tn, tn ≠ tn0 →
         registeredTools (registry r') !! tn = registeredTools (registry r) !! tn) →
      registeredTools (registry r') !! tn0 = None →
      disposables (registry r') = disposables (registry r) →
      nextDisposable r' = nextDisposable r →
      (∀ tn, registeredTools (registry (for_each (unregisterTool c) items r').1) !! tn
             = if bool_decide (tn ∈ tn0 :: names_before_throw c items) then None
               else registeredTools (registry r) !! tn)
      ∧ disposables (registry (for_each (unregisterTool c) items r').1)
        = disposables (registry r)
      ∧ nextDisposable (for_each (unregisterTool c) items r').1 = nextDisposable r) as Hnext.
    { intros r' Hother Hgone Hd Hn. destruct (IH r') as (H1 & H2 & H3).
      split; [|by rewrite H2, H3]. intros tn. rewrite H1.
      destruct (decide (tn = tn0)) as [->|Hne].
      - rewrite (bool_decide_eq_true_2 (tn0 ∈ tn0 :: _)) by (by left).
        by case_bool_decide.
      - case_bool_decide as Hin.
        + rewrite bool_decide_eq_true_2; [done|by right].
        + rewrite bool_decide_eq_false_2; [by apply Hother|].
          by intros [?|?]%elem_of_cons. }
    destruct (registeredTools (registry r) !! tn0) as [d|] eqn:Ed.
    + apply Hnext; rsimpl; try done.
      * intros tn Hne. by rewrite lookup_delete_ne.
      * apply lookup_delete_eq.
    + by apply Hnext.
Qed.

(** X22. Unregistering a client's tools right after registering them
    restores the table of registered tools, when none of their names was
    taken before; but the disposables that the registration created stay
    in the list that [dispose()] walks. *)
Theorem unregister_undoes_register (c : McpClient) (r : RegistryWorld) (items : list json) :
  ToolResult.iterate "client.tools" (tools c) = inr items →
  (∀ t tn, t ∈ items → toolName c t = inr tn → registeredTools (registry r) !! tn = None) →
  let r1 := fst (registerClientTools lm_refuses c r) in
  let r2 := fst (unregisterClientTools c r1) in
  registeredTools (registry r2) = registeredTools (registry r)
  ∧ disposables (registry r2) = disposables (registry r1)
  ∧ ∃ ds, disposables (registry r1) = disposables (registry r) ++ ds.
Proof.
  intros Hit Hfresh. unfold registerClientTools, unregisterClientTools. rewrite Hit.
  destruct (register_pass c items r) as (_ & _ & H3 & _ & H5).
  destruct (unregister_pass c items (fst (for_each (registerTool lm_refuses c) items r)))
    as (U1 & U2 & _).
  cbv zeta. split; [|by split].
  apply map_eq. intros tn. rewrite U1. case_bool_decide as Hin.
  - destruct (names_before_throw_elem _ _ _ Hin) as (t & Ht & Hn).
    by rewrite (Hfresh t tn).
  - by apply H3.
Qed.

Lemma registerTool_ok (c : McpClient) t r :
  registry_ok r → registry_ok (fst (registerTool lm_refuses c t r)).
Proof.
  intros [Ht Hf Hn Hi]. unfold registerTool.
  destruct (toolName c t) as [err|tn0]; [done|].
  case_bool_decide as Hreg; [done|]. destruct (lm_refuses tn0); [done|].
  assert (registeredTools (registry r) !! tn0 = None) as Hnone.
  { destruct (registeredTools (registry r) !! tn0) eqn:E; [|done]. destruct Hreg. by eexists. }
  assert (nextDisposable r ∉ disposables (registry r)) as Hnew.
  { intros Hin. rewrite Forall_forall in Hf. apply Hf in Hin. lia. }
  split; rsimpl.
  - intros tn d. rewrite lookup_insert. case_decide as Hd.
    + intros [= <-]. apply elem_of_app. right. by left.
    + intros H. apply elem_of_app. left. by eapply Ht.
  - apply Forall_app. split; [|by repeat constructor].
    eapply Forall_impl; [exact Hf|]. intros; simpl in *; lia.
  - apply NoDup_app. split; [done|]. split; [|apply NoDup_singleton].
    intros d Hd [->|[]%elem_of_nil]%elem_of_cons. done.
  - intros a b d. rewrite !lookup_insert. repeat case_decide; subst; intros Ha Hb;
      simplify_eq; try done.
    + destruct Hnew. by eapply Ht.
    + destruct Hnew. by eapply Ht.
    + by eapply Hi.
Qed.

Lemma unregisterTool_ok (c : McpClient) t r :
  registry_ok r → registry_ok (fst (unregisterTool c t r)).
Proof.
  intros [Ht Hf Hn Hi]. unfold unregisterTool.
  destruct (toolName c t) as [err|tn0]; [done|].
  destruct (registeredTools (registry r) !! tn0) as [d0|] eqn:E; [|done].
  split; rsimpl; try done.
  - intros tn d [_ H]%lookup_delete_Some. by eapply Ht.
  - intros a b d [_ Ha]%lookup_delete_Some [_ Hb]%lookup_delete_Some. by eapply Hi.
Qed.

Lemma for_each_ok body items : ∀ r,
  (∀ t r, registry_ok r → registry_ok (fst (body t r))) →
  registry_ok r → registry_ok (fst (for_each body items r)).
Proof.
  induction items as [|t items IH]; intros r Hb Hr; [done|]. cbn [for_each].
  pose proof (Hb t r Hr) as H. destruct (body t r) as [r' [err|]]; [done|].
  by apply IH.
Qed.

(** X23. Whatever calls the registry receives, every registered tool's
    disposable is in the list that [dispose()] walks, no disposable is
    listed twice, and no two tool names share one. *)
Theorem registry_tracks_disposables (calls : list RegistryCall) :
  registry_ok (registry_run lm_refuses calls new_ToolRegistry).
Proof.
  assert (registry_ok new_ToolRegistry) as H0.
  { split; simpl; try done; first [by constructor|by apply NoDup_nil]. }
  revert H0. generalize new_ToolRegistry.
  induction calls as [|call calls IH]; intros r Hr; [done|]. cbn [registry_run foldl].
  apply IH. destruct call as [c|c|]; cbn [registry_call].
  - unfold registerClientTools. destruct (ToolResult.iterate _ _); [done|].
    apply for_each_ok; [|done]. intros. by apply registerTool_ok.
  - unfold unregisterClientTools. destruct (ToolResult.iterate _ _); [done|].
    apply for_each_ok; [|done]. intros. by apply unregisterTool_ok.
  - split; simpl; try done; first [by constructor|by apply NoDup_nil].
Qed.

End RegistryFacts.
End RegistryFacts.

Module RegistryAndClient.
Import JsString EvolveFacts JobFacts Claims.
Section RegistryAndClient.
Context (rt : Runtime).

(** X24. [stop()] empties the client's tool list, so unregistering the
    tools of a client after stopping it unregisters nothing: the registry
    and its log are untouched. *)
Theorem unregisterClientTools_after_stop nm cfg (events : list Event) (r : RegistryWorld) :
  let w := run rt events (new_McpClient nm cfg) in
  unregisterClientTools (client (fst (stop w))) r = (r, None).
Proof.
  intros w. destruct (stop_effects w (wf_reachable rt nm cfg events)) as (_ & Ht & _).
  unfold unregisterClientTools. by rewrite Ht.
Qed.

End RegistryAndClient.
End RegistryAndClient.

(** ** The [mcp-call] tool *)

Module McpCallFacts.
Import JsString EvolveFacts JobFacts Claims.
Section McpCallFacts.
Context (rt : Runtime).

(** X25. [mcp-call] forwards a call only to a client that holds a child
    process: a server that is not in the map, or whose client holds no
    process, gets an error text and no request is made.  A client of the
    websocket or http transport never holds one, so every call to it is
    answered [is not connected]. *)
Theorem mcp_call_needs_a_process (mcpClients : list (string * World)) (server tool : string)
    (args : jsval) :
  let returned := snd (mcp_call_invoke rt mcpClients server tool args) in
  let not_connected_text :=
    [TextPart (Some (JStr ("Error: MCP server '" +:+ server +:+ "' is not connected")))] in
  (clients_get server mcpClients = None →
     ∃ text, returned = inl [TextPart (Some (JStr text))])
  ∧ (∀ w, clients_get server mcpClients = Some w → process (client w) = None →
       returned = inl not_connected_text)
  ∧ (∀ w, clients_get server mcpClients = Some w → isConnected (client w) = true →
       ∃ a, returned = inr (callTool rt tool a w)
            ∧ (Js.truthy args = true → args = Some a)
            ∧ (Js.truthy args = false → a = JObj []))
  ∧ (∀ nm cfg events,
       transport (client (new_McpClient nm cfg)) ≠ "stdio" →
       clients_get server mcpClients = Some (run rt events (new_McpClient nm cfg)) →
       returned = inl not_connected_text).
Proof.
  intros returned not_connected_text.
  assert (∀ w, clients_get server mcpClients = Some w → process (client w) = None →
            returned = inl not_connected_text) as Hoff.
  { intros w Hw Hp. subst returned. unfold mcp_call_invoke, isConnected. cbn [snd].
    by rewrite Hw, Hp. }
  split; [|split; [exact Hoff|split]].
  - intros Hw. subst returned. unfold mcp_call_invoke. cbn [snd]. rewrite Hw. eauto.
  - intros w Hw Hc. subst returned. unfold mcp_call_invoke. cbn [snd]. rewrite Hw, Hc.
    eexists. split; [done|].
    destruct args as [a|]; [|done]. simpl default. destruct (Js.truthy (Some a)); done.
  - intros nm cfg events Ht Hw. apply (Hoff _ Hw).
    destruct (evolves_from_new rt nm cfg events) as [_ _ _ _ _ _ _ _ Hproc _ _].
    by apply Hproc.
Qed.

End McpCallFacts.
End McpCallFacts.

(** ** Configuration files *)

Module ExtensionFacts.
Import JsString Extension JsStringFacts.

Lemma strip_slashes_suffix s : ∃ pre, s = pre +:+ strip_slashes s.
Proof.
  induction s as [|c s [pre IH]]; [by exists ""|].
  simpl. destruct (Ascii.eqb_spec c "/") as [->|Hc].
  - exists (String "/" pre). simpl. by rewrite app_cons, <- IH.
  - exists "". by repeat case_match.
Qed.

Lemma strip_slashes_head s c r : strip_slashes s = String c r → c ≠ "/"%char.
Proof.
  induction s as [|a s IH]; [done|]. simpl.
  destruct (Ascii.eqb_spec a "/") as [->|Ha]; [exact IH|].
  repeat case_match; intros; simplify_eq; done.
Qed.

Lemma startsWith_slash c r : startsWith (String c r) "/" = Ascii.eqb "/" c.
Proof.
  unfold startsWith. cbn [strip_prefix].
  destruct (Ascii.eqb "/" c);
    [apply bool_decide_eq_true; by eexists|apply bool_decide_eq_false; by intros [? ?]].
Qed.

Lemma strip_slashes_id s : startsWith s "/" = false → strip_slashes s = s.
Proof.
  destruct s as [|c s]; [done|]. rewrite startsWith_slash.
  destruct (Ascii.eqb_spec "/" c) as [<-|Hc]; [done|]. intros _. simpl.
  by repeat case_match.
Qed.

Lemma strip_prefix_app p s r : strip_prefix p s = Some r → s = p +:+ r.
Proof.
  revert s. induction p as [|a p IH]; intros s; simpl; [by intros [= ->]|].
  destruct s as [|b s]; [done|]. destruct (Ascii.eqb_spec a b) as [->|]; [|done].
  intros H. by rewrite (IH _ H).
Qed.

Lemma substring_from_app p r : substring_from (String.length p) (p +:+ r) = r.
Proof. induction p; simpl; done. Qed.

(** X26. The normalized path is the end of the trimmed input, it does
    not start with a slash, and a trimmed input that starts neither with
    [./] nor with a slash is kept as it is. *)
Theorem normalizeRelativeConfigPath_relative (configFile : string) :
  (∃ pre, trim configFile = pre +:+ normalizeRelativeConfigPath configFile)
  ∧ startsWith (normalizeRelativeConfigPath configFile) "/" = false
  ∧ (startsWith (trim configFile) "./" = false → startsWith (trim configFile) "/" = false →
     normalizeRelativeConfigPath configFile = trim configFile).
Proof.
  unfold normalizeRelativeConfigPath. split; [|split].
  - unfold startsWith. case_bool_decide as Hp.
    + destruct Hp as [r Hr]. pose proof (strip_prefix_app _ _ _ Hr) as Ht.
      rewrite Ht. change 2 with (String.length "./"). rewrite substring_from_app.
      destruct (strip_slashes_suffix r) as [pre Hpre].
      exists ("./" +:+ pre). rewrite JsStringFacts.app_assoc. by rewrite <- Hpre.
    + apply strip_slashes_suffix.
  - match goal with |- startsWith (strip_slashes ?x) _ = _ =>
      destruct (strip_slashes x) as [|c r] eqn:E end; [done|].
    apply strip_slashes_head in E. rewrite startsWith_slash.
    by destruct (Ascii.eqb_spec "/" c) as [<-|].
  - intros -> H. by apply strip_slashes_id.
Qed.

Lemma strip_line_comments_no_opener s :
  no_opener s = true → strip_line_comments_from false s = s.
Proof.
  induction s as [|c s IH]; [done|]. cbn [no_opener strip_line_comments_from].
  intros [Hc Hs]%andb_prop. rewrite (IH Hs).
  destruct (Ascii.eqb_spec c "/") as [->|Hc'].
  - destruct s as [|d s]; [done|]. simpl in Hc.
    destruct (Ascii.eqb_spec d "/") as [->|Hd]; [done|].
    destruct d as [[] [] [] [] [] [] [] []]; done.
  - destruct c as [[] [] [] [] [] [] [] []]; try done; by destruct s.
Qed.

Lemma strip_block_comments_no_opener n : ∀ s,
  no_opener s = true → strip_block_comments_go n s = s.
Proof.
  induction n as [|n IH]; intros s; [done|].
  destruct s as [|c s]; [done|]. cbn [no_opener strip_block_comments_go].
  intros [Hc Hs]%andb_prop. rewrite (IH _ Hs).
  destruct (Ascii.eqb_spec c "/") as [->|Hc'].
  - destruct s as [|d s]; [done|]. simpl in Hc.
    destruct (Ascii.eqb_spec d "*") as [->|Hd]; [by rewrite orb_true_r in Hc|].
    destruct d as [[] [] [] [] [] [] [] []]; done.
  - destruct c as [[] [] [] [] [] [] [] []]; try done; by destruct s.
Qed.

Lemma no_slash_no_opener s : no_slash s = true → no_opener s = true.
Proof.
  induction s as [|c s IH]; [done|]. simpl. intros [Hc Hs]%andb_prop.
  rewrite (IH Hs), andb_true_r. apply negb_true_iff in Hc. by rewrite Hc.
Qed.

Lemma skip_comment mid : ∀ rest,
  one_line mid = true →
  (rest = "" ∨ ∃ c r, rest = String c r ∧ is_line_terminator c = true) →
  strip_line_comments_from true (mid +:+ rest) = strip_line_comments_from false rest.
Proof.
  induction mid as [|c mid IH]; intros rest Hm Hr.
  - rewrite app_nil_l. destruct Hr as [->|(c & r & -> & Hc)]; [done|].
    cbn [strip_line_comments_from]. rewrite Hc.
    destruct c as [[] [] [] [] [] [] [] []]; try done; by destruct r.
  - rewrite app_cons. cbn [strip_line_comments_from one_line] in *.
    apply andb_prop in Hm as [Hc Hm]. apply negb_true_iff in Hc. rewrite Hc. by apply IH.
Qed.

Lemma strip_line_comments_prefix pre : ∀ s,
  no_slash pre = true →
  strip_line_comments_from false (pre +:+ String "/" (String "/" s))
  = pre +:+ strip_line_comments_from true s.
Proof.
  induction pre as [|c pre IH]; intros s; [done|].
  cbn [no_slash]. intros [Hc Hp]%andb_prop. rewrite !app_cons.
  cbn [strip_line_comments_from]. rewrite (IH _ Hp).
  destruct c as [[] [] [] [] [] [] [] []]; try done.
Qed.

(** X27. Comment removal before [JSON.parse]: a text in which no slash
    is followed by a slash or a star is handed over unchanged; a line is
    cut at its first double slash, wherever that is (also inside a JSON
    string, such as a URL), up to the end of the line. *)
Theorem jsonContent_cuts_at_double_slash :
  (∀ content, no_opener content = true → jsonContent content = content)
  ∧ (∀ pre mid rest,
       no_slash pre = true → one_line mid = true →
       (rest = "" ∨ ∃ c r, rest = String c r ∧ is_line_terminator c = true) →
       strip_line_comments (pre +:+ "//" +:+ mid +:+ rest)
       = pre +:+ strip_line_comments rest)
  ∧ (∀ pre mid,
       no_slash pre = true → one_line mid = true →
       jsonContent (pre +:+ "//" +:+ mid) = pre).
Proof.
  assert (∀ pre mid rest,
       no_slash pre = true → one_line mid = true →
       (rest = "" ∨ ∃ c r, rest = String c r ∧ is_line_terminator c = true) →
       strip_line_comments (pre +:+ "//" +:+ mid +:+ rest)
       = pre +:+ strip_line_comments rest) as Hcut.
  { intros pre mid rest Hp Hm Hr. unfold strip_line_comments.
    change ("//" +:+ mid +:+ rest) with (String "/" (String "/" (mid +:+ rest))).
    rewrite strip_line_comments_prefix by done. by rewrite skip_comment. }
  split; [|split; [exact Hcut|]].
  - intros content H. unfold jsonContent, strip_line_comments, strip_block_comments.
    rewrite strip_line_comments_no_opener by done.
    by apply strip_block_comments_no_opener.
  - intros pre mid Hp Hm. unfold jsonContent.
    pose proof (Hcut pre mid "" Hp Hm (or_introl eq_refl)) as H.
    rewrite app_nil_r in H. rewrite H. unfold strip_line_comments. simpl.
    rewrite app_nil_r. unfold strip_block_comments.
    apply strip_block_comments_no_opener. by apply no_slash_no_opener.
Qed.

Lemma after_close_shorter body : ∀ rest,
  after_close body = Some rest → String.length rest < String.length body.
Proof.
  induction body as [|c body IH]; intros rest; [done|]. cbn [after_close].
  assert (after_close body = Some rest → String.length rest < String.length (String c body))
    as Hrec by (intros H%IH; simpl; lia).
  destruct c as [[] [] [] [] [] [] [] []]; try exact Hrec.
  destruct body as [|d body]; [done|].
  destruct d as [[] [] [] [] [] [] [] []]; try exact Hrec.
  intros [= ->]. simpl. lia.
Qed.

(** The fuel of [strip_block_comments] is enough: more changes nothing. *)
Lemma strip_block_comments_go_enough n : ∀ m s,
  String.length s ≤ n → String.length s ≤ m →
  strip_block_comments_go n s = strip_block_comments_go m s.
Proof.
  induction n as [|n IH]; intros m s Hn Hm.
  - destruct s; [|simpl in Hn; lia]. by destruct m.
  - destruct m as [|m]; [destruct s; [done|simpl in Hm; lia]|].
    destruct s as [|c s]; [done|]. cbn [strip_block_comments_go].
    simpl in Hn, Hm.
    assert (strip_block_comments_go n s = strip_block_comments_go m s) as Hs
      by (apply IH; lia).
    destruct c as [[] [] [] [] [] [] [] []]; try (by rewrite Hs).
    destruct s as [|d body]; [by rewrite Hs|].
    destruct d as [[] [] [] [] [] [] [] []]; try (by rewrite Hs).
    destruct (after_close body) as [rest|] eqn:E; [|by rewrite Hs].
    apply after_close_shorter in E. simpl in Hn, Hm. apply IH; lia.
Qed.

Lemma after_close_found body : ∀ rest,
  no_close body = true → after_close (body +:+ "*/" +:+ rest) = Some rest.
Proof.
  induction body as [|c body IH]; intros rest; [done|].
  cbn [no_close]. intros [Hc Hb]%andb_prop. rewrite app_cons. cbn [after_close].
  rewrite (IH _ Hb).
  destruct c as [[] [] [] [] [] [] [] []]; try done.
  destruct body as [|d body]; [done|]. rewrite app_cons.
  destruct d as [[] [] [] [] [] [] [] []]; done.
Qed.

(** X28. A block comment goes with everything up to its first closing,
    line breaks included, and the scan resumes right after it. *)
Theorem strip_block_comments_removes_block (pre body rest : string) :
  no_slash pre = true → no_close body = true →
  strip_block_comments (pre +:+ "/*" +:+ body +:+ "*/" +:+ rest)
  = pre +:+ strip_block_comments rest.
Proof.
  intros Hp Hb. unfold strip_block_comments.
  assert (∀ n, String.length ("/*" +:+ body +:+ "*/" +:+ rest) ≤ n →
    strip_block_comments_go n ("/*" +:+ body +:+ "*/" +:+ rest)
    = strip_block_comments_go (String.length rest) rest) as Hblock.
  { intros n Hn. destruct n as [|n]; [simpl in Hn; lia|].
    change ("/*" +:+ body +:+ "*/" +:+ rest)
      with (String "/" (String "*" (body +:+ "*/" +:+ rest))).
    cbn [strip_block_comments_go]. rewrite after_close_found by done.
    apply strip_block_comments_go_enough; [|done].
    simpl in Hn. rewrite !length_app in Hn. simpl in Hn. lia. }
  induction pre as [|c pre IH].
  - rewrite !app_nil_l. by apply Hblock.
  - cbn [no_slash] in Hp. apply andb_prop in Hp as [Hc Hp]. rewrite !app_cons.
    cbn [String.length strip_block_comments_go]. rewrite <- (IH Hp).
    destruct c as [[] [] [] [] [] [] [] []]; done.
Qed.

End ExtensionFacts.

(** ** The properties above on sample sessions *)

Module MoreScenarios.
Import JsString Demo Samples Extension ToolResult.

(** A stdio configuration without a command is refused. *)
Lemma start_requires_transport_field_witness :
  let w := run rt0 [] (new_McpClient "demo" no_command) in
  process (client w) = None
  ∧ refused w (fst (start rt0 true w)) (snd (start rt0 true w))
      "stdio transport requires a `command` in server config".
Proof.
  intros w. assert (process (client w) = None) as Hp by (vm_compute; reflexivity).
  split; [exact Hp|].
  apply (proj1 (ClientFacts.start_requires_transport_field rt0 "demo" no_command [] true Hp));
    vm_compute; reflexivity.
Defined.

(** A second [start()] on a running stdio session. *)
Lemma start_while_running_is_noop_witness :
  let w := run rt0 [CallStart true] (new_McpClient "demo" stdio_config) in
  is_Some (process (client w))
  ∧ client (fst (start rt0 true w)) = client w.
Proof.
  intros w.
  assert (is_Some (process (client w))) as Hp by (vm_compute; eexists; reflexivity).
  split; [exact Hp|].
  exact (proj1 (proj2 (ClientFacts.start_while_running_is_noop rt0 "demo" stdio_config
                         [CallStart true] true Hp))).
Defined.


Example start_spawns_resolved_command_trace :
  stdin_writes (trace (fst (start rt0 true (new_McpClient "demo" stdio_config))))
  = [stringify (jsonrpc_request 1 "initialize" initialize_params) +:+ newline].
Proof. vm_compute. reflexivity. Qed.

(** A request on a session that was never started. *)
Lemma request_refused_when_not_connected_witness :
  let w := run rt0 [] (new_McpClient "demo" stdio_config) in
  let w1 := fst (sendRequest rt0 "tools/list" (JObj []) w) in
  (transport (client w) ≠ "http" ∧ connected w = false)
  ∧ settled w1 !! snd (sendRequest rt0 "tools/list" (JObj []) w)
    = Some (Rejected (not_connected (client w)))
  ∧ requestId (client w1) = (requestId (client w) + 1)%Z.
Proof.
  intros w w1.
  assert (transport (client w) ≠ "http") as Ht by (vm_compute; discriminate).
  assert (connected w = false) as Hc by (vm_compute; reflexivity).
  split; [done|].
  destruct (proj1 (ClientFacts.request_refused_when_not_connected rt0 "demo" stdio_config []
                     "tools/list" (JObj [])) Ht Hc) as (Hs & _ & Hid & _).
  split; [exact Hs|exact Hid].
Defined.

(** [stop()] while a call is pending: the call stays pending. *)
Example stop_keeps_requests_session :
  let w := run rt0 [CallTool "echo" echo_args; CallStop] stdio_ready in
  pendingRequests (client w) !! 3%Z = Some 4
  ∧ settled w !! 4 = None
  ∧ requestId (client w) = 3%Z.
Proof. vm_compute. done. Qed.


(** A notification on the sample http session, whatever the response. *)
Lemma http_notification_is_fulfilled_witness :
  let w := run rt0 http_handshake (new_McpClient "demo" http_config) in
  let w1 := fst (sendNotification rt0 "notifications/cancelled" (JObj []) w) in
  let p := snd (sendNotification rt0 "notifications/cancelled" (JObj []) w) in
  (transport (client w) = "http" ∧ httpUrl (client w) = Some "http://127.0.0.1:8080"
   ∧ URL_valid rt0 "http://127.0.0.1:8080" = true)
  ∧ ∀ err, settled (dispatch rt0 (HttpError (S p) err) w1) !! p = Some (Fulfilled None).
Proof.
  intros w w1 p.
  assert (transport (client w) = "http") as Ht by (vm_compute; reflexivity).
  assert (httpUrl (client w) = Some "http://127.0.0.1:8080") as Hu by (vm_compute; reflexivity).
  assert ("http://127.0.0.1:8080" ≠ "") as Hn by discriminate.
  split; [split; [exact Ht|split; [exact Hu|reflexivity]]|].
  destruct (proj1 (NotificationFacts.http_notification_is_fulfilled rt0 "demo" http_config
                     http_handshake "notifications/cancelled" (JObj [])
                     "http://127.0.0.1:8080" Ht Hu Hn) eq_refl) as (_ & _ & _ & H).
  exact H.
Defined.

(** A call leaves the process handle alone. *)
Lemma process_handle_kept_witness :
  touches_process (CallTool "echo" echo_args) = false
  ∧ isConnected (client (dispatch rt0 (CallTool "echo" echo_args) stdio_ready))
    = isConnected (client stdio_ready).
Proof.
  split; [reflexivity|].
  exact (proj2 (HandleFacts.process_handle_kept rt0 (CallTool "echo" echo_args) stdio_ready
                  eq_refl)).
Defined.

(** The stdio handshake with the sample server. *)
Lemma stdio_handshake_completes_witness :
  let t1 := stringify (initialize_ok 1) in
  let t2 := stringify (tools_ok 2) in
  let w := run rt0 [CallStart true; StdoutData (t1 +:+ newline); StdoutData (t2 +:+ newline)]
             (new_McpClient "demo" stdio_config) in
  (is_line t1 ∧ answers rt0 t1 1 initialize_result
   ∧ is_line t2 ∧ answers rt0 t2 2 tools_result)
  ∧ settled w !! 0 = Some (Fulfilled None)
  ∧ serverInfo (client w) = initialize_result
  ∧ tools (client w) = two_tools.
Proof.
  intros t1 t2 w.
  assert (transport (client (new_McpClient "demo" stdio_config)) = "stdio") as Ht
    by (vm_compute; reflexivity).
  assert (falsy (cfg_command stdio_config) = false) as Hc by reflexivity.
  assert (is_line t1) as L1 by (split; vm_compute; reflexivity).
  assert (is_line t2) as L2 by (split; vm_compute; reflexivity).
  assert (answers rt0 t1 1 initialize_result) as A1
    by (exists (initialize_ok 1); split; [|split]; vm_compute; reflexivity).
  assert (answers rt0 t2 2 tools_result) as A2
    by (exists (tools_ok 2); split; [|split]; vm_compute; reflexivity).
  assert (∃ line, connected_line initialize_result = inr line) as C1
    by (eexists; vm_compute; reflexivity).
  assert (Js.get tools_result "tools" = inr two_tools) as G by (vm_compute; reflexivity).
  assert (∃ line, discovered_line two_tools = inr line) as D
    by (eexists; vm_compute; reflexivity).
  split; [done|].
  destruct (HandshakeFacts.stdio_handshake_completes rt0 "demo" stdio_config t1 t2
              initialize_result tools_result two_tools Ht Hc L1 A1 C1 L2 A2 G D)
    as (_ & Hs & Hi & Htools & _).
  split; [exact Hs|]. split; [exact Hi|exact Htools].
Defined.


(** The http handshake with the sample server. *)
Lemma http_handshake_completes_witness :
  let url := "http://127.0.0.1:8080" in
  let body1 := stringify (initialize_ok 1) in
  let body3 := stringify (tools_ok 2) in
  let notified := HttpEnd 4 (stringify (JObj [])) in
  let w := run rt0 [CallStart true; HttpEnd 1 body1; notified; HttpEnd 5 body3]
             (new_McpClient "demo" http_config) in
  (cfg_type http_config = Some "http" ∧ cfg_url http_config = Some url
   ∧ URL_valid rt0 (Placeholder.resolvePlaceholders h0 url (workspaceFolder0 h0)) = true
   ∧ replies rt0 body1 initialize_result ∧ replies rt0 body3 tools_result)
  ∧ settled w !! 0 = Some (Fulfilled None)
  ∧ serverInfo (client w) = initialize_result
  ∧ tools (client w) = two_tools.
Proof.
  intros url body1 body3 notified w.
  assert (replies rt0 body1 initialize_result) as A1
    by (exists (initialize_ok 1); split; vm_compute; reflexivity).
  assert (replies rt0 body3 tools_result) as A2
    by (exists (tools_ok 2); split; vm_compute; reflexivity).
  assert (∃ line, connected_line initialize_result = inr line) as C1
    by (eexists; vm_compute; reflexivity).
  assert (Js.get tools_result "tools" = inr two_tools) as G by (vm_compute; reflexivity).
  assert (∃ line, discovered_line two_tools = inr line) as D
    by (eexists; vm_compute; reflexivity).
  assert (url ≠ "") as Hn by discriminate.
  assert (Placeholder.resolvePlaceholders (host rt0) url (workspaceFolder0 (host rt0)) ≠ "")
    as Ht by (vm_compute; discriminate).
  assert ((∃ body, notified = HttpEnd 4 body) ∨ (∃ err, notified = HttpError 4 err)) as N
    by (left; eexists; reflexivity).
  split; [done|].
  destruct (HandshakeFacts.http_handshake_completes rt0 "demo" http_config url body1 body3
              true notified initialize_result tools_result two_tools
              eq_refl eq_refl Hn Ht eq_refl A1 C1 N A2 G D)
    as (_ & Hs & Hi & Htools & _).
  split; [exact Hs|]. split; [exact Hi|exact Htools].
Defined.

(** [start()] over http when the [URL] constructor refuses the URL. *)
Lemma http_start_rejects_bad_url_witness :
  let url := "http://127.0.0.1:8080" in
  let w := dispatch rt_no_url (CallStart true) (new_McpClient "demo" http_config) in
  (cfg_type http_config = Some "http" ∧ cfg_url http_config = Some url
   ∧ URL_valid rt_no_url (Placeholder.resolvePlaceholders h0 url (workspaceFolder0 h0)) = false)
  ∧ settled w !! 0 = Some (Rejected (TypeError "Invalid URL"))
  ∧ requestId (client w) = 1%Z
  ∧ http_posts (trace w) = [].
Proof.
  intros url w.
  assert (url ≠ "") as Hn by discriminate.
  assert (Placeholder.resolvePlaceholders (host rt_no_url) url
            (workspaceFolder0 (host rt_no_url)) ≠ "") as Ht by (vm_compute; discriminate).
  split; [done|].
  exact (proj2 (proj2 (proj2 (HandshakeFacts.http_start_rejects_bad_url rt_no_url "demo"
                                http_config url true eq_refl eq_refl Hn))) Ht eq_refl).
Defined.


(** A path without a token. *)
Lemma resolvePlaceholders_without_token_witness :
  mentions "$" "/usr/bin/node" = false
  ∧ Placeholder.resolvePlaceholders h0 "/usr/bin/node" None = "/usr/bin/node".
Proof.
  split; [reflexivity|].
  exact (PlaceholderMore.resolvePlaceholders_without_token h0 None "/usr/bin/node"
           (or_introl eq_refl)).
Defined.

(** The basename of the sample workspace folder. *)
Lemma workspaceFolderBasename_is_last_segment_witness :
  (no_path_sep "proj" = true
   ∧ JsString.or_empty (JsString.or_else None (workspaceFolder0 h0)) = "/work" +:+ "/proj")
  ∧ Placeholder.resolvePlaceholders h0 "${workspaceFolderBasename}" None = "proj".
Proof.
  split; [split; reflexivity|].
  exact (PlaceholderMore.workspaceFolderBasename_is_last_segment h0 None "/work" "proj" "/"
           eq_refl (or_intror (conj eq_refl eq_refl))).
Defined.

(** The result of [echo], converted. *)
Lemma convertResult_never_empty_witness :
  convertResult echo_result = inr [TextPart (Some (JStr "Echo: hi"))]
  ∧ ∀ result',
      Js.get result' "content" = Js.get echo_result "content" →
      convertResult result' = inr [TextPart (Some (JStr "Echo: hi"))].
Proof.
  assert (convertResult echo_result = inr [TextPart (Some (JStr "Echo: hi"))]) as H
    by reflexivity.
  split; [exact H|].
  exact (proj2 (proj2 (ToolResultFacts.convertResult_never_empty echo_result _ H))).
Defined.

Lemma convertResult_text_witness :
  ["a"; "b"] ≠ []
  ∧ convertResult (Some (JObj [("content", JArr (text_item <$> ["a"; "b"]));
                               ("isError", JBool true)]))
    = inr ((λ t, TextPart (Some (JStr t))) <$> ["a"; "b"]).
Proof.
  assert (["a"; "b"] ≠ ([] : list string)) as H by discriminate.
  split; [exact H|].
  exact (ToolResultFacts.convertResult_text ["a"; "b"] [("isError", JBool true)] H).
Defined.

(** An image item is described, not passed on; an empty content array
    gives the stock text. *)
Example convertResult_image_and_empty :
  convertResult (Some (JObj [("content",
     JArr [JObj [("type", JStr "image"); ("mimeType", JStr "image/png")]])]))
  = inr [TextPart (Some (JStr "[Image: image/png]"))]
  ∧ convertResult (Some (JObj [("content", JArr [])])) = inr [completed]
  ∧ convertResult (Some (JObj [])) = inl (TypeError "result.content is not iterable").
Proof. vm_compute. done. Qed.

Lemma mcp_call_agrees_on_plain_content_witness :
  (Js.get echo_result "content" = inr (Some (JArr [text_item "Echo: hi"]))
   ∧ forallb plain_content [text_item "Echo: hi"] = true)
  ∧ convertResult echo_result = inr (mcp_call_result (Fulfilled echo_result)).
Proof.
  split; [split; reflexivity|].
  exact (proj1 (ToolResultFacts.mcp_call_agrees_on_plain_content echo_result
                  [text_item "Echo: hi"] eq_refl eq_refl)).
Defined.

(** The two tools of the sample session, registered and unregistered. *)
Lemma unregister_undoes_register_witness :
  let c := client stdio_ready in
  let items := [JObj [("name", JStr "echo")]; JObj [("name", JStr "sum")]] in
  let r1 := fst (registerClientTools lm_accepts_all c new_ToolRegistry) in
  let r2 := fst (unregisterClientTools c r1) in
  ToolResult.iterate "client.tools" (tools c) = inr items
  ∧ registeredTools (registry r2) = registeredTools (registry new_ToolRegistry)
  ∧ disposables (registry r2) = disposables (registry r1).
Proof.
  intros c items r1 r2.
  assert (ToolResult.iterate "client.tools" (tools c) = inr items) as H
    by (vm_compute; reflexivity).
  split; [exact H|].
  destruct (RegistryFacts.unregister_undoes_register lm_accepts_all c new_ToolRegistry items H)
    as (H1 & H2 & _).
  { intros t tn _ _. apply lookup_empty. }
  split; [exact H1|exact H2].
Defined.

Example registry_session :
  let c := client stdio_ready in
  let r1 := fst (registerClientTools lm_accepts_all c new_ToolRegistry) in
  let r2 := fst (unregisterClientTools c r1) in
  disposables (registry r1) = [0; 1]
  ∧ registeredTools (registry r1) !! "demo_echo" = Some 0
  ∧ registeredTools (registry r1) !! "demo_sum" = Some 1
  ∧ disposables (registry r2) = [0; 1]
  ∧ registry_trace (dispose r2)
    = registry_trace r2 ++ [DisposableDispose 0; DisposableDispose 1].
Proof. vm_compute. done. Qed.

(** A websocket session, started and ready, cannot be called through
    [mcp-call]. *)
Lemma mcp_call_needs_a_process_witness :
  let events := [CallStart true; WsOpen 0; WsMessage 0 (stringify (initialize_ok 1));
                 WsMessage 0 (stringify (tools_ok 2))] in
  let w := run rt0 events (new_McpClient "demo" websocket_config) in
  (transport (client (new_McpClient "demo" websocket_config)) ≠ "stdio"
   ∧ tools (client w) = two_tools)
  ∧ snd (mcp_call_invoke rt0 [("demo", w)] "demo" "echo" (Some echo_args))
    = inl [TextPart (Some (JStr "Error: MCP server 'demo' is not connected"))].
Proof.
  intros events w.
  assert (transport (client (new_McpClient "demo" websocket_config)) ≠ "stdio") as Ht
    by (vm_compute; discriminate).
  split; [split; [exact Ht|vm_compute; reflexivity]|].
  exact (proj2 (proj2 (proj2 (McpCallFacts.mcp_call_needs_a_process rt0 [("demo", w)] "demo"
                                "echo" (Some echo_args))))
           "demo" websocket_config events Ht eq_refl).
Defined.

(** The sample configuration file: the comment goes, and so does the end
    of the URL. *)
Example jsonContent_sample :
  jsonContent mcp_json
  = "{" +:+ nl +:+ "  " +:+ nl +:+ "  " +:+ dq +:+ "url" +:+ dq +:+ ": " +:+ dq +:+ "http:"
    +:+ nl +:+ "}".
Proof. vm_compute. reflexivity. Qed.

Example normalizeRelativeConfigPath_samples :
  normalizeRelativeConfigPath " ./.vscode/mcp.json " = ".vscode/mcp.json"
  ∧ normalizeRelativeConfigPath "//etc/mcp.json" = "etc/mcp.json"
  ∧ normalizeRelativeConfigPath ".//mcp.json" = "mcp.json"
  ∧ normalizeRelativeConfigPath "/./mcp.json" = "./mcp.json".
Proof. vm_compute. done. Qed.

Lemma strip_block_comments_removes_block_witness :
  (no_slash "{ " = true ∧ no_close (" servers" +:+ nl) = true)
  ∧ strip_block_comments ("{ " +:+ "/*" +:+ (" servers" +:+ nl) +:+ "*/" +:+ " }")
    = "{ " +:+ strip_block_comments " }".
Proof.
  split; [split; reflexivity|].
  exact (ExtensionFacts.strip_block_comments_removes_block "{ " (" servers" +:+ nl) " }"
           eq_refl eq_refl).
Defined.

End MoreScenarios.
